(** * Missile-defense game core (src/App.tsx): model and verified properties

    The embedding follows [App.tsx]: the mutable refs and React state of the
    component become one [State] record that every handler threads through;
    [Array.prototype.forEach] is modelled with its index-based semantics, so
    that a [splice] performed by the callback on the array under iteration
    has the effect it has in JavaScript.

    Numbers.  JavaScript numbers are idealised: coordinates, speeds, radii and
    the frame timestamp are real numbers ([R], with [sqrt] and [/] of the
    standard library), while the score, the ammunition counters and the
    [Date.now()] millisecond clock, which only ever hold integers, are [Z].
    NaN and infinities have no counterpart; [minDist = Infinity] in
    [handleFire] is an [option R].  Audio ([playSfx]) and drawing have no
    effect on the game state and are left out. *)

From Stdlib Require Import Reals Lra Lia ZArith List String Bool Arith.
From Stdlib Require Import Sorted Permutation.
Import ListNotations.

Open Scope R_scope.

(** ** Comparisons on numbers, as booleans *)

Definition Rltb (a b : R) : bool := if Rlt_dec a b then true else false.
Definition Rleb (a b : R) : bool := if Rle_dec a b then true else false.
Definition Rgtb (a b : R) : bool := Rltb b a.
Definition Rgeb (a b : R) : bool := Rleb b a.

(** ** Constants (App.tsx, lines 12-18) *)

Definition CANVAS_WIDTH : R := 800.
Definition CANVAS_HEIGHT : R := 600.
Definition EXPLOSION_MAX_RADIUS : R := 35.
Definition EXPLOSION_SPEED : R := 1.5.
Definition MISSILE_SPEED : R := 7.
Definition ROCKET_SPEED_MIN : R := 0.4.
Definition ROCKET_SPEED_MAX : R := 0.8.

(** ** Data model (types.ts) *)

Inductive GameStatus := START | PLAYING | WON | LOST.

Record Point := mkPoint { px : R; py : R }.

Record Rocket := mkRocket {
  rk_id : string;
  rk_start : Point;
  rk_current : Point;
  rk_target : Point;
  rk_speed : R;
  rk_color : string
}.

Record Missile := mkMissile {
  ms_id : string;
  ms_start : Point;
  ms_current : Point;
  ms_target : Point;
  ms_speed : R;
  ms_batteryIndex : nat;
  ms_targetRocketId : option string
}.

Record Explosion := mkExplosion {
  ex_id : string;
  ex_x : R;
  ex_y : R;
  ex_radius : R;
  ex_maxRadius : R;
  ex_growing : bool
}.

Record Battery := mkBattery {
  bt_x : R;
  bt_y : R;
  bt_missiles : Z;
  bt_maxMissiles : Z;
  bt_active : bool
}.

Record City := mkCity { ct_x : R; ct_active : bool }.

Inductive PowerUpType := AMMO | SUGAR.

Record PowerUp := mkPowerUp {
  pu_id : string;
  pu_x : R;
  pu_y : R;
  pu_type : PowerUpType;
  pu_createdAt : Z;
  pu_duration : Z
}.

(** The component state: React state ([status], [score], [isSugarActive]),
    the refs, and the callbacks registered with [setTimeout] that have not run
    yet, each kept as the clock value (ms) at which it becomes due. *)
Record State := mkState {
  status : GameStatus;
  score : Z;
  isSugarActive : bool;
  rocketsRef : list Rocket;
  missilesRef : list Missile;
  explosionsRef : list Explosion;
  powerUpsRef : list PowerUp;
  batteriesRef : list Battery;
  citiesRef : list City;
  lastSpawnTime : R;
  timeouts : list Z
}.

Definition setStatus (v : GameStatus) (s : State) : State :=
  mkState v (score s) (isSugarActive s) (rocketsRef s) (missilesRef s)
    (explosionsRef s) (powerUpsRef s) (batteriesRef s) (citiesRef s)
    (lastSpawnTime s) (timeouts s).

Definition setScore (f : Z -> Z) (s : State) : State :=
  mkState (status s) (f (score s)) (isSugarActive s) (rocketsRef s)
    (missilesRef s) (explosionsRef s) (powerUpsRef s) (batteriesRef s)
    (citiesRef s) (lastSpawnTime s) (timeouts s).

Definition setIsSugarActive (v : bool) (s : State) : State :=
  mkState (status s) (score s) v (rocketsRef s) (missilesRef s)
    (explosionsRef s) (powerUpsRef s) (batteriesRef s) (citiesRef s)
    (lastSpawnTime s) (timeouts s).

Definition setRockets (v : list Rocket) (s : State) : State :=
  mkState (status s) (score s) (isSugarActive s) v (missilesRef s)
    (explosionsRef s) (powerUpsRef s) (batteriesRef s) (citiesRef s)
    (lastSpawnTime s) (timeouts s).

Definition setMissiles (v : list Missile) (s : State) : State :=
  mkState (status s) (score s) (isSugarActive s) (rocketsRef s) v
    (explosionsRef s) (powerUpsRef s) (batteriesRef s) (citiesRef s)
    (lastSpawnTime s) (timeouts s).

Definition setExplosions (v : list Explosion) (s : State) : State :=
  mkState (status s) (score s) (isSugarActive s) (rocketsRef s)
    (missilesRef s) v (powerUpsRef s) (batteriesRef s) (citiesRef s)
    (lastSpawnTime s) (timeouts s).

Definition setPowerUps (v : list PowerUp) (s : State) : State :=
  mkState (status s) (score s) (isSugarActive s) (rocketsRef s)
    (missilesRef s) (explosionsRef s) v (batteriesRef s) (citiesRef s)
    (lastSpawnTime s) (timeouts s).

Definition setBatteries (v : list Battery) (s : State) : State :=
  mkState (status s) (score s) (isSugarActive s) (rocketsRef s)
    (missilesRef s) (explosionsRef s) (powerUpsRef s) v (citiesRef s)
    (lastSpawnTime s) (timeouts s).

Definition setCities (v : list City) (s : State) : State :=
  mkState (status s) (score s) (isSugarActive s) (rocketsRef s)
    (missilesRef s) (explosionsRef s) (powerUpsRef s) (batteriesRef s) v
    (lastSpawnTime s) (timeouts s).

Definition setLastSpawnTime (v : R) (s : State) : State :=
  mkState (status s) (score s) (isSugarActive s) (rocketsRef s)
    (missilesRef s) (explosionsRef s) (powerUpsRef s) (batteriesRef s)
    (citiesRef s) v (timeouts s).

Definition setTimeouts (v : list Z) (s : State) : State :=
  mkState (status s) (score s) (isSugarActive s) (rocketsRef s)
    (missilesRef s) (explosionsRef s) (powerUpsRef s) (batteriesRef s)
    (citiesRef s) (lastSpawnTime s) v.

(** ** Arrays *)

(** [arr.splice(i, 1)]. *)
Fixpoint splice1 {A : Type} (i : nat) (l : list A) : list A :=
  match l, i with
  | [], _ => []
  | _ :: l', O => l'
  | a :: l', S i' => a :: splice1 i' l'
  end.

(** Writing through the reference held at index [i]: the callbacks mutate
    the object they were handed, which is the one stored at the index under
    visit. *)
Fixpoint assign {A : Type} (i : nat) (v : A) (l : list A) : list A :=
  match l, i with
  | [], _ => []
  | _ :: l', O => v :: l'
  | a :: l', S i' => a :: assign i' v l'
  end.

(** [arr.forEach(cb)]: the length is read once, before the first call; index
    [k] is visited only if it is still present when its turn comes, and the
    element handed to the callback is whatever is stored at [k] by then.  A
    callback that removes the element under visit therefore makes the loop
    step over its successor. *)
Section ForEach.
Context {St A : Type}.
Variable arr : St -> list A.
Variable cb : A -> nat -> St -> St.

Fixpoint forEachFrom (n k : nat) (s : St) : St :=
  match n with
  | O => s
  | S n' =>
      match nth_error (arr s) k with
      | Some a => forEachFrom n' (S k) (cb a k s)
      | None => forEachFrom n' (S k) s
      end
  end.

Definition forEach (s : St) : St := forEachFrom (List.length (arr s)) 0 s.
End ForEach.

(** ** Geometry *)

(** [Math.sqrt(Math.pow(ax - bx, 2) + Math.pow(ay - by, 2))]. *)
Definition distance (ax ay bx b_y : R) : R :=
  sqrt ((ax - bx) ^ 2 + (ay - b_y) ^ 2).

(** The divisor of the two advance steps: the length of the vector from the
    start point to the target point. *)
Definition travel (start target : Point) : R :=
  let dx := px target - px start in
  let dy := py target - py start in
  sqrt (dx * dx + dy * dy).

(** One advance of [current] by [speed * factor] along start -> target. *)
Definition advance (start current target : Point) (speed factor : R) : Point :=
  let dx := px target - px start in
  let dy := py target - py start in
  let dist := travel start target in
  let vx := dx / dist * speed in
  let vy := dy / dist * speed in
  mkPoint (px current + vx * factor) (py current + vy * factor).

(** ** Session start: [initGame] (lines 233-254) *)

Definition initialBatteries : list Battery :=
  [ mkBattery 100 (CANVAS_HEIGHT - 40) 50 50 true;
    mkBattery (CANVAS_WIDTH / 2) (CANVAS_HEIGHT - 40) 100 100 true;
    mkBattery (CANVAS_WIDTH - 100) (CANVAS_HEIGHT - 40) 50 50 true ].

Definition initialCities : list City :=
  [ mkCity 150 true; mkCity 250 true; mkCity 350 true;
    mkCity 450 true; mkCity 550 true; mkCity 650 true ].

(** The component as mounted: [useState] and [useRef] initial values. *)
Definition mounted : State :=
  mkState START 0 false [] [] [] [] initialBatteries initialCities 0 [].

(** [initGame] leaves [lastSpawnTime] and the registered timeouts alone. *)
Definition initGame (s : State) : State :=
  mkState PLAYING 0 false [] [] [] [] initialBatteries initialCities
    (lastSpawnTime s) (timeouts s).

(** ** Fire command: [handleFire] (lines 288-390) *)

Definition cost (i : nat) : Z := if Nat.eqb i 0 then 10%Z else 1%Z.

(** The [forEach] of lines 317-326; [None] stands for [-1] in [best] and for
    [Infinity] in [minDist]. *)
Fixpoint bestBatteryFrom (x : R) (bs : list Battery) (i : nat)
    (best : option nat) (minDist : option R) : option nat :=
  match bs with
  | [] => best
  | b :: bs' =>
      if bt_active b && (bt_missiles b >=? cost i)%Z then
        let dist := Rabs (bt_x b - x) in
        if match minDist with None => true | Some m => Rltb dist m end
        then bestBatteryFrom x bs' (S i) (Some i) (Some dist)
        else bestBatteryFrom x bs' (S i) best minDist
      else bestBatteryFrom x bs' (S i) best minDist
  end.

Definition bestBattery (x : R) (bs : list Battery) : option nat :=
  bestBatteryFrom x bs 0 None None.

(** [Array.prototype.sort] with the comparator [distA - distB]: a stable
    sort by ascending key. *)
Fixpoint insertBy {A : Type} (key : A -> R) (a : A) (l : list A) : list A :=
  match l with
  | [] => [a]
  | b :: l' => if Rleb (key a) (key b) then a :: l else b :: insertBy key a l'
  end.

Definition sortBy {A : Type} (key : A -> R) (l : list A) : list A :=
  fold_right (insertBy key) [] l.

Definition spend (n : Z) (b : Battery) : Battery :=
  mkBattery (bt_x b) (bt_y b) (bt_missiles b - n) (bt_maxMissiles b)
    (bt_active b).

(** The Interceptors of the center battery, one per selected Rocket; [ids k]
    is the identifier drawn for the k-th of them. *)
Fixpoint trackers (battery : Battery) (ids : nat -> string) (k : nat)
    (targets : list Rocket) : list Missile :=
  match targets with
  | [] => []
  | targetRocket :: rest =>
      mkMissile (ids k)
        (mkPoint (bt_x battery) (bt_y battery))
        (mkPoint (bt_x battery) (bt_y battery))
        (mkPoint (px (rk_current targetRocket)) (py (rk_current targetRocket)))
        (MISSILE_SPEED * 1.5) 1 (Some (rk_id targetRocket))
      :: trackers battery ids (S k) rest
  end.

(** The Rockets the center battery locks on: the two nearest the fire point. *)
Definition lockOn (x y : R) (rockets : list Rocket) : list Rocket :=
  firstn 2
    (sortBy (fun r => distance (px (rk_current r)) (py (rk_current r)) x y)
       rockets).

(** What one shot of battery [i] costs and launches (lines 331-388). *)
Definition launch (i : nat) (battery : Battery) (rockets : list Rocket)
    (x y : R) (ids : nat -> string) : option (Z * list Missile) :=
  let origin := mkPoint (bt_x battery) (bt_y battery) in
  match i with
  | 0%nat =>
      Some (10%Z,
            [mkMissile (ids 0%nat) origin origin (mkPoint x y)
               (MISSILE_SPEED * 0.7) 0 None])
  | 1%nat =>
      let targets := lockOn x y rockets in
      let count := Z.max 1 (Z.of_nat (List.length targets)) in
      match targets with
      | [] =>
          Some (count,
                [mkMissile (ids 0%nat) origin origin (mkPoint x y)
                   MISSILE_SPEED 1 None])
      | _ :: _ => Some (count, trackers battery ids 0 targets)
      end
  | 2%nat =>
      Some (1%Z,
            [mkMissile (ids 0%nat) origin origin (mkPoint x y)
               MISSILE_SPEED 2 None])
  | _ => None
  end.

(** [handleFire] at the canvas point [(x, y)]; the conversion of the pointer
    event to canvas coordinates belongs to the input layer. *)
Definition handleFire (x y : R) (ids : nat -> string) (s : State) : State :=
  match status s with
  | PLAYING =>
      if Rgtb y (CANVAS_HEIGHT - 80) then s
      else
        match bestBattery x (batteriesRef s) with
        | None => s
        | Some i =>
            match nth_error (batteriesRef s) i with
            | None => s
            | Some battery =>
                match launch i battery (rocketsRef s) x y ids with
                | None => s
                | Some (n, shots) =>
                    setMissiles (missilesRef s ++ shots)
                      (setBatteries
                         (assign i (spend n battery) (batteriesRef s)) s)
                end
            end
        end
  | _ => s
  end.

(** ** One frame: [update] (lines 392-562) *)

(** Everything a frame reads from outside: the [Math.random()] draws, in the
    order of the calls, and the two [Date.now()] readings. *)
Record Rand := mkRand {
  rnd_startX : R;
  rnd_target : R;
  rnd_rocketId : string;
  rnd_speed : R;
  rnd_chance : R;
  rnd_puId : string;
  rnd_puType : R;
  rnd_puX : R;
  rnd_puY : R;
  dateNowSpawn : Z;
  dateNow : Z
}.

(** [Math.floor] of a non-negative number, as an index. *)
Definition floorIndex (r : R) : nat := Z.to_nat (Int_part r).

(** [spawnRocket] (lines 256-273).  A draw in [0, 1) always selects a target;
    the model leaves the pool alone for any other value. *)
Definition spawnRocket (rnd : Rand) (s : State) : State :=
  let startX := rnd_startX rnd * CANVAS_WIDTH in
  let targets :=
    map ct_x (filter ct_active (citiesRef s))
    ++ map bt_x (filter bt_active (batteriesRef s)) in
  match targets with
  | [] => s
  | _ :: _ =>
      match nth_error targets
              (floorIndex (rnd_target rnd * INR (List.length targets))) with
      | None => s
      | Some targetX =>
          setRockets
            (rocketsRef s ++
             [mkRocket (rnd_rocketId rnd) (mkPoint startX 0) (mkPoint startX 0)
                (mkPoint targetX (CANVAS_HEIGHT - 20))
                (ROCKET_SPEED_MIN
                 + rnd_speed rnd * (ROCKET_SPEED_MAX - ROCKET_SPEED_MIN))
                "#ff4444"]) s
      end
  end.

(** [spawnPowerUp] (lines 275-286). *)
Definition spawnPowerUp (rnd : Rand) (s : State) : State :=
  setPowerUps
    (powerUpsRef s ++
     [mkPowerUp (rnd_puId rnd)
        (50 + rnd_puX rnd * (CANVAS_WIDTH - 100))
        (100 + rnd_puY rnd * (CANVAS_HEIGHT - 300))
        (if Rgtb (rnd_puType rnd) 0.5 then AMMO else SUGAR)
        (dateNowSpawn rnd) 5000]) s.

(** Lines 395-405. *)
Definition spawnPhase (time : R) (rnd : Rand) (s : State) : State :=
  let spawnDelay := Z.max 200 (1500 - Z.min (score s) 800) in
  if Rgtb (time - lastSpawnTime s) (IZR spawnDelay) then
    let s1 := setLastSpawnTime time (spawnRocket rnd s) in
    if Rltb (rnd_chance rnd) 0.1 then spawnPowerUp rnd s1 else s1
  else s.

(** The two score mutations of an impact and the one of a kill. *)
Definition cityPenalty (prev : Z) : Z := Z.max 0 (prev - 10).
Definition batteryPenalty (prev : Z) : Z := Z.max 0 (prev - 30).
Definition killReward (prev : Z) : Z := (prev + 20)%Z.

(** Lines 435-440: every active city within 30 of the impact is lost. *)
Fixpoint damageCities (impactX : R) (cs : list City) (sc : Z)
    : list City * Z :=
  match cs with
  | [] => ([], sc)
  | city :: cs' =>
      if ct_active city && Rltb (Rabs (ct_x city - impactX)) 30 then
        let '(cs'', sc') := damageCities impactX cs' (cityPenalty sc) in
        (mkCity (ct_x city) false :: cs'', sc')
      else
        let '(cs'', sc') := damageCities impactX cs' sc in
        (city :: cs'', sc')
  end.

Definition knockOut (b : Battery) : Battery :=
  mkBattery (bt_x b) (bt_y b) (bt_missiles b) (bt_maxMissiles b) false.

(** Lines 441-446. *)
Fixpoint damageBatteries (impactX : R) (bs : list Battery) (sc : Z)
    : list Battery * Z :=
  match bs with
  | [] => ([], sc)
  | battery :: bs' =>
      if bt_active battery && Rltb (Rabs (bt_x battery - impactX)) 30 then
        let '(bs'', sc') := damageBatteries impactX bs' (batteryPenalty sc) in
        (knockOut battery :: bs'', sc')
      else
        let '(bs'', sc') := damageBatteries impactX bs' sc in
        (battery :: bs'', sc')
  end.

Definition impactBlast (rocket : Rocket) : Explosion :=
  mkExplosion ("impact-" ++ rk_id rocket)
    (px (rk_current rocket)) (py (rk_current rocket)) 2 20 true.

(** The callback of [rocketsRef.current.forEach] (lines 411-450); [slow] is
    the [isSugarActive] the frame's closure captured. *)
Definition rocketStep (slow : bool) (rocket : Rocket) (index : nat)
    (s : State) : State :=
  let moved :=
    mkRocket (rk_id rocket) (rk_start rocket)
      (advance (rk_start rocket) (rk_current rocket) (rk_target rocket)
         (rk_speed rocket) (if slow then 0.4 else 1))
      (rk_target rocket) (rk_speed rocket) (rk_color rocket) in
  let s1 := setRockets (assign index moved (rocketsRef s)) s in
  if Rgeb (py (rk_current moved)) (py (rk_target moved)) then
    let s2 := setExplosions (explosionsRef s1 ++ [impactBlast moved]) s1 in
    let '(cities, sc) :=
      damageCities (px (rk_current moved)) (citiesRef s2) (score s2) in
    let s3 := setScore (fun _ => sc) (setCities cities s2) in
    let '(batteries, sc') :=
      damageBatteries (px (rk_current moved)) (batteriesRef s3) (score s3) in
    let s4 := setScore (fun _ => sc') (setBatteries batteries s3) in
    setRockets (splice1 index (rocketsRef s4)) s4
  else s1.

(** A string is truthy unless it is empty. *)
Definition truthy (str : string) : bool :=
  match str with EmptyString => false | String _ _ => true end.

(** Lines 455-463: a tracking Interceptor follows its Rocket, or drops the
    reference once the Rocket is gone. *)
Definition retarget (rockets : list Rocket) (missile : Missile) : Missile :=
  match ms_targetRocketId missile with
  | Some tid =>
      if truthy tid then
        match find (fun r => String.eqb (rk_id r) tid) rockets with
        | Some targetRocket =>
            mkMissile (ms_id missile) (ms_start missile) (ms_current missile)
              (mkPoint (px (rk_current targetRocket))
                 (py (rk_current targetRocket)))
              (ms_speed missile) (ms_batteryIndex missile)
              (ms_targetRocketId missile)
        | None =>
            mkMissile (ms_id missile) (ms_start missile) (ms_current missile)
              (ms_target missile) (ms_speed missile) (ms_batteryIndex missile)
              None
        end
      else missile
  | None => missile
  end.

Definition detonation (missile : Missile) : Explosion :=
  let isNuke := Nat.eqb (ms_batteryIndex missile) 0 in
  let isWide := Nat.eqb (ms_batteryIndex missile) 2 in
  mkExplosion ("exp-" ++ ms_id missile)
    (px (ms_target missile)) (py (ms_target missile)) 2
    (if isNuke then 150 else if isWide then 70 else EXPLOSION_MAX_RADIUS)
    true.

(** The callback of [missilesRef.current.forEach] (lines 453-492). *)
Definition missileStep (missile : Missile) (index : nat) (s : State) : State :=
  let aimed := retarget (rocketsRef s) missile in
  let moved :=
    mkMissile (ms_id aimed) (ms_start aimed)
      (advance (ms_start aimed) (ms_current aimed) (ms_target aimed)
         (ms_speed aimed) 1)
      (ms_target aimed) (ms_speed aimed) (ms_batteryIndex aimed)
      (ms_targetRocketId aimed) in
  let s1 := setMissiles (assign index moved (missilesRef s)) s in
  let distToTarget :=
    distance (px (ms_target moved)) (py (ms_target moved))
      (px (ms_current moved)) (py (ms_current moved)) in
  if Rltb distToTarget (ms_speed moved) then
    let s2 := setExplosions (explosionsRef s1 ++ [detonation moved]) s1 in
    setMissiles (splice1 index (missilesRef s2)) s2
  else s1.

(** The callback of the first [powerUpsRef.current.forEach] (lines 496-500). *)
Definition powerUpExpire (now : Z) (pu : PowerUp) (index : nat) (s : State)
    : State :=
  if (now - pu_createdAt pu >? pu_duration pu)%Z
  then setPowerUps (splice1 index (powerUpsRef s)) s
  else s.

(** Lines 504-512: growth, the flip to fading, decay.  The result is the
    Blast after the step and whether it leaves the pool. *)
Definition pulse (exp : Explosion) : Explosion * bool :=
  if ex_growing exp then
    let radius := ex_radius exp + EXPLOSION_SPEED in
    (mkExplosion (ex_id exp) (ex_x exp) (ex_y exp) radius (ex_maxRadius exp)
       (if Rgeb radius (ex_maxRadius exp) then false else true),
     false)
  else
    let radius := ex_radius exp - EXPLOSION_SPEED * 0.5 in
    (mkExplosion (ex_id exp) (ex_x exp) (ex_y exp) radius (ex_maxRadius exp)
       false,
     Rleb radius 0).

(** The test of lines 516-520 and 529-533. *)
Definition within (exp : Explosion) (x y : R) : bool :=
  Rltb (distance (ex_x exp) (ex_y exp) x y) (ex_radius exp).

(** The callback of the inner [rocketsRef.current.forEach] (lines 515-525). *)
Definition rocketCollide (exp : Explosion) (rocket : Rocket) (rIndex : nat)
    (s : State) : State :=
  if within exp (px (rk_current rocket)) (py (rk_current rocket)) then
    setScore killReward (setRockets (splice1 rIndex (rocketsRef s)) s)
  else s.

Definition refill (b : Battery) : Battery :=
  if bt_active b
  then mkBattery (bt_x b) (bt_y b) (bt_maxMissiles b) (bt_maxMissiles b)
         (bt_active b)
  else b.

(** Lines 541-542: [setIsSugarActive(true)] and a timeout that will call
    [setIsSugarActive(false)] 5000 ms later. *)
Definition consumeSugar (now : Z) (s : State) : State :=
  setTimeouts (timeouts s ++ [(now + 5000)%Z]) (setIsSugarActive true s).

(** The callback of the inner [powerUpsRef.current.forEach] (lines 528-546). *)
Definition powerUpCollide (now : Z) (exp : Explosion) (pu : PowerUp)
    (puIndex : nat) (s : State) : State :=
  if within exp (pu_x pu) (pu_y pu) then
    let s1 :=
      match pu_type pu with
      | AMMO => setBatteries (map refill (batteriesRef s)) s
      | SUGAR => consumeSugar now s
      end in
    setPowerUps (splice1 puIndex (powerUpsRef s1)) s1
  else s.

(** The callback of [explosionsRef.current.forEach] (lines 503-547). *)
Definition explosionStep (now : Z) (exp : Explosion) (index : nat) (s : State)
    : State :=
  let '(exp', gone) := pulse exp in
  let s1 :=
    if gone
    then setExplosions (splice1 index (explosionsRef s)) s
    else setExplosions (assign index exp' (explosionsRef s)) s in
  let s2 := forEach rocketsRef (rocketCollide exp') s1 in
  forEach powerUpsRef (powerUpCollide now exp') s2.

(** Lines 550-555. *)
Fixpoint ammoCheckFrom (i : nat) (bs : list Battery) : list Battery :=
  match bs with
  | [] => []
  | b :: bs' =>
      (if bt_active b && (bt_missiles b <? cost i)%Z then knockOut b else b)
      :: ammoCheckFrom (S i) bs'
  end.

Definition ammoCheck (s : State) : State :=
  setBatteries (ammoCheckFrom 0 (batteriesRef s)) s.

(** Lines 558-561. *)
Definition loseCheck (s : State) : State :=
  if forallb (fun b => negb (bt_active b)) (batteriesRef s)
  then setStatus LOST s
  else s.

(** Everything a frame does before the lose check. *)
Definition mutate (time : R) (rnd : Rand) (s : State) : State :=
  let slow := isSugarActive s in
  let s1 := spawnPhase time rnd s in
  let s2 := forEach rocketsRef (rocketStep slow) s1 in
  let s3 := forEach missilesRef missileStep s2 in
  let s4 := forEach powerUpsRef (powerUpExpire (dateNow rnd)) s3 in
  let s5 := forEach explosionsRef (explosionStep (dateNow rnd)) s4 in
  ammoCheck s5.

Definition update (time : R) (rnd : Rand) (s : State) : State :=
  match status s with
  | PLAYING => loseCheck (mutate time rnd s)
  | _ => s
  end.

(** ** Timers and the event loop *)

(** The callbacks due at clock value [t] run, in registration order; each
    is [() => setIsSugarActive(false)]. *)
Definition runTimeouts (t : Z) (s : State) : State :=
  let due := filter (fun d => (d <=? t)%Z) (timeouts s) in
  let pending := filter (fun d => negb (d <=? t)%Z) (timeouts s) in
  fold_left (fun acc _ => setIsSugarActive false acc) due
    (setTimeouts pending s).

(** What can happen to the component between two renders. *)
Inductive Event :=
| Start
| Fire (x y : R) (ids : nat -> string)
| Frame (time : R) (rnd : Rand)
| Timer (t : Z).

Definition handle (e : Event) (s : State) : State :=
  match e with
  | Start => initGame s
  | Fire x y ids => handleFire x y ids s
  | Frame time rnd => update time rnd s
  | Timer t => runTimeouts t s
  end.

Definition run (es : list Event) (s : State) : State :=
  fold_left (fun acc e => handle e acc) es s.

Definition reachable (s : State) : Prop := exists es, s = run es mounted.

(** ** Vocabulary of the statements *)

(** Where a battery stands. *)
Definition site (b : Battery) : R * R := (bt_x b, bt_y b).

(** What no step of a frame, no fire command and no timer touches: the
    status (only the lose check and [initGame] write it), the position of the
    batteries, and the sign of the score. *)
Definition keeps (s s' : State) : Prop :=
  status s' = status s
  /\ map site (batteriesRef s') = map site (batteriesRef s)
  /\ ((0 <= score s)%Z -> (0 <= score s')%Z).

(** The batteries never move, and the score never drops below zero. *)
Definition grounded (s : State) : Prop :=
  map site (batteriesRef s) = map site initialBatteries /\ (0 <= score s)%Z.

(** The three ways the score is written during a session. *)
Inductive ScoreMutation := CityHit | BatteryHit | Kill.

Definition applyMutation (m : ScoreMutation) : Z -> Z :=
  match m with
  | CityHit => cityPenalty
  | BatteryHit => batteryPenalty
  | Kill => killReward
  end.

Definition scoreAfter (ms : list ScoreMutation) : Z :=
  fold_left (fun sc m => applyMutation m sc) ms 0%Z.

Definition allInactive (bs : list Battery) : bool :=
  forallb (fun b => negb (bt_active b)) bs.

(** The slow-motion flag at clock value [t], after a slow-time pickup was
    consumed at [t1] and another one at [t2], the timers due by [t2] and then
    those due by [t] having run. *)
Definition sugarAt (t1 t2 t : Z) (s : State) : bool :=
  isSugarActive
    (runTimeouts t (consumeSugar t2 (runTimeouts t2 (consumeSugar t1 s)))).

(** What a loop that removes the element under visit leaves of an array:
    the element that follows a removed one slides into the visited index and
    is stepped over. *)
Fixpoint sweep {A : Type} (hit : A -> bool) (l : list A) : list A :=
  match l with
  | [] => []
  | a :: l' =>
      if hit a
      then match l' with [] => [] | b :: l'' => b :: sweep hit l'' end
      else a :: sweep hit l'
  end.

(** How many elements such a loop removes. *)
Fixpoint struck {A : Type} (hit : A -> bool) (l : list A) : nat :=
  match l with
  | [] => 0
  | a :: l' =>
      if hit a
      then S (match l' with [] => 0 | _ :: l'' => struck hit l'' end)
      else struck hit l'
  end.

(** A Rocket inside the current radius of a Blast. *)
Definition caught (exp : Explosion) (rocket : Rocket) : bool :=
  within exp (px (rk_current rocket)) (py (rk_current rocket)).

(** The collision pass on its own: the [forEach] over the Blast pool. *)
Definition collisionPass (now : Z) (s : State) : State :=
  forEach explosionsRef (explosionStep now) s.

(** Scenarios: a Rocket falling straight down at abscissa [x], now at height
    [y], and a running session, otherwise fresh, with the given pools. *)
Definition falling (id : string) (x y : R) : Rocket :=
  mkRocket id (mkPoint x 0) (mkPoint x y) (mkPoint x (CANVAS_HEIGHT - 20)) 0.5
    "#ff4444".

Definition arena (rockets : list Rocket) (explosions : list Explosion)
    (powerUps : list PowerUp) : State :=
  mkState PLAYING 0 false rockets [] explosions powerUps initialBatteries
    initialCities 0 [].

(** What the loop over the Blast pool leaves of the pool: every visited Blast
    takes its step, and the Blast that follows a removed one is stepped over,
    as it is. *)
Fixpoint pulseSweep (l : list Explosion) : list Explosion :=
  match l with
  | [] => []
  | e :: l' =>
      if snd (pulse e)
      then match l' with [] => [] | b :: l'' => b :: pulseSweep l'' end
      else fst (pulse e) :: pulseSweep l'
  end.

(** Every Blast of the pool has a positive radius. *)
Definition blastsPositive (s : State) : Prop :=
  Forall (fun e => 0 < ex_radius e) (explosionsRef s).

(** ** The pointer, the layout, the stock *)

(** The rectangle the canvas occupies on the page ([getBoundingClientRect]). *)
Record Rect := mkRect {
  rect_left : R;
  rect_top : R;
  rect_width : R;
  rect_height : R
}.

(** Lines 305-308: from page coordinates to canvas coordinates. *)
Definition canvasPoint (rect : Rect) (clientX clientY : R) : R * R :=
  let scaleX := CANVAS_WIDTH / rect_width rect in
  let scaleY := CANVAS_HEIGHT / rect_height rect in
  ((clientX - rect_left rect) * scaleX, (clientY - rect_top rect) * scaleY).

(** [handleFire] from the pointer event on: lines 288-311 in front of the
    dispatch; a mouse event and the first touch of a touch event both come as
    one pair of page coordinates, and [None] is a canvas not mounted. *)
Definition handlePointer (rect : option Rect) (clientX clientY : R)
    (ids : nat -> string) (s : State) : State :=
  match status s with
  | PLAYING =>
      match rect with
      | None => s
      | Some r =>
          let '(x, y) := canvasPoint r clientX clientY in
          handleFire x y ids s
      end
  | _ => s
  end.

(** Line 396. *)
Definition spawnDelay (sc : Z) : Z := Z.max 200 (1500 - Z.min sc 800).

(** The test of line 319. *)
Definition eligible (i : nat) (b : Battery) : bool :=
  bt_active b && (bt_missiles b >=? cost i)%Z.

(** How far a fire point is from a battery, as line 320 measures it. *)
Definition reach (x : R) (b : Battery) : R := Rabs (bt_x b - x).

(** The lowest stock battery [i] can be left with. *)
Definition ammoFloor (i : nat) : Z := if Nat.eqb i 1 then (-1)%Z else 0%Z.

(** Every battery, from index [i] on, holds between its floor and its
    capacity. *)
Fixpoint stockedFrom (i : nat) (bs : list Battery) : Prop :=
  match bs with
  | [] => True
  | b :: bs' =>
      (ammoFloor i <= bt_missiles b <= bt_maxMissiles b)%Z
      /\ stockedFrom (S i) bs'
  end.

(** A battery, a city, later in the same session: same place, same capacity,
    and active only if it was. *)
Definition laterBattery (b b' : Battery) : Prop :=
  site b' = site b
  /\ bt_maxMissiles b' = bt_maxMissiles b
  /\ (bt_active b' = true -> bt_active b = true).

Definition laterCity (c c' : City) : Prop :=
  ct_x c' = ct_x c /\ (ct_active c' = true -> ct_active c = true).

Definition later (s s' : State) : Prop :=
  Forall2 laterBattery (batteriesRef s) (batteriesRef s')
  /\ Forall2 laterCity (citiesRef s) (citiesRef s').

(** ** Blasts over several visits *)

(** The Blast after [n] visits, [None] once a visit has removed it. *)
Fixpoint pulses (n : nat) (exp : Explosion) : option Explosion :=
  match n with
  | O => Some exp
  | S n' =>
      let '(exp', gone) := pulse exp in
      if gone then None else pulses n' exp'
  end.

(** What holds of every Blast the game creates, all along its life. *)
Definition soundBlast (e : Explosion) : Prop :=
  0 < ex_radius e < ex_maxRadius e + 1.5
  /\ (ex_growing e = true -> ex_radius e < ex_maxRadius e)
  /\ (ex_maxRadius e = 20 \/ ex_maxRadius e = 35
      \/ ex_maxRadius e = 70 \/ ex_maxRadius e = 150).

(** ** The voice commander (VoiceCommander.tsx, voiceService.ts) *)

(** [Math.trunc]: what storing a number into an [Int16Array] keeps of it,
    before wrapping. *)
Definition truncate (r : R) : Z :=
  if Rle_dec 0 r then Int_part r else (- Int_part (- r))%Z.

(** The wrap to 16 signed bits of an [Int16Array] element. *)
Definition toInt16 (z : Z) : Z := ((z + 32768) mod 65536 - 32768)%Z.

(** voiceService.ts, line 89: one microphone sample to 16-bit PCM. *)
Definition encodeSample (x : R) : Z :=
  toInt16 (truncate (Rmax (-1) (Rmin 1 x) * 32767)).

(** VoiceCommander.tsx, line 47: one PCM sample back to a float. *)
Definition decodeSample (n : Z) : R := IZR n / 32767.

(** The refs of the playback queue, and the chunks handed to an audio source
    so far, in the order of [source.start()]. *)
Record Voice := mkVoice {
  audioQueueRef : list string;
  isPlayingRef : bool;
  started : list string
}.

(** [playNextInQueue] (VoiceCommander.tsx, lines 21-61).  [playable] tells
    whether the body of the [try] goes through for a chunk; when it throws,
    the [catch] moves on to the next chunk. *)
Fixpoint playNextInQueue (playable : string -> bool) (queue log : list string)
    : Voice :=
  match queue with
  | [] => mkVoice [] false log
  | base64Data :: queue' =>
      if playable base64Data
      then mkVoice queue' true (log ++ [base64Data])
      else playNextInQueue playable queue' log
  end.

(** What reaches the queue: a chunk from the service ([onAudioData]), the end
    of the source that is playing ([onended]), an interruption
    ([onInterrupted]), the commander switched off ([toggleVoice]). *)
Inductive VoiceEvent :=
| AudioData (data : string)
| Ended
| Interrupted
| SwitchedOff.

Definition voiceStep (playable : string -> bool) (e : VoiceEvent) (v : Voice)
    : Voice :=
  match e with
  | AudioData data =>
      if isPlayingRef v
      then mkVoice (audioQueueRef v ++ [data]) true (started v)
      else playNextInQueue playable (audioQueueRef v ++ [data]) (started v)
  | Ended => playNextInQueue playable (audioQueueRef v) (started v)
  | Interrupted => mkVoice [] (isPlayingRef v) (started v)
  | SwitchedOff => mkVoice [] (isPlayingRef v) (started v)
  end.

Definition voiceRun (playable : string -> bool) (es : list VoiceEvent)
    (v : Voice) : Voice :=
  fold_left (fun acc e => voiceStep playable e acc) es v.

(** The chunks of a list of events, in order of arrival. *)
Fixpoint arrivals (es : list VoiceEvent) : list string :=
  match es with
  | [] => []
  | AudioData data :: es' => data :: arrivals es'
  | _ :: es' => arrivals es'
  end.

(** No interruption, no switching off. *)
Definition undisturbed (e : VoiceEvent) : bool :=
  match e with AudioData _ | Ended => true | _ => false end.

(** * Facts *)

(** ** Comparisons *)

Lemma Rltb_true a b : a < b -> Rltb a b = true.
Proof. intros H. unfold Rltb. destruct (Rlt_dec a b); [reflexivity | lra]. Qed.

Lemma Rltb_false a b : b <= a -> Rltb a b = false.
Proof. intros H. unfold Rltb. destruct (Rlt_dec a b); [lra | reflexivity]. Qed.

Lemma Rleb_true a b : a <= b -> Rleb a b = true.
Proof. intros H. unfold Rleb. destruct (Rle_dec a b); [reflexivity | lra]. Qed.

Lemma Rleb_false a b : b < a -> Rleb a b = false.
Proof. intros H. unfold Rleb. destruct (Rle_dec a b); [lra | reflexivity]. Qed.

Lemma Rltb_spec a b : Rltb a b = true <-> a < b.
Proof.
  unfold Rltb. destruct (Rlt_dec a b); split; auto; discriminate.
Qed.

Lemma Rleb_spec a b : Rleb a b = true <-> a <= b.
Proof.
  unfold Rleb. destruct (Rle_dec a b); split; auto; discriminate.
Qed.

Lemma Rgtb_false a b : Rgtb a b = false <-> a <= b.
Proof.
  unfold Rgtb, Rltb. destruct (Rlt_dec b a); split; intros H.
  - discriminate.
  - exfalso. lra.
  - lra.
  - reflexivity.
Qed.

(** [sqrt d < r] decided on the squares. *)
Lemma sqrt_below d r : 0 <= d -> 0 < r -> d < r * r -> sqrt d < r.
Proof.
  intros Hd Hr H. rewrite <- (sqrt_square r) by lra.
  apply sqrt_lt_1; nra.
Qed.

Lemma sqrt_above d r : 0 <= r -> r * r <= d -> r <= sqrt d.
Proof.
  intros Hr H. rewrite <- (sqrt_square r) at 1 by lra.
  apply sqrt_le_1; nra.
Qed.

Lemma distance_nonneg ax ay bx b_y : 0 <= distance ax ay bx b_y.
Proof. apply sqrt_pos. Qed.

Lemma within_hit exp x y :
  0 < ex_radius exp ->
  (ex_x exp - x) ^ 2 + (ex_y exp - y) ^ 2 < ex_radius exp * ex_radius exp ->
  within exp x y = true.
Proof.
  intros Hr H. apply Rltb_true. unfold distance.
  apply sqrt_below; auto.
  pose proof (pow2_ge_0 (ex_x exp - x)).
  pose proof (pow2_ge_0 (ex_y exp - y)). lra.
Qed.

Lemma within_miss exp x y :
  0 <= ex_radius exp ->
  ex_radius exp * ex_radius exp <= (ex_x exp - x) ^ 2 + (ex_y exp - y) ^ 2 ->
  within exp x y = false.
Proof.
  intros Hr H. apply Rltb_false. unfold distance. apply sqrt_above; auto.
Qed.

(** A Blast whose radius is not positive hits nothing. *)
Lemma within_spent exp x y : ex_radius exp <= 0 -> within exp x y = false.
Proof.
  intros Hr. apply Rltb_false.
  pose proof (distance_nonneg (ex_x exp) (ex_y exp) x y). lra.
Qed.

(** ** Arrays *)

Lemma Forall_splice1 {A} (P : A -> Prop) (l : list A) i :
  Forall P l -> Forall P (splice1 i l).
Proof.
  intros H. revert i. induction H as [|a l Ha Hl IH]; intros [|i]; simpl; auto.
Qed.

Lemma Forall_assign {A} (P : A -> Prop) (l : list A) i v :
  P v -> Forall P l -> Forall P (assign i v l).
Proof.
  intros Hv H. revert i.
  induction H as [|a l Ha Hl IH]; intros [|i]; simpl; auto.
Qed.

Lemma map_assign_same {A B} (f : A -> B) (l : list A) i a v :
  nth_error l i = Some a -> f v = f a -> map f (assign i v l) = map f l.
Proof.
  revert i. induction l as [|b l IH]; intros [|i]; simpl; try discriminate.
  - intros [= ->] ->. reflexivity.
  - intros H Hv. f_equal. eauto.
Qed.

(** ** Loops *)

Section ForEachFacts.
Context {St A : Type}.
Variable arr : St -> list A.
Variable cb : A -> nat -> St -> St.

(** A property kept by every call of the callback is kept by the loop. *)
Lemma forEachFrom_invariant (P : St -> Prop) :
  (forall a k s, nth_error (arr s) k = Some a -> P s -> P (cb a k s)) ->
  forall n k s, P s -> P (forEachFrom arr cb n k s).
Proof.
  intros Hcb n. induction n as [|n IH]; intros k s Hs; simpl; auto.
  destruct (nth_error (arr s) k) eqn:E; auto.
Qed.

Lemma forEach_invariant (P : St -> Prop) :
  (forall a k s, nth_error (arr s) k = Some a -> P s -> P (cb a k s)) ->
  forall s, P s -> P (forEach arr cb s).
Proof. intros Hcb s. apply forEachFrom_invariant, Hcb. Qed.

(** Past the end of the array nothing is visited. *)
Lemma forEachFrom_past n k s :
  (List.length (arr s) <= k)%nat -> forEachFrom arr cb n k s = s.
Proof.
  revert k. induction n as [|n IH]; intros k H; simpl; auto.
  destruct (nth_error (arr s) k) eqn:E.
  - assert (nth_error (arr s) k <> None) as E' by congruence.
    apply nth_error_Some in E'. lia.
  - apply IH. lia.
Qed.
End ForEachFacts.

(** ** What a frame leaves alone *)

Lemma keeps_refl s : keeps s s.
Proof. unfold keeps. auto. Qed.

Lemma keeps_trans s1 s2 s3 : keeps s1 s2 -> keeps s2 s3 -> keeps s1 s3.
Proof.
  unfold keeps. intros (A1 & B1 & C1) (A2 & B2 & C2).
  repeat split; try congruence. auto.
Qed.

Lemma forEach_keeps {A} (arr : State -> list A) cb :
  (forall a k s, nth_error (arr s) k = Some a -> keeps s (cb a k s)) ->
  forall s, keeps s (forEach arr cb s).
Proof.
  intros Hcb s.
  apply (forEach_invariant arr cb (fun s' => keeps s s')).
  - intros a k s' E H. eapply keeps_trans; eauto.
  - apply keeps_refl.
Qed.

Lemma damageCities_score impactX cs sc :
  (0 <= sc)%Z -> (0 <= snd (damageCities impactX cs sc))%Z.
Proof.
  revert sc. induction cs as [|c cs IH]; intros sc H; simpl; auto.
  destruct (ct_active c && _).
  - specialize (IH (cityPenalty sc)).
    destruct (damageCities impactX cs (cityPenalty sc)); simpl in *.
    apply IH. unfold cityPenalty. lia.
  - specialize (IH sc H). destruct (damageCities impactX cs sc); auto.
Qed.

Lemma damageBatteries_score impactX bs sc :
  (0 <= sc)%Z -> (0 <= snd (damageBatteries impactX bs sc))%Z.
Proof.
  revert sc. induction bs as [|b bs IH]; intros sc H; simpl; auto.
  destruct (bt_active b && _).
  - specialize (IH (batteryPenalty sc)).
    destruct (damageBatteries impactX bs (batteryPenalty sc)); simpl in *.
    apply IH. unfold batteryPenalty. lia.
  - specialize (IH sc H). destruct (damageBatteries impactX bs sc); auto.
Qed.

Lemma damageBatteries_site impactX bs sc :
  map site (fst (damageBatteries impactX bs sc)) = map site bs.
Proof.
  revert sc. induction bs as [|b bs IH]; intros sc; simpl; auto.
  destruct (bt_active b && _).
  - specialize (IH (batteryPenalty sc)).
    destruct (damageBatteries impactX bs (batteryPenalty sc)); simpl in *.
    f_equal. exact IH.
  - specialize (IH sc). destruct (damageBatteries impactX bs sc); simpl in *.
    f_equal. exact IH.
Qed.

Ltac keeps_now := unfold keeps; simpl; repeat split; auto; try lia.

Lemma spawnRocket_keeps rnd s : keeps s (spawnRocket rnd s).
Proof.
  unfold spawnRocket.
  destruct (map ct_x _ ++ map bt_x _) as [|t ts]; [apply keeps_refl|].
  destruct (nth_error _ _); [keeps_now | apply keeps_refl].
Qed.

Lemma spawnPhase_keeps time rnd s : keeps s (spawnPhase time rnd s).
Proof.
  unfold spawnPhase. destruct (Rgtb _ _); [|apply keeps_refl].
  pose proof (spawnRocket_keeps rnd s) as H.
  assert (keeps s (setLastSpawnTime time (spawnRocket rnd s))) as H1.
  { destruct H as (A & B & C). keeps_now. }
  destruct (Rltb (rnd_chance rnd) 0.1); [|exact H1].
  eapply keeps_trans; [exact H1|]. keeps_now.
Qed.

Lemma rocketStep_keeps slow rocket index s :
  keeps s (rocketStep slow rocket index s).
Proof.
  unfold rocketStep. cbv zeta.
  destruct (Rgeb _ _); [|keeps_now].
  simpl.
  pose proof (damageCities_score
                (px (advance (rk_start rocket) (rk_current rocket)
                       (rk_target rocket) (rk_speed rocket)
                       (if slow then 0.4 else 1)))
                (citiesRef s) (score s)) as Hc.
  destruct (damageCities _ (citiesRef s) (score s)) as [cities sc].
  simpl in *.
  pose proof (damageBatteries_score
                (px (advance (rk_start rocket) (rk_current rocket)
                       (rk_target rocket) (rk_speed rocket)
                       (if slow then 0.4 else 1)))
                (batteriesRef s) sc) as Hb.
  pose proof (damageBatteries_site
                (px (advance (rk_start rocket) (rk_current rocket)
                       (rk_target rocket) (rk_speed rocket)
                       (if slow then 0.4 else 1)))
                (batteriesRef s) sc) as Hs.
  destruct (damageBatteries _ (batteriesRef s) sc) as [batteries sc'].
  simpl in *. keeps_now.
Qed.

Lemma missileStep_keeps missile index s : keeps s (missileStep missile index s).
Proof.
  unfold missileStep. cbv zeta. destruct (Rltb _ _); keeps_now.
Qed.

Lemma powerUpExpire_keeps now pu index s :
  keeps s (powerUpExpire now pu index s).
Proof.
  unfold powerUpExpire. destruct (_ >? _)%Z; keeps_now.
Qed.

Lemma rocketCollide_keeps exp rocket rIndex s :
  keeps s (rocketCollide exp rocket rIndex s).
Proof.
  unfold rocketCollide. destruct (within _ _ _); keeps_now.
  unfold killReward. lia.
Qed.

Lemma refill_site b : site (refill b) = site b.
Proof. unfold refill. destruct (bt_active b); reflexivity. Qed.

Lemma powerUpCollide_keeps now exp pu puIndex s :
  keeps s (powerUpCollide now exp pu puIndex s).
Proof.
  unfold powerUpCollide. destruct (within _ _ _); [|apply keeps_refl].
  destruct (pu_type pu); keeps_now.
  rewrite map_map. apply map_ext. intros b. apply refill_site.
Qed.

Lemma explosionStep_keeps now exp index s :
  keeps s (explosionStep now exp index s).
Proof.
  unfold explosionStep. destruct (pulse exp) as [exp' gone].
  eapply keeps_trans; [|apply forEach_keeps; intros; apply powerUpCollide_keeps].
  eapply keeps_trans; [|apply forEach_keeps; intros; apply rocketCollide_keeps].
  destruct gone; keeps_now.
Qed.

Lemma ammoCheckFrom_site i bs : map site (ammoCheckFrom i bs) = map site bs.
Proof.
  revert i. induction bs as [|b bs IH]; intros i; simpl; auto.
  rewrite IH. destruct (bt_active b && _); reflexivity.
Qed.

Lemma ammoCheck_keeps s : keeps s (ammoCheck s).
Proof. keeps_now. apply ammoCheckFrom_site. Qed.

Lemma mutate_keeps time rnd s : keeps s (mutate time rnd s).
Proof.
  unfold mutate. cbv zeta.
  eapply keeps_trans; [|apply ammoCheck_keeps].
  eapply keeps_trans; [|apply forEach_keeps; intros; apply explosionStep_keeps].
  eapply keeps_trans; [|apply forEach_keeps; intros; apply powerUpExpire_keeps].
  eapply keeps_trans; [|apply forEach_keeps; intros; apply missileStep_keeps].
  eapply keeps_trans; [|apply forEach_keeps; intros; apply rocketStep_keeps].
  apply spawnPhase_keeps.
Qed.

Lemma loseCheck_batteries s : batteriesRef (loseCheck s) = batteriesRef s.
Proof. unfold loseCheck. destruct (forallb _ _); reflexivity. Qed.

Lemma loseCheck_explosions s : explosionsRef (loseCheck s) = explosionsRef s.
Proof. unfold loseCheck. destruct (forallb _ _); reflexivity. Qed.

Lemma loseCheck_rockets s : rocketsRef (loseCheck s) = rocketsRef s.
Proof. unfold loseCheck. destruct (forallb _ _); reflexivity. Qed.

Lemma loseCheck_score s : score (loseCheck s) = score s.
Proof. unfold loseCheck. destruct (forallb _ _); reflexivity. Qed.

Lemma handleFire_keeps x y ids s : keeps s (handleFire x y ids s).
Proof.
  unfold handleFire.
  destruct (status s); try apply keeps_refl.
  destruct (Rgtb _ _); [apply keeps_refl|].
  destruct (bestBattery _ _) as [i|]; [|apply keeps_refl].
  destruct (nth_error _ _) as [battery|] eqn:E; [|apply keeps_refl].
  destruct (launch _ _ _ _ _ _) as [[n shots]|]; [|apply keeps_refl].
  keeps_now. eapply map_assign_same; eauto.
Qed.

Lemma runTimeouts_keeps t s : keeps s (runTimeouts t s).
Proof.
  unfold runTimeouts.
  set (s0 := setTimeouts _ s).
  assert (keeps s s0) as H0 by (subst s0; keeps_now).
  clearbody s0. revert s0 H0.
  induction (filter (fun d => (d <=? t)%Z) (timeouts s)) as [|d l IH];
    intros s0 H0; simpl; [exact H0|].
  apply IH. eapply keeps_trans; [exact H0|]. keeps_now.
Qed.

(** ** Reachable states *)

Lemma keeps_grounded s s' : keeps s s' -> grounded s -> grounded s'.
Proof.
  unfold keeps, grounded. intros (A & B & C) (D & E). split; auto. congruence.
Qed.

Lemma update_grounded time rnd s : grounded s -> grounded (update time rnd s).
Proof.
  intros H. unfold update. destruct (status s); auto.
  pose proof (keeps_grounded _ _ (mutate_keeps time rnd s) H) as [A B].
  unfold grounded. rewrite loseCheck_batteries, loseCheck_score. auto.
Qed.

Lemma handle_grounded e s : grounded s -> grounded (handle e s).
Proof.
  intros H. destruct e; simpl.
  - unfold grounded. simpl. split; [reflexivity | lia].
  - eapply keeps_grounded; [apply handleFire_keeps | exact H].
  - apply update_grounded, H.
  - eapply keeps_grounded; [apply runTimeouts_keeps | exact H].
Qed.

Lemma run_grounded es s : grounded s -> grounded (run es s).
Proof.
  revert s. induction es as [|e es IH]; intros s H; simpl; auto.
  apply IH, handle_grounded, H.
Qed.

Lemma reachable_grounded s : reachable s -> grounded s.
Proof.
  intros [es ->]. apply run_grounded. unfold grounded. simpl.
  split; [reflexivity | lia].
Qed.

Lemma reachable_step e s : reachable s -> reachable (handle e s).
Proof.
  intros [es ->]. exists (es ++ [e]). unfold run.
  rewrite fold_left_app. reflexivity.
Qed.

(** * The claims *)

(** ** Session reset *)

(** The configuration a session starts from, apart from the spawn clock and
    the timers still pending, which [initGame] does not reset. *)
Lemma reset_forgets s :
  setTimeouts [] (setLastSpawnTime 0 (handle Start s)) = handle Start mounted.
Proof. reflexivity. Qed.

(** C8.  Whatever the state the start/reset command finds (in particular any
    state reached after a loss), it leaves the initial configuration: the
    session is running, the score is 0, the three batteries are active with
    50, 100 and 50 missiles, the six cities are active, and the rocket,
    missile, explosion and power-up pools are empty. *)
Theorem reset_restores_initial_configuration (s : State) :
  let s' := handle Start s in
  status s' = PLAYING
  /\ score s' = 0%Z
  /\ map (fun b => (bt_missiles b, bt_maxMissiles b, bt_active b))
       (batteriesRef s')
     = [(50, 50, true); (100, 100, true); (50, 50, true)]%Z
  /\ batteriesRef s' = batteriesRef mounted
  /\ map ct_active (citiesRef s') = [true; true; true; true; true; true]
  /\ citiesRef s' = citiesRef mounted
  /\ rocketsRef s' = []
  /\ missilesRef s' = []
  /\ explosionsRef s' = []
  /\ powerUpsRef s' = [].
Proof. cbv zeta. unfold handle, initGame. simpl. repeat split. Qed.

(** ** Score *)

Lemma applyMutation_nonneg m sc : (0 <= sc)%Z -> (0 <= applyMutation m sc)%Z.
Proof.
  destruct m; simpl; unfold cityPenalty, batteryPenalty, killReward; lia.
Qed.

Lemma fold_mutations_nonneg ms sc :
  (0 <= sc)%Z -> (0 <= fold_left (fun a m => applyMutation m a) ms sc)%Z.
Proof.
  revert sc. induction ms as [|m ms IH]; intros sc H; simpl; auto.
  apply IH, applyMutation_nonneg, H.
Qed.

(** C7.  The score never goes negative.  Starting from 0, after any sequence
    of city hits (-10, clamped), battery hits (-30, clamped) and kills (+20),
    [max(0, score) = score]; and the same holds of the score of every state
    the component can reach, whatever the start commands, fire commands,
    frames and timers that led to it. *)
Theorem score_never_negative :
  (forall ms, Z.max 0 (scoreAfter ms) = scoreAfter ms)
  /\ (forall es, Z.max 0 (score (run es mounted)) = score (run es mounted)).
Proof.
  split.
  - intros ms. apply Z.max_r. apply fold_mutations_nonneg. lia.
  - intros es. apply Z.max_r.
    apply (reachable_grounded (run es mounted)). exists es. reflexivity.
Qed.

(** ** Loss *)

Lemma loseCheck_status s :
  status s = PLAYING ->
  (status (loseCheck s) = LOST <-> allInactive (batteriesRef s) = true).
Proof.
  intros H. unfold loseCheck, allInactive.
  destruct (forallb _ _); simpl; split; auto; try congruence.
Qed.

(** C3.  In a running session, a frame is the mutations of the frame followed
    by one lose check; the mutations leave the status alone, so the frame ends
    lost if and only if all the batteries, of which there are three, are
    inactive once the mutations are done, and it never ends lost while one of
    them is active. *)
Theorem lost_iff_all_batteries_inactive time rnd s :
  reachable s ->
  status s = PLAYING ->
  let s' := update time rnd s in
  s' = loseCheck (mutate time rnd s)
  /\ status (mutate time rnd s) = PLAYING
  /\ batteriesRef s' = batteriesRef (mutate time rnd s)
  /\ List.length (batteriesRef s') = 3%nat
  /\ (status s' = LOST <-> allInactive (batteriesRef s') = true)
  /\ ((exists b, In b (batteriesRef s') /\ bt_active b = true) ->
      status s' = PLAYING).
Proof.
  intros Hr Hs. cbv zeta.
  assert (update time rnd s = loseCheck (mutate time rnd s)) as Hu
    by (unfold update; rewrite Hs; reflexivity).
  destruct (mutate_keeps time rnd s) as (Hst & Hsite & _).
  rewrite Hs in Hst.
  destruct (reachable_grounded s Hr) as [Hg _].
  rewrite Hu, loseCheck_batteries.
  repeat split.
  - exact Hst.
  - rewrite <- (length_map site), Hsite, Hg. reflexivity.
  - apply loseCheck_status, Hst.
  - apply loseCheck_status, Hst.
  - intros (b & Hin & Hb). unfold loseCheck.
    destruct (forallb _ _) eqn:E; [|exact Hst].
    rewrite forallb_forall in E. specialize (E b Hin).
    rewrite Hb in E. discriminate.
Qed.

Lemma lost_iff_all_batteries_inactive_witness :
  let s := run [Start] mounted in
  let rnd := mkRand 0 0 "a" 0 1 "b" 0 0 0 0 0 in
  reachable s /\ status s = PLAYING
  /\ (status (update 0 rnd s) = LOST
      <-> allInactive (batteriesRef (update 0 rnd s)) = true).
Proof.
  cbv zeta.
  assert (reachable (run [Start] mounted)) as Hr by (exists [Start]; reflexivity).
  split; [exact Hr|]. split; [reflexivity|].
  apply (lost_iff_all_batteries_inactive 0 (mkRand 0 0 "a" 0 1 "b" 0 0 0 0 0)
           (run [Start] mounted) Hr eq_refl).
Defined.

Lemma allInactive_flags bs bs' :
  map bt_active bs' = map bt_active bs -> allInactive bs' = allInactive bs.
Proof.
  revert bs'. induction bs as [|b bs IH]; intros [|b' bs']; simpl;
    try discriminate; auto.
  intros [= -> H]. rewrite (IH bs' H). reflexivity.
Qed.

Lemma handleFire_flags x y ids s :
  map bt_active (batteriesRef (handleFire x y ids s))
  = map bt_active (batteriesRef s).
Proof.
  unfold handleFire.
  destruct (status s); auto. destruct (Rgtb _ _); auto.
  destruct (bestBattery _ _) as [i|]; auto.
  destruct (nth_error _ _) as [battery|] eqn:E; auto.
  destruct (launch _ _ _ _ _ _) as [[cnt shots]|]; auto.
  cbn [batteriesRef setMissiles setBatteries].
  eapply map_assign_same; eauto.
Qed.

Lemma runTimeouts_batteries t s :
  batteriesRef (runTimeouts t s) = batteriesRef s.
Proof.
  unfold runTimeouts.
  set (s0 := setTimeouts _ s).
  change (batteriesRef s) with (batteriesRef s0). generalize s0. clear s0.
  induction (filter (fun d => (d <=? t)%Z) (timeouts s)) as [|d l IH];
    intros s0; simpl; auto.
  rewrite IH. reflexivity.
Qed.

(** Between frames as well: in every state the component can reach, the
    session is lost exactly when all the batteries are inactive.  A fire
    command and a timer change neither side, a start clears both. *)
Lemma reachable_lost_iff s :
  reachable s -> (status s = LOST <-> allInactive (batteriesRef s) = true).
Proof.
  intros [es ->].
  assert (forall s0,
            (status s0 = LOST <-> allInactive (batteriesRef s0) = true) ->
            status (run es s0) = LOST
            <-> allInactive (batteriesRef (run es s0)) = true) as H.
  { induction es as [|e es IH]; intros s0 H0; simpl; auto.
    apply IH. destruct e; simpl.
    - split; discriminate.
    - destruct (handleFire_keeps x y ids s0) as (Hst & _ & _).
      rewrite Hst, (allInactive_flags _ _ (handleFire_flags x y ids s0)).
      exact H0.
    - unfold update.
      destruct (status s0) eqn:Hs; try (rewrite Hs; exact H0).
      destruct (mutate_keeps time rnd s0) as (Hst & _ & _).
      rewrite Hs in Hst. rewrite loseCheck_batteries.
      apply loseCheck_status, Hst.
    - destruct (runTimeouts_keeps t s0) as (Hst & _ & _).
      rewrite Hst, runTimeouts_batteries. exact H0. }
  apply H. simpl. split; discriminate.
Qed.

(** ** Fire commands *)

Lemma insertBy_length {A} (key : A -> R) a l :
  List.length (insertBy key a l) = S (List.length l).
Proof.
  induction l as [|b l IH]; simpl; auto.
  destruct (Rleb _ _); simpl; auto.
Qed.

Lemma sortBy_length {A} (key : A -> R) l :
  List.length (sortBy key l) = List.length l.
Proof.
  induction l as [|a l IH]; simpl; auto.
  rewrite insertBy_length. auto.
Qed.

Lemma insertBy_In {A} (key : A -> R) a l x :
  In x (insertBy key a l) <-> x = a \/ In x l.
Proof.
  induction l as [|b l IH]; simpl.
  - intuition.
  - destruct (Rleb _ _); simpl; intuition.
Qed.

Lemma sortBy_In {A} (key : A -> R) l x : In x (sortBy key l) <-> In x l.
Proof.
  induction l as [|a l IH]; simpl; [tauto|].
  rewrite insertBy_In, IH. intuition.
Qed.

Lemma In_firstn {A} n (l : list A) x : In x (firstn n l) -> In x l.
Proof.
  revert l. induction n as [|n IH]; intros [|a l]; simpl; try tauto.
  intros [H|H]; auto.
Qed.

Lemma lockOn_In x y rockets r : In r (lockOn x y rockets) -> In r rockets.
Proof.
  unfold lockOn. intros H. apply In_firstn in H.
  apply sortBy_In in H. exact H.
Qed.


Lemma trackers_tracking battery ids k targets m :
  In m (trackers battery ids k targets) -> ms_targetRocketId m <> None.
Proof.
  revert k. induction targets as [|t ts IH]; intros k; simpl; [tauto|].
  intros [<-|H]; simpl; [discriminate | eauto].
Qed.

(** What an accepted fire command does, battery by battery. *)
Lemma handleFire_accepted x y ids s i battery n shots :
  status s = PLAYING ->
  Rgtb y (CANVAS_HEIGHT - 80) = false ->
  bestBattery x (batteriesRef s) = Some i ->
  nth_error (batteriesRef s) i = Some battery ->
  launch i battery (rocketsRef s) x y ids = Some (n, shots) ->
  handleFire x y ids s
  = setMissiles (missilesRef s ++ shots)
      (setBatteries (assign i (spend n battery) (batteriesRef s)) s).
Proof.
  intros Hs Hy Hb Hn Hl. unfold handleFire.
  rewrite Hs, Hy, Hb, Hn, Hl. reflexivity.
Qed.

Lemma nth_error_assign {A} (l : list A) i a v :
  nth_error l i = Some a -> nth_error (assign i v l) i = Some v.
Proof.
  revert i. induction l as [|b l IH]; intros [|i]; simpl; try discriminate;
    auto.
Qed.

(** The Interceptors a fire command adds. *)
Lemma handleFire_shots x y ids s m :
  In m (missilesRef (handleFire x y ids s)) ->
  ~ In m (missilesRef s) ->
  Rgtb y (CANVAS_HEIGHT - 80) = false
  /\ exists i battery n shots,
       nth_error (batteriesRef s) i = Some battery
       /\ launch i battery (rocketsRef s) x y ids = Some (n, shots)
       /\ In m shots.
Proof.
  unfold handleFire. intros Hin Hnew.
  destruct (status s); try contradiction.
  destruct (Rgtb _ _) eqn:Hy; [contradiction|].
  destruct (bestBattery _ _) as [i|]; [|contradiction].
  destruct (nth_error _ _) as [battery|] eqn:E; [|contradiction].
  destruct (launch _ _ _ _ _ _) as [[n shots]|] eqn:L; [|contradiction].
  simpl in Hin. apply in_app_or in Hin. destruct Hin as [H|H]; [contradiction|].
  split; [reflexivity|]. exists i, battery, n, shots. auto.
Qed.

Lemma launch_untracked i battery rockets x y ids n shots m :
  launch i battery rockets x y ids = Some (n, shots) ->
  In m shots ->
  ms_targetRocketId m = None ->
  ms_start m = mkPoint (bt_x battery) (bt_y battery)
  /\ ms_target m = mkPoint x y.
Proof.
  unfold launch. intros L Hin Hnone.
  destruct i as [|[|[|i]]]; try discriminate.
  - injection L as <- <-. destruct Hin as [<-|[]]. auto.
  - destruct (lockOn x y rockets) as [|r rs] eqn:E.
    + injection L as <- <-. destruct Hin as [<-|[]]. auto.
    + injection L as <- <-.
      apply (trackers_tracking battery ids 0 (r :: rs)) in Hin.
      contradiction.
  - injection L as <- <-. destruct Hin as [<-|[]]. auto.
Qed.

Lemma grounded_battery_y s i battery :
  grounded s -> nth_error (batteriesRef s) i = Some battery ->
  bt_y battery = CANVAS_HEIGHT - 40.
Proof.
  intros [Hg _] Hn.
  apply (map_nth_error site) in Hn. rewrite Hg in Hn.
  destruct i as [|[|[|i]]]; simpl in Hn.
  - injection Hn as _ <-. reflexivity.
  - injection Hn as _ <-. reflexivity.
  - injection Hn as _ <-. reflexivity.
  - destruct i; discriminate.
Qed.

(** An Interceptor without a tracking reference keeps its target, so its
    advance step divides by the same [travel] frame after frame. *)
Lemma retarget_untracked rockets missile :
  ms_targetRocketId missile = None -> retarget rockets missile = missile.
Proof. intros H. unfold retarget. rewrite H. reflexivity. Qed.

(** C9.  The advance step of an Interceptor divides by the distance from its
    start point to its target point.  For an Interceptor that a fire command
    creates without a tracking reference, the target is the fire point, which
    was accepted and so has y <= 520, and the start is the launch point of a
    battery, at y = 560: the divisor is at least 40, hence not zero. *)
Theorem untracked_interceptor_divisor_nonzero x y ids s m :
  reachable s ->
  In m (missilesRef (handleFire x y ids s)) ->
  ~ In m (missilesRef s) ->
  ms_targetRocketId m = None ->
  py (ms_target m) <= 520
  /\ py (ms_start m) = 560
  /\ 40 <= travel (ms_start m) (ms_target m)
  /\ travel (ms_start m) (ms_target m) <> 0.
Proof.
  intros Hr Hin Hnew Hnone.
  destruct (handleFire_shots x y ids s m Hin Hnew)
    as (Hy & i & battery & n & shots & Hn & L & Hs).
  destruct (launch_untracked _ _ _ _ _ _ _ _ _ L Hs Hnone) as [-> ->].
  pose proof (grounded_battery_y s i battery (reachable_grounded s Hr) Hn) as Hb.
  apply Rgtb_false in Hy. unfold CANVAS_HEIGHT in *. simpl.
  assert (40 <= travel (mkPoint (bt_x battery) (bt_y battery)) (mkPoint x y))
    as Ht.
  { unfold travel. simpl. apply sqrt_above; [lra|].
    rewrite Hb.
    pose proof (Rle_0_sqr (x - bt_x battery)) as Hx. unfold Rsqr in Hx.
    assert (40 * 40 <= (y - (600 - 40)) * (y - (600 - 40))) by nra.
    lra. }
  repeat split; lra.
Qed.

(** Deciding the comparisons of a run on given numbers. *)
Ltac Rsolve :=
  unfold CANVAS_WIDTH, CANVAS_HEIGHT, EXPLOSION_SPEED, EXPLOSION_MAX_RADIUS,
    MISSILE_SPEED;
  unfold Rabs; repeat destruct (Rcase_abs _); lra.

Ltac Reval :=
  unfold Rgtb, Rgeb;
  repeat match goal with
    | |- context [Rltb ?a ?b] =>
        first [ rewrite (Rltb_true a b) by Rsolve
              | rewrite (Rltb_false a b) by Rsolve ]
    | |- context [Rleb ?a ?b] =>
        first [ rewrite (Rleb_true a b) by Rsolve
              | rewrite (Rleb_false a b) by Rsolve ]
    end.

(** In a fresh session, a shot at (100, 100) goes to the left battery. *)
Lemma fire_left_fresh ids :
  handleFire 100 100 ids (run [Start] mounted)
  = setMissiles
      [mkMissile (ids 0%nat) (mkPoint 100 (CANVAS_HEIGHT - 40))
         (mkPoint 100 (CANVAS_HEIGHT - 40)) (mkPoint 100 100)
         (MISSILE_SPEED * 0.7) 0 None]
      (setBatteries
         (assign 0 (spend 10 (mkBattery 100 (CANVAS_HEIGHT - 40) 50 50 true))
            initialBatteries)
         (run [Start] mounted)).
Proof.
  unfold handleFire. simpl status. cbv iota.
  assert (bestBattery 100 (batteriesRef (run [Start] mounted)) = Some 0%nat)
    as Hb.
  { unfold bestBattery. simpl. Reval. reflexivity. }
  rewrite Hb. Reval. reflexivity.
Qed.

Lemma untracked_interceptor_divisor_nonzero_witness :
  let s := run [Start] mounted in
  let m :=
    mkMissile "m" (mkPoint 100 (CANVAS_HEIGHT - 40))
      (mkPoint 100 (CANVAS_HEIGHT - 40)) (mkPoint 100 100)
      (MISSILE_SPEED * 0.7) 0 None in
  reachable s
  /\ In m (missilesRef (handleFire 100 100 (fun _ => "m"%string) s))
  /\ ~ In m (missilesRef s)
  /\ travel (ms_start m) (ms_target m) <> 0.
Proof.
  cbv zeta.
  assert (reachable (run [Start] mounted)) as Hr by (exists [Start]; reflexivity).
  assert (In (mkMissile "m" (mkPoint 100 (CANVAS_HEIGHT - 40))
                (mkPoint 100 (CANVAS_HEIGHT - 40)) (mkPoint 100 100)
                (MISSILE_SPEED * 0.7) 0 None)
            (missilesRef (handleFire 100 100 (fun _ => "m"%string)
                            (run [Start] mounted)))) as Hin
    by (rewrite fire_left_fresh; left; reflexivity).
  assert (~ In (mkMissile "m" (mkPoint 100 (CANVAS_HEIGHT - 40))
                  (mkPoint 100 (CANVAS_HEIGHT - 40)) (mkPoint 100 100)
                  (MISSILE_SPEED * 0.7) 0 None)
              (missilesRef (run [Start] mounted))) as Hnew
    by (simpl; tauto).
  repeat split; auto.
  apply (untracked_interceptor_divisor_nonzero 100 100 (fun _ => "m"%string)
           (run [Start] mounted) _ Hr Hin Hnew eq_refl).
Defined.

(** The battery a fire command selects is active and can pay for a shot. *)
Lemma bestBatteryFrom_eligible x bs i best minDist j :
  bestBatteryFrom x bs i best minDist = Some j ->
  best = Some j
  \/ exists b, (i <= j)%nat /\ nth_error bs (j - i) = Some b
               /\ bt_active b = true /\ (cost j <= bt_missiles b)%Z.
Proof.
  revert i best minDist.
  induction bs as [|b bs IH]; intros i best minDist; simpl; auto.
  destruct (bt_active b && _) eqn:E.
  - destruct (match minDist with None => true | Some m => _ end).
    + intros H. apply IH in H. destruct H as [H|(c & Hle & Hn & Ha & Hc)].
      * injection H as <-. right. exists b. rewrite Nat.sub_diag. simpl.
        apply andb_prop in E. destruct E as [Ea Ec].
        repeat split; auto. lia.
      * right. exists c. replace (j - i)%nat with (S (j - S i)) by lia.
        simpl. repeat split; auto. lia.
    + intros H. apply IH in H. destruct H as [H|(c & Hle & Hn & Ha & Hc)]; auto.
      right. exists c. replace (j - i)%nat with (S (j - S i)) by lia.
      simpl. repeat split; auto. lia.
  - intros H. apply IH in H. destruct H as [H|(c & Hle & Hn & Ha & Hc)]; auto.
    right. exists c. replace (j - i)%nat with (S (j - S i)) by lia.
    simpl. repeat split; auto. lia.
Qed.

Lemma bestBattery_eligible x bs j :
  bestBattery x bs = Some j ->
  exists b, nth_error bs j = Some b
            /\ bt_active b = true /\ (cost j <= bt_missiles b)%Z.
Proof.
  intros H. apply bestBatteryFrom_eligible in H.
  destruct H as [H|(b & _ & Hn & Ha & Hc)]; [discriminate|].
  rewrite Nat.sub_0_r in Hn. eauto.
Qed.

(** C6.  A fire command that goes to the center battery while the rocket pool
    is empty adds exactly one Interceptor: it has no tracking reference, it
    starts at the battery, its target is the fire point, its speed is
    [MISSILE_SPEED] without the 1.5 factor; the center battery pays exactly
    one missile and the other batteries are as they were. *)
Theorem center_fire_without_rockets x y ids s battery :
  status s = PLAYING ->
  Rgtb y (CANVAS_HEIGHT - 80) = false ->
  bestBattery x (batteriesRef s) = Some 1%nat ->
  nth_error (batteriesRef s) 1 = Some battery ->
  rocketsRef s = [] ->
  let s' := handleFire x y ids s in
  missilesRef s'
  = missilesRef s
    ++ [mkMissile (ids 0%nat) (mkPoint (bt_x battery) (bt_y battery))
          (mkPoint (bt_x battery) (bt_y battery)) (mkPoint x y)
          MISSILE_SPEED 1 None]
  /\ batteriesRef s' = assign 1 (spend 1 battery) (batteriesRef s)
  /\ nth_error (batteriesRef s') 1 = Some (spend 1 battery)
  /\ bt_missiles (spend 1 battery) = (bt_missiles battery - 1)%Z.
Proof.
  intros Hs Hy Hb Hn Hr. cbv zeta.
  rewrite (handleFire_accepted x y ids s 1 battery 1
             [mkMissile (ids 0%nat) (mkPoint (bt_x battery) (bt_y battery))
                (mkPoint (bt_x battery) (bt_y battery)) (mkPoint x y)
                MISSILE_SPEED 1 None] Hs Hy Hb Hn).
  - unfold setMissiles, setBatteries. cbn [missilesRef batteriesRef].
    repeat split. eapply nth_error_assign; eauto.
  - rewrite Hr. reflexivity.
Qed.

Lemma center_fire_without_rockets_witness :
  let battery := mkBattery (CANVAS_WIDTH / 2) (CANVAS_HEIGHT - 40) 100 100 true in
  let s :=
    mkState PLAYING 0 false [] [] [] []
      [ mkBattery 100 (CANVAS_HEIGHT - 40) 50 50 false; battery;
        mkBattery (CANVAS_WIDTH - 100) (CANVAS_HEIGHT - 40) 50 50 false ]
      initialCities 0 [] in
  missilesRef (handleFire 300 200 (fun _ => "m"%string) s)
  = [mkMissile "m" (mkPoint (CANVAS_WIDTH / 2) (CANVAS_HEIGHT - 40))
       (mkPoint (CANVAS_WIDTH / 2) (CANVAS_HEIGHT - 40)) (mkPoint 300 200)
       MISSILE_SPEED 1 None]
  /\ nth_error (batteriesRef (handleFire 300 200 (fun _ => "m"%string) s)) 1
     = Some (mkBattery (CANVAS_WIDTH / 2) (CANVAS_HEIGHT - 40) 99 100 true).
Proof.
  cbv zeta.
  assert (Rgtb 200 (CANVAS_HEIGHT - 80) = false) as Hy by (Reval; reflexivity).
  destruct (center_fire_without_rockets 300 200 (fun _ => "m"%string)
              (mkState PLAYING 0 false [] [] [] []
                 [ mkBattery 100 (CANVAS_HEIGHT - 40) 50 50 false;
                   mkBattery (CANVAS_WIDTH / 2) (CANVAS_HEIGHT - 40) 100 100 true;
                   mkBattery (CANVAS_WIDTH - 100) (CANVAS_HEIGHT - 40) 50 50 false ]
                 initialCities 0 [])
              (mkBattery (CANVAS_WIDTH / 2) (CANVAS_HEIGHT - 40) 100 100 true)
              eq_refl Hy eq_refl eq_refl eq_refl) as (Hm & _ & Hn & _).
  split; [exact Hm | exact Hn].
Defined.



(** ** Slow time *)

Lemma fold_off_status l s :
  isSugarActive (fold_left (fun acc (_ : Z) => setIsSugarActive false acc) l s)
  = match l with [] => isSugarActive s | _ :: _ => false end.
Proof.
  revert s. induction l as [|d l IH]; intros s; simpl; auto.
  rewrite IH. destruct l; reflexivity.
Qed.

(** The flag after the timers due at [t] have run: off if one was due. *)
Lemma runTimeouts_flag t s :
  isSugarActive (runTimeouts t s)
  = if existsb (fun d => (d <=? t)%Z) (timeouts s) then false
    else isSugarActive s.
Proof.
  unfold runTimeouts. rewrite fold_off_status. simpl.
  induction (timeouts s) as [|d l IH]; simpl; auto.
  destruct (d <=? t)%Z; simpl; auto.
Qed.

Lemma runTimeouts_pending t s :
  timeouts (runTimeouts t s) = filter (fun d => negb (d <=? t)%Z) (timeouts s).
Proof.
  unfold runTimeouts.
  set (s0 := setTimeouts _ s).
  change (filter (fun d => negb (d <=? t)%Z) (timeouts s)) with (timeouts s0).
  generalize s0. clear s0.
  induction (filter (fun d => (d <=? t)%Z) (timeouts s)) as [|d l IH];
    intros s0; simpl; auto.
  rewrite IH. reflexivity.
Qed.

(** A slow-time pickup inside the radius of the Blast under visit is consumed
    by [consumeSugar]: the flag is set and one more timer is registered, 5000
    ms after the clock reading of the frame. *)
Lemma powerUpCollide_sugar now exp pu puIndex s :
  within exp (pu_x pu) (pu_y pu) = true ->
  pu_type pu = SUGAR ->
  powerUpCollide now exp pu puIndex s
  = setPowerUps (splice1 puIndex (powerUpsRef s)) (consumeSugar now s)
  /\ isSugarActive (powerUpCollide now exp pu puIndex s) = true
  /\ timeouts (powerUpCollide now exp pu puIndex s)
     = timeouts s ++ [(now + 5000)%Z].
Proof.
  intros Hw Ht. unfold powerUpCollide. rewrite Hw, Ht. repeat split.
Qed.

(** C1, as stated, fails.  Two slow-time pickups are consumed at 0 ms and at
    1000 ms, in a fresh session; at 5000 ms, which is before 1000 + 5000, the
    timer of the first one has run and slow motion is off. *)
Lemma sugar_window_not_restarted :
  (0 < 1000 < 0 + 5000)%Z /\ (1000 <= 5000 < 1000 + 5000)%Z
  /\ timeouts (run [Start] mounted) = []
  /\ sugarAt 0 1000 5000 (run [Start] mounted) = false.
Proof. repeat split; try lia; reflexivity. Qed.

(** C1, amended.  Every consumption of a slow-time pickup turns slow motion
    on and registers a timer of its own, 5000 ms ahead, that turns it off; no
    timer is ever cancelled.  With no timer pending before, and pickups
    consumed at t1 and at t2, t1 < t2 < t1 + 5000, slow motion is on at every
    t from t2 up to t1 + 5000 excluded, and off from t1 + 5000 on: the window
    ends with the first timer and is not restarted. *)
Theorem sugar_window_ends_with_first_timer s t1 t2 t :
  timeouts s = [] ->
  (t1 < t2 < t1 + 5000)%Z ->
  (t2 <= t)%Z ->
  sugarAt t1 t2 t s = (t <? t1 + 5000)%Z.
Proof.
  intros Hs H12 Ht. unfold sugarAt.
  rewrite runTimeouts_flag.
  assert (timeouts (consumeSugar t2 (runTimeouts t2 (consumeSugar t1 s)))
          = [t1 + 5000; t2 + 5000]%Z) as Hq.
  { unfold consumeSugar at 1. simpl. rewrite runTimeouts_pending.
    simpl. rewrite Hs. simpl.
    destruct (Z.leb_spec (t1 + 5000) t2); [lia | reflexivity]. }
  rewrite Hq. simpl.
  destruct (Z.leb_spec (t1 + 5000) t), (Z.ltb_spec t (t1 + 5000));
    try lia; simpl; auto.
  destruct (Z.leb_spec (t2 + 5000) t); [lia | reflexivity].
Qed.

Lemma sugar_window_ends_with_first_timer_witness :
  sugarAt 0 1000 3000 (run [Start] mounted) = true
  /\ sugarAt 0 1000 5500 (run [Start] mounted) = false.
Proof.
  split.
  - apply (sugar_window_ends_with_first_timer (run [Start] mounted) 0 1000 3000
             eq_refl); lia.
  - apply (sugar_window_ends_with_first_timer (run [Start] mounted) 0 1000 5500
             eq_refl); lia.
Defined.

(** ** The loops that remove while they iterate *)

Lemma splice1_middle {A} (pre : list A) a rest :
  splice1 (List.length pre) (pre ++ a :: rest) = pre ++ rest.
Proof. induction pre as [|b pre IH]; simpl; auto. rewrite IH. auto. Qed.

Lemma nth_error_middle {A} (pre : list A) a rest :
  nth_error (pre ++ a :: rest) (List.length pre) = Some a.
Proof. induction pre as [|b pre IH]; simpl; auto. Qed.

Ltac fields :=
  cbn [status score isSugarActive rocketsRef missilesRef explosionsRef
       powerUpsRef batteriesRef citiesRef lastSpawnTime timeouts].

(** The inner loop over the Rockets, from index [length pre] on. *)
Lemma rocket_loop_from exp n pre rest s :
  rocketsRef s = pre ++ rest ->
  (List.length rest <= n)%nat ->
  forEachFrom rocketsRef (rocketCollide exp) n (List.length pre) s
  = setScore (fun sc => (sc + 20 * Z.of_nat (struck (caught exp) rest))%Z)
      (setRockets (pre ++ sweep (caught exp) rest) s).
Proof.
  revert pre rest s. induction n as [|n IH]; intros pre rest s Hs Hn.
  - destruct rest; [|simpl in Hn; lia]. simpl.
    rewrite <- Hs. destruct s; unfold setScore, setRockets; fields.
    f_equal; lia.
  - destruct rest as [|a rest].
    + rewrite forEachFrom_past by (rewrite Hs, app_nil_r; lia).
      simpl. rewrite <- Hs. destruct s; unfold setScore, setRockets; fields.
      f_equal; lia.
    + simpl forEachFrom. rewrite Hs, nth_error_middle.
      unfold rocketCollide at 2. fold (caught exp a).
      cbn [sweep struck].
      destruct (caught exp a) eqn:Hit.
      * rewrite Hs, splice1_middle.
        destruct rest as [|b rest].
        -- rewrite forEachFrom_past by (simpl; rewrite app_nil_r; lia).
           destruct s; unfold setScore, setRockets, killReward; fields.
           f_equal; lia.
        -- replace (S (List.length pre)) with (List.length (pre ++ [b]))
             by (rewrite length_app; simpl; lia).
           rewrite (IH (pre ++ [b]) rest)
             by (simpl; try rewrite <- app_assoc; simpl in *; auto; lia).
           destruct s; unfold setScore, setRockets, killReward; fields.
           rewrite <- app_assoc. cbn [app]. f_equal; lia.
      * replace (S (List.length pre)) with (List.length (pre ++ [a]))
          by (rewrite length_app; simpl; lia).
        rewrite (IH (pre ++ [a]) rest)
          by (try rewrite <- app_assoc; simpl in *; auto; lia).
        rewrite <- app_assoc. reflexivity.
Qed.

(** The inner loop over the Rockets, whole: the Rockets left are the sweep of
    the pool, and 20 is scored for each Rocket removed. *)
Lemma rocket_loop_sweep exp s :
  forEach rocketsRef (rocketCollide exp) s
  = setScore
      (fun sc => (sc + 20 * Z.of_nat (struck (caught exp) (rocketsRef s)))%Z)
      (setRockets (sweep (caught exp) (rocketsRef s)) s).
Proof.
  unfold forEach.
  apply (rocket_loop_from exp (List.length (rocketsRef s)) [] (rocketsRef s) s);
    auto.
Qed.

Lemma powerUpCollide_pool now exp pu puIndex s :
  powerUpsRef (powerUpCollide now exp pu puIndex s)
  = if within exp (pu_x pu) (pu_y pu)
    then splice1 puIndex (powerUpsRef s)
    else powerUpsRef s.
Proof.
  unfold powerUpCollide. destruct (within _ _ _); [|reflexivity].
  destruct (pu_type pu); reflexivity.
Qed.

Lemma powerUp_loop_from now exp n pre rest s :
  powerUpsRef s = pre ++ rest ->
  (List.length rest <= n)%nat ->
  powerUpsRef
    (forEachFrom powerUpsRef (powerUpCollide now exp) n (List.length pre) s)
  = pre ++ sweep (fun pu => within exp (pu_x pu) (pu_y pu)) rest.
Proof.
  revert pre rest s. induction n as [|n IH]; intros pre rest s Hs Hn.
  - destruct rest; [|simpl in Hn; lia]. simpl. exact Hs.
  - destruct rest as [|pu rest].
    + rewrite forEachFrom_past by (rewrite Hs, app_nil_r; lia). exact Hs.
    + simpl forEachFrom. rewrite Hs, nth_error_middle.
      cbn [sweep].
      pose proof (powerUpCollide_pool now exp pu (List.length pre) s) as Hp.
      rewrite Hs in Hp.
      destruct (within exp (pu_x pu) (pu_y pu)) eqn:E.
      * rewrite splice1_middle in Hp.
        destruct rest as [|b rest].
        -- rewrite forEachFrom_past by (rewrite Hp, app_nil_r; lia).
           exact Hp.
        -- replace (S (List.length pre)) with (List.length (pre ++ [b]))
             by (rewrite length_app; simpl; lia).
           rewrite (IH (pre ++ [b]) rest)
             by (try rewrite <- app_assoc; simpl in *; auto; lia).
           rewrite <- app_assoc. reflexivity.
      * replace (S (List.length pre)) with (List.length (pre ++ [pu]))
          by (rewrite length_app; simpl; lia).
        rewrite (IH (pre ++ [pu]) rest)
          by (try rewrite <- app_assoc; simpl in *; auto; lia).
        rewrite <- app_assoc. reflexivity.
Qed.

(** The inner loop over the power-ups leaves the sweep of their pool. *)
Lemma powerUp_loop_sweep now exp s :
  powerUpsRef (forEach powerUpsRef (powerUpCollide now exp) s)
  = sweep (fun pu => within exp (pu_x pu) (pu_y pu)) (powerUpsRef s).
Proof.
  unfold forEach.
  apply (powerUp_loop_from now exp (List.length (powerUpsRef s)) []
           (powerUpsRef s) s); auto.
Qed.

(** The pass over a pool of one Blast. *)
Lemma collisionPass_single now exp s :
  explosionsRef s = [exp] ->
  collisionPass now s = explosionStep now exp 0 s.
Proof.
  intros H. unfold collisionPass, forEach. rewrite H. simpl. rewrite H.
  reflexivity.
Qed.

(** The inner loop over an empty power-up pool. *)
Lemma powerUp_loop_empty now exp s :
  powerUpsRef s = [] -> forEach powerUpsRef (powerUpCollide now exp) s = s.
Proof. intros H. unfold forEach. rewrite H. reflexivity. Qed.

Lemma caught_hit exp id x y :
  0 < ex_radius exp ->
  (ex_x exp - x) ^ 2 + (ex_y exp - y) ^ 2 < ex_radius exp * ex_radius exp ->
  caught exp (falling id x y) = true.
Proof. intros. unfold caught. simpl. apply within_hit; auto. Qed.

Lemma caught_miss exp id x y :
  0 <= ex_radius exp ->
  ex_radius exp * ex_radius exp <= (ex_x exp - x) ^ 2 + (ex_y exp - y) ^ 2 ->
  caught exp (falling id x y) = false.
Proof. intros. unfold caught. simpl. apply within_miss; auto. Qed.

(** C2, at a pool of three Rockets.  A Blast at (100, 100), radius 20 and
    growing, meets Rockets a at (100, 100), b at (100, 110) and c at
    (400, 100).  With the pool in the order a, b, c the pass removes a alone
    and scores 20: b slid into the index of a and was not tested.  With the
    same pool in the order a, c, b it removes a and b and scores 40. *)
Theorem collision_pass_depends_on_pool_order :
  let blast := mkExplosion "exp-m" 100 100 20 35 true in
  let a := falling "a" 100 100 in
  let b := falling "b" 100 110 in
  let c := falling "c" 400 100 in
  rocketsRef (collisionPass 0 (arena [a; b; c] [blast] [])) = [b; c]
  /\ score (collisionPass 0 (arena [a; b; c] [blast] [])) = 20%Z
  /\ rocketsRef (collisionPass 0 (arena [a; c; b] [blast] [])) = [c]
  /\ score (collisionPass 0 (arena [a; c; b] [blast] [])) = 40%Z.
Proof.
  cbv zeta.
  set (blast' := mkExplosion "exp-m" 100 100 (20 + EXPLOSION_SPEED) 35 true).
  assert (pulse (mkExplosion "exp-m" 100 100 20 35 true) = (blast', false))
    as Hp by (unfold pulse; simpl; Reval; reflexivity).
  assert (caught blast' (falling "a" 100 100) = true) as Ha
    by (apply caught_hit; simpl; Rsolve).
  assert (caught blast' (falling "b" 100 110) = true) as Hb
    by (apply caught_hit; simpl; Rsolve).
  assert (caught blast' (falling "c" 400 100) = false) as Hc
    by (apply caught_miss; simpl; Rsolve).
  rewrite !(collisionPass_single 0 (mkExplosion "exp-m" 100 100 20 35 true))
    by reflexivity.
  unfold explosionStep. rewrite Hp.
  rewrite !powerUp_loop_empty
    by (rewrite rocket_loop_sweep; reflexivity).
  rewrite !rocket_loop_sweep. unfold arena, setExplosions. fields.
  cbn [sweep struck]. rewrite Ha, Hb, Hc. repeat split.
Qed.

(** ** Blasts *)

(** One step of a growing Blast: the radius gains [EXPLOSION_SPEED]; the
    Blast stays in the pool, and turns to fading once the radius has reached
    the maximum. *)
Lemma pulse_growing exp :
  ex_growing exp = true ->
  let '(exp', gone) := pulse exp in
  gone = false
  /\ ex_radius exp' = ex_radius exp + 1.5
  /\ ex_maxRadius exp' = ex_maxRadius exp
  /\ (ex_growing exp' = false <-> ex_maxRadius exp <= ex_radius exp').
Proof.
  intros H. unfold pulse. rewrite H. unfold EXPLOSION_SPEED, Rgeb. simpl.
  repeat split; auto.
  - destruct (Rleb _ _) eqn:E; [|discriminate].
    intros _. apply Rleb_spec in E. exact E.
  - intros Hle. rewrite (Rleb_true _ _ Hle). reflexivity.
Qed.

(** One step of a fading Blast: the radius loses half of [EXPLOSION_SPEED];
    the Blast keeps fading, and leaves the pool exactly when the radius has
    come down to 0 or below. *)
Lemma pulse_fading exp :
  ex_growing exp = false ->
  let '(exp', gone) := pulse exp in
  ex_radius exp' = ex_radius exp - 0.75
  /\ ex_maxRadius exp' = ex_maxRadius exp
  /\ ex_growing exp' = false
  /\ (gone = true <-> ex_radius exp' <= 0).
Proof.
  intros H. unfold pulse. rewrite H. unfold EXPLOSION_SPEED. simpl.
  repeat split; try lra.
  - apply Rleb_spec.
  - apply Rleb_spec.
Qed.

(** A Blast that stays in the pool after its step has a positive radius. *)
Lemma pulse_positive exp :
  0 < ex_radius exp ->
  snd (pulse exp) = false -> 0 < ex_radius (fst (pulse exp)).
Proof.
  intros Hr. unfold pulse, EXPLOSION_SPEED.
  destruct (ex_growing exp); simpl.
  - intros _. lra.
  - unfold Rleb. destruct (Rle_dec _ _); [discriminate|]. intros _. lra.
Qed.

Lemma forEach_explosions_same {A} (arr : State -> list A) cb :
  (forall a k s, explosionsRef (cb a k s) = explosionsRef s) ->
  forall s, explosionsRef (forEach arr cb s) = explosionsRef s.
Proof.
  intros Hcb s.
  apply (forEach_invariant arr cb
           (fun s' => explosionsRef s' = explosionsRef s)); auto.
  intros a k s' _ H. rewrite Hcb. exact H.
Qed.

Lemma rocketCollide_explosions exp rocket rIndex s :
  explosionsRef (rocketCollide exp rocket rIndex s) = explosionsRef s.
Proof. unfold rocketCollide. destruct (within _ _ _); reflexivity. Qed.

Lemma powerUpCollide_explosions now exp pu puIndex s :
  explosionsRef (powerUpCollide now exp pu puIndex s) = explosionsRef s.
Proof.
  unfold powerUpCollide. destruct (within _ _ _); [|reflexivity].
  destruct (pu_type pu); reflexivity.
Qed.

Lemma powerUpExpire_explosions now pu index s :
  explosionsRef (powerUpExpire now pu index s) = explosionsRef s.
Proof. unfold powerUpExpire. destruct (_ >? _)%Z; reflexivity. Qed.

(** What a visit does to the Blast pool: the Blast under visit is replaced by
    its next step, or removed. *)
Lemma explosionStep_pool now exp index s :
  explosionsRef (explosionStep now exp index s)
  = if snd (pulse exp) then splice1 index (explosionsRef s)
    else assign index (fst (pulse exp)) (explosionsRef s).
Proof.
  unfold explosionStep. destruct (pulse exp) as [exp' gone]. simpl.
  rewrite forEach_explosions_same by apply powerUpCollide_explosions.
  rewrite forEach_explosions_same by apply rocketCollide_explosions.
  destruct gone; reflexivity.
Qed.

Lemma explosionStep_positive now exp index s :
  nth_error (explosionsRef s) index = Some exp ->
  blastsPositive s -> blastsPositive (explosionStep now exp index s).
Proof.
  unfold blastsPositive. intros Hn H. rewrite explosionStep_pool.
  destruct (snd (pulse exp)) eqn:E.
  - apply Forall_splice1, H.
  - apply Forall_assign; auto. apply pulse_positive; auto.
    rewrite Forall_forall in H. apply H. eapply nth_error_In; eauto.
Qed.

Lemma rocketStep_explosions slow rocket index s :
  explosionsRef (rocketStep slow rocket index s) = explosionsRef s
  \/ exists moved,
       explosionsRef (rocketStep slow rocket index s)
       = explosionsRef s ++ [impactBlast moved].
Proof.
  unfold rocketStep. cbv zeta. destruct (Rgeb _ _); [|left; reflexivity].
  right. eexists.
  cbn [citiesRef score explosionsRef setExplosions setRockets batteriesRef].
  destruct (damageCities _ _ _) as [cities sc].
  cbn [citiesRef score explosionsRef setExplosions setRockets batteriesRef
       setScore setCities].
  destruct (damageBatteries _ _ _) as [batteries sc'].
  reflexivity.
Qed.

Lemma missileStep_explosions missile index s :
  explosionsRef (missileStep missile index s) = explosionsRef s
  \/ exists moved,
       explosionsRef (missileStep missile index s)
       = explosionsRef s ++ [detonation moved].
Proof.
  unfold missileStep. cbv zeta. destruct (Rltb _ _); [|left; reflexivity].
  right. eexists. reflexivity.
Qed.

Lemma spawnPhase_explosions time rnd s :
  explosionsRef (spawnPhase time rnd s) = explosionsRef s.
Proof.
  unfold spawnPhase, spawnRocket, spawnPowerUp.
  destruct (Rgtb _ _); [|reflexivity].
  destruct (Rltb _ _); destruct (map ct_x _ ++ map bt_x _);
    try destruct (nth_error _ _); reflexivity.
Qed.

Lemma assign_middle {A} (pre : list A) a v rest :
  assign (List.length pre) v (pre ++ a :: rest) = pre ++ v :: rest.
Proof. induction pre as [|b pre IH]; simpl; auto. rewrite IH. auto. Qed.

Lemma blast_loop_from now n pre rest s :
  explosionsRef s = pre ++ rest ->
  (List.length rest <= n)%nat ->
  explosionsRef
    (forEachFrom explosionsRef (explosionStep now) n (List.length pre) s)
  = pre ++ pulseSweep rest.
Proof.
  revert pre rest s. induction n as [|n IH]; intros pre rest s Hs Hn.
  - destruct rest; [|simpl in Hn; lia]. simpl. exact Hs.
  - destruct rest as [|e rest].
    + rewrite forEachFrom_past by (rewrite Hs, app_nil_r; lia). exact Hs.
    + simpl forEachFrom. rewrite Hs, nth_error_middle.
      cbn [pulseSweep].
      pose proof (explosionStep_pool now e (List.length pre) s) as Hp.
      rewrite Hs in Hp.
      destruct (snd (pulse e)) eqn:E.
      * rewrite splice1_middle in Hp.
        destruct rest as [|b rest].
        -- rewrite forEachFrom_past by (rewrite Hp, app_nil_r; lia).
           exact Hp.
        -- replace (S (List.length pre)) with (List.length (pre ++ [b]))
             by (rewrite length_app; simpl; lia).
           rewrite (IH (pre ++ [b]) rest)
             by (try rewrite <- app_assoc; simpl in *; auto; lia).
           rewrite <- app_assoc. reflexivity.
      * rewrite assign_middle in Hp.
        replace (S (List.length pre))
          with (List.length (pre ++ [fst (pulse e)]))
          by (rewrite length_app; simpl; lia).
        rewrite (IH (pre ++ [fst (pulse e)]) rest)
          by (try rewrite <- app_assoc; simpl in *; auto; lia).
        rewrite <- app_assoc. reflexivity.
Qed.

(** The Blast pool after the collision pass. *)
Lemma blast_pool_after_pass now s :
  explosionsRef (collisionPass now s) = pulseSweep (explosionsRef s).
Proof.
  unfold collisionPass, forEach.
  apply (blast_loop_from now (List.length (explosionsRef s)) []
           (explosionsRef s) s); auto.
Qed.

(** A Rocket that reaches the ground leaves its impact Blast, radius 2 and
    maximum 20, at the end of the Blast pool, the pool in which the
    detonations of the Interceptors go. *)
Lemma rocketStep_impact (slow : bool) rocket index s :
  let moved :=
    mkRocket (rk_id rocket) (rk_start rocket)
      (advance (rk_start rocket) (rk_current rocket) (rk_target rocket)
         (rk_speed rocket) (if slow then 0.4 else 1))
      (rk_target rocket) (rk_speed rocket) (rk_color rocket) in
  py (rk_target rocket) <= py (rk_current moved) ->
  explosionsRef (rocketStep slow rocket index s)
  = explosionsRef s ++ [impactBlast moved]
  /\ ex_radius (impactBlast moved) = 2
  /\ ex_maxRadius (impactBlast moved) = 20
  /\ ex_growing (impactBlast moved) = true.
Proof.
  cbv zeta. intros H. unfold rocketStep. cbv zeta.
  cbn [rk_current rk_target] in *.
  unfold Rgeb. rewrite (Rleb_true _ _ H).
  cbn [citiesRef score explosionsRef setExplosions setRockets batteriesRef].
  destruct (damageCities _ _ _) as [cities sc].
  cbn [citiesRef score explosionsRef setExplosions setRockets batteriesRef
       setScore setCities].
  destruct (damageBatteries _ _ _) as [batteries sc'].
  repeat split.
Qed.

(** A frame keeps every Blast of the pool at a positive radius. *)
Lemma mutate_positive time rnd s :
  blastsPositive s -> blastsPositive (mutate time rnd s).
Proof.
  intros H. unfold mutate. cbv zeta.
  unfold blastsPositive, ammoCheck. cbn [explosionsRef setBatteries].
  apply (forEach_invariant explosionsRef _ blastsPositive);
    [intros; apply explosionStep_positive; auto|].
  unfold blastsPositive.
  rewrite forEach_explosions_same by apply powerUpExpire_explosions.
  apply (forEach_invariant missilesRef _ blastsPositive).
  { intros m k s' _ Hs'. unfold blastsPositive in *.
    destruct (missileStep_explosions m k s') as [->|[moved ->]]; auto.
    apply Forall_app. split; auto. constructor; [simpl; lra | constructor]. }
  apply (forEach_invariant rocketsRef _ blastsPositive).
  { intros r k s' _ Hs'. unfold blastsPositive in *.
    destruct (rocketStep_explosions (isSugarActive s) r k s')
      as [->|[moved ->]]; auto.
    apply Forall_app. split; auto. constructor; [simpl; lra | constructor]. }
  unfold blastsPositive. rewrite spawnPhase_explosions. exact H.
Qed.

(** In every reachable state, every Blast of the pool has a positive radius. *)
Lemma reachable_blasts_positive s : reachable s -> blastsPositive s.
Proof.
  intros [es ->].
  assert (forall s0, blastsPositive s0 -> blastsPositive (run es s0)) as H.
  { induction es as [|e es IH]; intros s0 H0; simpl; auto.
    apply IH. destruct e; simpl.
    - constructor.
    - unfold handleFire.
      destruct (status s0); auto. destruct (Rgtb _ _); auto.
      destruct (bestBattery _ _); auto. destruct (nth_error _ _); auto.
      destruct (launch _ _ _ _ _ _) as [[cnt shots]|]; auto.
    - unfold update. destruct (status s0); auto.
      unfold loseCheck. pose proof (mutate_positive time rnd s0 H0).
      destruct (forallb _ _); auto.
    - unfold blastsPositive.
      unfold runTimeouts.
      set (s1 := setTimeouts _ s0).
      assert (explosionsRef s1 = explosionsRef s0) as E by reflexivity.
      clearbody s1. revert s1 E.
      induction (filter (fun d => (d <=? t)%Z) (timeouts s0)) as [|d l IHl];
        intros s1 E; simpl.
      + rewrite E. exact H0.
      + apply IHl. simpl. exact E. }
  apply H. constructor.
Qed.

(** ** Frames on given states *)

Lemma forEach_empty {A} (arr : State -> list A) cb s :
  arr s = [] -> forEach arr cb s = s.
Proof. intros H. unfold forEach. rewrite H. reflexivity. Qed.

(** No spawn at time 0 in a session that has not spawned yet. *)
Lemma spawnPhase_idle rnd rockets explosions powerUps :
  spawnPhase 0 rnd (arena rockets explosions powerUps)
  = arena rockets explosions powerUps.
Proof.
  unfold spawnPhase. cbn [arena score lastSpawnTime].
  change (Z.max 200 (1500 - Z.min 0 800)) with 1500%Z.
  Reval. reflexivity.
Qed.

(** C5, at a pool of two Blasts.  The first Blast is fading with radius 0.5,
    the second is growing with radius 5.  The frame takes the first Blast to
    radius -0.25 and removes it; the second Blast slides into index 0, is not
    visited, and ends the frame with the radius it had, 5, where its step
    would have taken it to 6.5. *)
Theorem blast_after_expiring_blast_misses_its_step rnd :
  let a := mkExplosion "impact-r" 150 580 0.5 20 false in
  let b := mkExplosion "exp-m" 300 200 5 35 true in
  explosionsRef (update 0 rnd (arena [] [a; b] [])) = [b]
  /\ pulse a = (mkExplosion "impact-r" 150 580 (0.5 - 1.5 * 0.5) 20 false, true)
  /\ pulse b = (mkExplosion "exp-m" 300 200 (5 + 1.5) 35 true, false).
Proof.
  cbv zeta.
  assert (pulse (mkExplosion "impact-r" 150 580 0.5 20 false)
          = (mkExplosion "impact-r" 150 580 (0.5 - 1.5 * 0.5) 20 false, true))
    as Ha by (unfold pulse, EXPLOSION_SPEED; simpl; Reval; reflexivity).
  assert (pulse (mkExplosion "exp-m" 300 200 5 35 true)
          = (mkExplosion "exp-m" 300 200 (5 + 1.5) 35 true, false))
    as Hb by (unfold pulse, EXPLOSION_SPEED; simpl; Reval; reflexivity).
  repeat split; auto.
  unfold update. cbn [arena status]. unfold mutate. cbv zeta.
  fold (arena [] [mkExplosion "impact-r" 150 580 0.5 20 false;
                  mkExplosion "exp-m" 300 200 5 35 true] []).
  rewrite spawnPhase_idle.
  rewrite (forEach_empty rocketsRef) by reflexivity.
  rewrite (forEach_empty missilesRef) by reflexivity.
  rewrite (forEach_empty powerUpsRef) by reflexivity.
  rewrite loseCheck_explosions. unfold ammoCheck.
  cbn [explosionsRef setBatteries].
  fold (collisionPass (dateNow rnd)
          (arena [] [mkExplosion "impact-r" 150 580 0.5 20 false;
                     mkExplosion "exp-m" 300 200 5 35 true] [])).
  rewrite blast_pool_after_pass. cbn [arena explosionsRef pulseSweep].
  rewrite Ha. reflexivity.
Qed.

(** A Rocket falling straight down advances by its speed, downwards. *)
Lemma advance_falling x y v f :
  advance (mkPoint x 0) (mkPoint x y) (mkPoint x (CANVAS_HEIGHT - 20)) v f
  = mkPoint x (y + v * f).
Proof.
  unfold advance, travel, CANVAS_HEIGHT. cbn [px py].
  replace ((x - x) * (x - x) + (600 - 20 - 0) * (600 - 20 - 0))
    with (580 * 580) by lra.
  rewrite sqrt_square by lra.
  f_equal; field.
Qed.

(** An impact at abscissa 150 takes the city at 150 and nothing else. *)
Lemma damageCities_150 sc :
  damageCities 150 initialCities sc
  = ([ mkCity 150 false; mkCity 250 true; mkCity 350 true; mkCity 450 true;
       mkCity 550 true; mkCity 650 true ], cityPenalty sc).
Proof.
  unfold initialCities. cbn [damageCities ct_active ct_x andb].
  Reval. reflexivity.
Qed.

Lemma damageBatteries_150 sc :
  damageBatteries 150 initialBatteries sc = (initialBatteries, sc).
Proof.
  unfold initialBatteries. cbn [damageBatteries bt_active bt_x andb].
  Reval. reflexivity.
Qed.

(** The visit of a falling Rocket that reaches the ground at abscissa 150, in
    a session whose cities and batteries are intact: the impact Blast joins
    the Blast pool, the city at 150 is lost (the score, 0, cannot go lower),
    the Rocket leaves the pool. *)
Lemma rocketStep_lands id y index rockets explosions :
  CANVAS_HEIGHT - 20 <= y + 0.5 * 1 ->
  rocketStep false (falling id 150 y) index (arena rockets explosions [])
  = setCities (fst (damageCities 150 initialCities 0))
      (arena
         (splice1 index (assign index (falling id 150 (y + 0.5 * 1)) rockets))
         (explosions ++ [impactBlast (falling id 150 (y + 0.5 * 1))]) []).
Proof.
  intros Hy. unfold rocketStep, falling. cbv zeta.
  cbn [rk_id rk_start rk_current rk_target rk_speed rk_color].
  rewrite advance_falling. cbn [py].
  unfold Rgeb. rewrite (Rleb_true _ _ Hy).
  unfold arena, setScore, setRockets, setExplosions, setCities. fields.
  cbn [px]. rewrite damageCities_150. fields.
  rewrite damageBatteries_150. unfold setBatteries. fields.
  reflexivity.
Qed.

(** The visit of a falling Rocket that stays in the air. *)
Lemma rocketStep_falls id x y index s :
  y + 0.5 * 1 < CANVAS_HEIGHT - 20 ->
  rocketStep false (falling id x y) index s
  = setRockets (assign index (falling id x (y + 0.5 * 1)) (rocketsRef s)) s.
Proof.
  intros Hy. unfold rocketStep, falling. cbv zeta.
  cbn [rk_id rk_start rk_current rk_target rk_speed rk_color].
  rewrite advance_falling. cbn [py].
  unfold Rgeb. rewrite (Rleb_false _ _ Hy). reflexivity.
Qed.

(** C10, in one frame.  Three Rockets fall on the city at 150: r0 at height
    579.8, a at 577, b at 578.5, in this order in the pool.  In the frame, r0
    reaches the ground; its impact Blast (radius 2, maximum 20) joins the
    Blast pool, and the collision pass of the same frame visits it, at
    radius 3.5: it removes a, which is within the radius, and 20 is scored.
    But b, which is within the radius too, is still in the pool when the
    frame ends: it was stepped over when a was removed. *)
Theorem impact_blast_steps_over_adjacent_rocket rnd :
  let s :=
    arena [falling "r0" 150 579.8; falling "a" 150 577; falling "b" 150 578.5]
      [] [] in
  let blast := mkExplosion "impact-r0" 150 (579.8 + 0.5 * 1) (2 + 1.5) 20 true in
  let b' := falling "b" 150 (578.5 + 0.5 * 1) in
  explosionsRef (update 0 rnd s) = [blast]
  /\ score (update 0 rnd s) = 20%Z
  /\ rocketsRef (update 0 rnd s) = [b']
  /\ caught blast b' = true.
Proof.
  cbv zeta.
  set (blast := mkExplosion "impact-r0" 150 (579.8 + 0.5 * 1) (2 + 1.5) 20 true).
  assert (caught blast (falling "a" 150 577) = true) as Ha
    by (apply caught_hit; simpl; Rsolve).
  assert (caught blast (falling "b" 150 (578.5 + 0.5 * 1)) = true) as Hb
    by (apply caught_hit; simpl; Rsolve).
  assert (pulse (impactBlast (falling "r0" 150 (579.8 + 0.5 * 1)))
          = (blast, false)) as Hp
    by (unfold pulse, impactBlast, EXPLOSION_SPEED; simpl; Reval; reflexivity).
  assert (forEach rocketsRef (rocketStep false)
            (arena [falling "r0" 150 579.8; falling "a" 150 577;
                    falling "b" 150 578.5] [] [])
          = setCities (fst (damageCities 150 initialCities 0))
              (arena [falling "a" 150 577; falling "b" 150 (578.5 + 0.5 * 1)]
                 [impactBlast (falling "r0" 150 (579.8 + 0.5 * 1))] [])) as Hr.
  { unfold forEach.
    cbn [arena rocketsRef List.length forEachFrom nth_error].
    fold (arena [falling "r0" 150 579.8; falling "a" 150 577;
                 falling "b" 150 578.5] [] []).
    rewrite rocketStep_lands by Rsolve.
    cbn [arena setCities rocketsRef nth_error assign splice1 app].
    rewrite rocketStep_falls by Rsolve.
    cbn [setRockets setCities arena rocketsRef nth_error assign]. fields.
    reflexivity. }
  assert (update 0 rnd
            (arena [falling "r0" 150 579.8; falling "a" 150 577;
                    falling "b" 150 578.5] [] [])
          = loseCheck
              (ammoCheck
                 (explosionStep (dateNow rnd)
                    (impactBlast (falling "r0" 150 (579.8 + 0.5 * 1))) 0
                    (setCities (fst (damageCities 150 initialCities 0))
                       (arena [falling "a" 150 577;
                               falling "b" 150 (578.5 + 0.5 * 1)]
                          [impactBlast (falling "r0" 150 (579.8 + 0.5 * 1))]
                          []))))) as Hu.
  { unfold update. cbn [arena status]. unfold mutate. cbv zeta.
    fold (arena [falling "r0" 150 579.8; falling "a" 150 577;
                 falling "b" 150 578.5] [] []).
    rewrite spawnPhase_idle. cbn [arena isSugarActive].
    fold (arena [falling "r0" 150 579.8; falling "a" 150 577;
                 falling "b" 150 578.5] [] []).
    rewrite Hr.
    rewrite (forEach_empty missilesRef) by reflexivity.
    rewrite (forEach_empty powerUpsRef) by reflexivity.
    unfold forEach at 1.
    cbn [arena setCities explosionsRef List.length forEachFrom nth_error].
    reflexivity. }
  rewrite Hu. rewrite loseCheck_explosions, loseCheck_score, loseCheck_rockets.
  unfold ammoCheck. cbn [explosionsRef score rocketsRef setBatteries].
  unfold explosionStep. rewrite Hp.
  rewrite powerUp_loop_empty by (rewrite rocket_loop_sweep; reflexivity).
  rewrite rocket_loop_sweep.
  unfold setExplosions, setCities, arena, setScore, setRockets. fields.
  cbn [sweep struck assign]. rewrite Ha. repeat split. exact Hb.
Qed.

(** * Further properties of the component *)

(** ** Status *)

Lemma mutate_status time rnd s : status (mutate time rnd s) = status s.
Proof. destruct (mutate_keeps time rnd s) as (H & _ & _). exact H. Qed.

(** The status changes in two ways only: a start command makes the session
    run, and a frame of a running session ends it lost, with every battery
    inactive.  Fire commands, timers and the frames of a session that is not
    running leave it alone. *)
Theorem status_changes_by_start_or_loss e s :
  status (handle e s) <> status s ->
  (e = Start /\ status (handle e s) = PLAYING)
  \/ (exists time rnd,
        e = Frame time rnd /\ status s = PLAYING
        /\ status (handle e s) = LOST
        /\ allInactive (batteriesRef (handle e s)) = true).
Proof.
  intros H. destruct e; simpl in *.
  - left. auto.
  - destruct (handleFire_keeps x y ids s) as (Hs & _ & _). contradiction.
  - right. exists time, rnd. unfold update in *.
    destruct (status s) eqn:Hs; try (rewrite Hs in H; contradiction).
    pose proof (mutate_status time rnd s) as Hm. rewrite Hs in Hm.
    unfold loseCheck in *. fold (allInactive (batteriesRef (mutate time rnd s))) in *.
    destruct (allInactive (batteriesRef (mutate time rnd s))) eqn:E.
    + simpl. repeat split; auto.
    + rewrite Hm in H. contradiction.
  - destruct (runTimeouts_keeps t s) as (Hs & _ & _). contradiction.
Qed.

Lemma status_changes_by_start_or_loss_witness :
  status (handle Start mounted) <> status mounted
  /\ status (handle Start mounted) = PLAYING.
Proof.
  assert (status (handle Start mounted) <> status mounted) as H
    by (simpl; discriminate).
  split; [exact H|].
  destruct (status_changes_by_start_or_loss Start mounted H)
    as [[_ Hp]|(time & rnd & Hc & _)]; [exact Hp | discriminate Hc].
Defined.

(** No run of the component ever reaches the status WON. *)
Theorem won_is_never_reached es : status (run es mounted) <> WON.
Proof.
  assert (forall s, status s <> WON -> status (run es s) <> WON) as Hw.
  { induction es as [|e es IH]; intros s Hs; simpl; auto.
    apply IH. destruct e; simpl.
    - discriminate.
    - destruct (handleFire_keeps x y ids s) as (-> & _). exact Hs.
    - unfold update. destruct (status s) eqn:Hst; try (rewrite Hst; assumption).
      pose proof (mutate_status time rnd s) as Hm. rewrite Hst in Hm.
      unfold loseCheck. destruct (forallb _ _); [simpl; discriminate|].
      rewrite Hm. discriminate.
    - destruct (runTimeouts_keeps t s) as (-> & _). exact Hs. }
  apply Hw. discriminate.
Qed.

(** ** Layout and losses *)

Lemma laterBattery_refl b : laterBattery b b.
Proof. unfold laterBattery. auto. Qed.

Lemma laterCity_refl c : laterCity c c.
Proof. unfold laterCity. auto. Qed.

Lemma Forall2_same {A} (Q : A -> A -> Prop) (l : list A) :
  (forall a, Q a a) -> Forall2 Q l l.
Proof. intros H. induction l; constructor; auto. Qed.

Lemma Forall2_chain {A} (Q : A -> A -> Prop) (l1 l2 l3 : list A) :
  (forall a b c, Q a b -> Q b c -> Q a c) ->
  Forall2 Q l1 l2 -> Forall2 Q l2 l3 -> Forall2 Q l1 l3.
Proof.
  intros Ht H12. revert l3.
  induction H12 as [|a b l1 l2 Hab _ IH]; intros l3 H23; inversion H23; subst;
    constructor; eauto.
Qed.

Lemma later_refl s : later s s.
Proof.
  split; apply Forall2_same;
    [apply laterBattery_refl | apply laterCity_refl].
Qed.

Lemma later_trans s1 s2 s3 : later s1 s2 -> later s2 s3 -> later s1 s3.
Proof.
  intros [B1 C1] [B2 C2]. split.
  - eapply Forall2_chain; eauto.
    unfold laterBattery. intros a b c (A1 & A2 & A3) (A4 & A5 & A6).
    repeat split; try congruence. auto.
  - eapply Forall2_chain; eauto.
    unfold laterCity. intros a b c (A1 & A2) (A3 & A4).
    split; try congruence. auto.
Qed.

(** A step that hands the batteries and the cities on as they are. *)
Lemma later_same s s' :
  batteriesRef s' = batteriesRef s -> citiesRef s' = citiesRef s -> later s s'.
Proof. intros Hb Hc. unfold later. rewrite Hb, Hc. apply later_refl. Qed.

Lemma forEach_later {A} (arr : State -> list A) cb :
  (forall a k s, later s (cb a k s)) ->
  forall s, later s (forEach arr cb s).
Proof.
  intros Hcb s.
  apply (forEach_invariant arr cb (fun s' => later s s')).
  - intros a k s' _ H. eapply later_trans; eauto.
  - apply later_refl.
Qed.

Lemma damageCities_later impactX cs sc :
  Forall2 laterCity cs (fst (damageCities impactX cs sc)).
Proof.
  revert sc. induction cs as [|c cs IH]; intros sc; simpl; [constructor|].
  destruct (ct_active c && _).
  - specialize (IH (cityPenalty sc)).
    destruct (damageCities impactX cs (cityPenalty sc)); simpl in *.
    constructor; auto. unfold laterCity. simpl. split; [auto | discriminate].
  - specialize (IH sc). destruct (damageCities impactX cs sc); simpl in *.
    constructor; auto. apply laterCity_refl.
Qed.

Lemma knockOut_later b : laterBattery b (knockOut b).
Proof. unfold laterBattery, knockOut, site. simpl. repeat split. discriminate. Qed.

Lemma damageBatteries_later impactX bs sc :
  Forall2 laterBattery bs (fst (damageBatteries impactX bs sc)).
Proof.
  revert sc. induction bs as [|b bs IH]; intros sc; simpl; [constructor|].
  destruct (bt_active b && _).
  - specialize (IH (batteryPenalty sc)).
    destruct (damageBatteries impactX bs (batteryPenalty sc)); simpl in *.
    constructor; auto. apply knockOut_later.
  - specialize (IH sc). destruct (damageBatteries impactX bs sc); simpl in *.
    constructor; auto. apply laterBattery_refl.
Qed.

Lemma rocketStep_later slow rocket index s :
  later s (rocketStep slow rocket index s).
Proof.
  unfold rocketStep. cbv zeta.
  destruct (Rgeb _ _); [|apply later_same; reflexivity].
  cbn [citiesRef score explosionsRef setExplosions setRockets batteriesRef].
  pose proof (damageCities_later
                (px (advance (rk_start rocket) (rk_current rocket)
                       (rk_target rocket) (rk_speed rocket)
                       (if slow then 0.4 else 1)))
                (citiesRef s) (score s)) as Hc.
  destruct (damageCities _ (citiesRef s) (score s)) as [cities sc].
  cbn [citiesRef score explosionsRef setExplosions setRockets batteriesRef
       setScore setCities fst] in *.
  pose proof (damageBatteries_later
                (px (advance (rk_start rocket) (rk_current rocket)
                       (rk_target rocket) (rk_speed rocket)
                       (if slow then 0.4 else 1)))
                (batteriesRef s) sc) as Hb.
  destruct (damageBatteries _ (batteriesRef s) sc) as [batteries sc'].
  split; simpl in *; auto.
Qed.

Lemma refill_later b : laterBattery b (refill b).
Proof.
  unfold laterBattery, refill, site.
  destruct (bt_active b) eqn:E; simpl; repeat split; auto; congruence.
Qed.

Lemma powerUpCollide_later now exp pu puIndex s :
  later s (powerUpCollide now exp pu puIndex s).
Proof.
  unfold powerUpCollide. destruct (within _ _ _); [|apply later_refl].
  destruct (pu_type pu); [|apply later_same; reflexivity].
  split; simpl; [|apply Forall2_same, laterCity_refl].
  induction (batteriesRef s); simpl; constructor; auto. apply refill_later.
Qed.

Lemma explosionStep_later now exp index s :
  later s (explosionStep now exp index s).
Proof.
  unfold explosionStep. destruct (pulse exp) as [exp' gone].
  eapply later_trans; [|apply forEach_later; intros; apply powerUpCollide_later].
  eapply later_trans.
  2:{ apply forEach_later. intros r k s'. unfold rocketCollide.
      destruct (within _ _ _); apply later_same; reflexivity. }
  destruct gone; apply later_same; reflexivity.
Qed.

Lemma ammoCheckFrom_later i bs : Forall2 laterBattery bs (ammoCheckFrom i bs).
Proof.
  revert i. induction bs as [|b bs IH]; intros i; simpl; constructor; auto.
  destruct (bt_active b && _); [apply knockOut_later | apply laterBattery_refl].
Qed.

Lemma spawnPhase_later time rnd s : later s (spawnPhase time rnd s).
Proof.
  apply later_same; unfold spawnPhase, spawnRocket, spawnPowerUp;
    destruct (Rgtb _ _); try reflexivity;
    destruct (Rltb _ _); destruct (map ct_x _ ++ map bt_x _);
    try destruct (nth_error _ _); reflexivity.
Qed.

Lemma mutate_later time rnd s : later s (mutate time rnd s).
Proof.
  unfold mutate. cbv zeta.
  eapply later_trans.
  2:{ split; simpl; [apply ammoCheckFrom_later | apply Forall2_same, laterCity_refl]. }
  eapply later_trans; [|apply forEach_later; intros; apply explosionStep_later].
  eapply later_trans.
  2:{ apply forEach_later. intros pu k s'. unfold powerUpExpire.
      destruct (_ >? _)%Z; apply later_same; reflexivity. }
  eapply later_trans.
  2:{ apply forEach_later. intros m k s'. unfold missileStep. cbv zeta.
      destruct (Rltb _ _); apply later_same; reflexivity. }
  eapply later_trans; [|apply forEach_later; intros; apply rocketStep_later].
  apply spawnPhase_later.
Qed.

Lemma Forall2_assign {A} (Q : A -> A -> Prop) (l : list A) i a v :
  (forall b, Q b b) -> nth_error l i = Some a -> Q a v ->
  Forall2 Q l (assign i v l).
Proof.
  intros Hr. revert i. induction l as [|b l IH]; intros [|i]; simpl;
    try discriminate.
  - intros [= ->] Hq. constructor; auto. apply Forall2_same, Hr.
  - intros Hn Hq. constructor; auto.
Qed.

Lemma handleFire_later x y ids s : later s (handleFire x y ids s).
Proof.
  unfold handleFire.
  destruct (status s); try apply later_refl.
  destruct (Rgtb _ _); [apply later_refl|].
  destruct (bestBattery _ _) as [i|]; [|apply later_refl].
  destruct (nth_error _ _) as [battery|] eqn:E; [|apply later_refl].
  destruct (launch _ _ _ _ _ _) as [[n shots]|]; [|apply later_refl].
  split; simpl; [|apply Forall2_same, laterCity_refl].
  eapply Forall2_assign; eauto; [apply laterBattery_refl|].
  unfold laterBattery, spend, site. simpl. auto.
Qed.

Lemma runTimeouts_cities t s : citiesRef (runTimeouts t s) = citiesRef s.
Proof.
  unfold runTimeouts.
  set (s0 := setTimeouts _ s).
  change (citiesRef s) with (citiesRef s0). generalize s0. clear s0.
  induction (filter (fun d => (d <=? t)%Z) (timeouts s)) as [|d l IH];
    intros s0; simpl; auto.
  rewrite IH. reflexivity.
Qed.

Lemma loseCheck_citiesRef s : citiesRef (loseCheck s) = citiesRef s.
Proof. unfold loseCheck. destruct (forallb _ _); reflexivity. Qed.

Lemma update_later time rnd s : later s (update time rnd s).
Proof.
  unfold update. destruct (status s); try apply later_refl.
  eapply later_trans; [apply mutate_later|].
  apply later_same; [apply loseCheck_batteries | apply loseCheck_citiesRef].
Qed.

Lemma runTimeouts_later t s : later s (runTimeouts t s).
Proof.
  apply later_same; [apply runTimeouts_batteries | apply runTimeouts_cities].
Qed.

(** Within a session nothing comes back: whatever a fire command, a frame or
    a timer does, every battery and every city is where it was, every battery
    has the capacity it had, and none is active that was not active before.
    Only the start command restores them. *)
Theorem nothing_comes_back e s : e <> Start -> later s (handle e s).
Proof.
  intros He. destruct e; simpl; try contradiction.
  - apply handleFire_later.
  - apply update_later.
  - apply runTimeouts_later.
Qed.

Lemma nothing_comes_back_witness :
  Timer 0 <> Start /\ later mounted (handle (Timer 0) mounted).
Proof.
  assert (Timer 0 <> Start) as H by discriminate.
  split; [exact H | exact (nothing_comes_back (Timer 0) mounted H)].
Defined.

Lemma later_layout s s' :
  later s s' ->
  map site (batteriesRef s') = map site (batteriesRef s)
  /\ map bt_maxMissiles (batteriesRef s') = map bt_maxMissiles (batteriesRef s)
  /\ map ct_x (citiesRef s') = map ct_x (citiesRef s).
Proof.
  intros [Hb Hc]. repeat split.
  - induction Hb as [|b b' l l' (A & _ & _) _ IH]; simpl; congruence.
  - induction Hb as [|b b' l l' (_ & A & _) _ IH]; simpl; congruence.
  - induction Hc as [|c c' l l' (A & _) _ IH]; simpl; congruence.
Qed.

Lemma run_layout es s :
  map site (batteriesRef s) = map site initialBatteries
  /\ map bt_maxMissiles (batteriesRef s) = [50; 100; 50]%Z
  /\ map ct_x (citiesRef s) = map ct_x initialCities ->
  map site (batteriesRef (run es s)) = map site initialBatteries
  /\ map bt_maxMissiles (batteriesRef (run es s)) = [50; 100; 50]%Z
  /\ map ct_x (citiesRef (run es s)) = map ct_x initialCities.
Proof.
  revert s. induction es as [|e es IH]; intros s Hs; simpl; auto.
  apply IH. destruct e.
  - simpl. auto.
  - destruct (later_layout _ _ (handleFire_later x y ids s)) as (A & B & C).
    destruct Hs as (D & E & F). cbn [handle]. repeat split; congruence.
  - destruct (later_layout _ _ (update_later time rnd s)) as (A & B & C).
    destruct Hs as (D & E & F). cbn [handle]. repeat split; congruence.
  - destruct (later_layout _ _ (runTimeouts_later t s)) as (A & B & C).
    destruct Hs as (D & E & F). cbn [handle]. repeat split; congruence.
Qed.

(** However the component is driven, there are three batteries, at (100, 560),
    (400, 560) and (700, 560), of capacity 50, 100 and 50, and six cities, at
    150, 250, 350, 450, 550 and 650. *)
Theorem layout_is_fixed es :
  map site (batteriesRef (run es mounted))
  = [ (100, CANVAS_HEIGHT - 40); (CANVAS_WIDTH / 2, CANVAS_HEIGHT - 40);
      (CANVAS_WIDTH - 100, CANVAS_HEIGHT - 40) ]
  /\ map bt_maxMissiles (batteriesRef (run es mounted)) = [50; 100; 50]%Z
  /\ map ct_x (citiesRef (run es mounted)) = [150; 250; 350; 450; 550; 650]
  /\ List.length (batteriesRef (run es mounted)) = 3%nat
  /\ List.length (citiesRef (run es mounted)) = 6%nat.
Proof.
  destruct (run_layout es mounted) as (A & B & C); [simpl; auto|].
  repeat split; auto.
  - rewrite <- (length_map site), A. reflexivity.
  - rewrite <- (length_map ct_x), C. reflexivity.
Qed.

(** ** Stock *)

Lemma damageBatteries_stocked impactX bs sc i :
  stockedFrom i bs -> stockedFrom i (fst (damageBatteries impactX bs sc)).
Proof.
  revert sc i. induction bs as [|b bs IH]; intros sc i; simpl; auto.
  intros [Hb Hs]. destruct (bt_active b && _).
  - specialize (IH (batteryPenalty sc) (S i) Hs).
    destruct (damageBatteries impactX bs (batteryPenalty sc)); simpl in *. auto.
  - specialize (IH sc (S i) Hs).
    destruct (damageBatteries impactX bs sc); simpl in *. auto.
Qed.

Lemma refill_stocked bs i : stockedFrom i bs -> stockedFrom i (map refill bs).
Proof.
  revert i. induction bs as [|b bs IH]; intros i; simpl; auto.
  intros [Hb Hs]. split; auto.
  unfold refill. destruct (bt_active b); simpl; lia.
Qed.

Lemma ammoCheckFrom_stocked j bs i :
  stockedFrom i bs -> stockedFrom i (ammoCheckFrom j bs).
Proof.
  revert i j. induction bs as [|b bs IH]; intros i j; simpl; auto.
  intros [Hb Hs]. split; auto.
  destruct (bt_active b && _); simpl; auto.
Qed.

Lemma assign_stocked bs k i b v :
  stockedFrom k bs -> nth_error bs i = Some b ->
  (ammoFloor (k + i) <= bt_missiles v <= bt_maxMissiles v)%Z ->
  stockedFrom k (assign i v bs).
Proof.
  revert k i. induction bs as [|c bs IH]; intros k [|i]; simpl;
    try discriminate.
  - intros [_ Hs] _ Hv. rewrite Nat.add_0_r in Hv. auto.
  - intros [Hc Hs] Hn Hv. split; auto.
    apply IH; auto. rewrite Nat.add_succ_r in Hv. exact Hv.
Qed.

Lemma stockedFrom_nth bs k i b :
  stockedFrom k bs -> nth_error bs i = Some b ->
  (ammoFloor (k + i) <= bt_missiles b <= bt_maxMissiles b)%Z.
Proof.
  revert k i. induction bs as [|c bs IH]; intros k [|i]; simpl;
    try discriminate.
  - intros [Hc _] [= ->]. rewrite Nat.add_0_r. exact Hc.
  - intros [_ Hs] Hn. rewrite Nat.add_succ_r. apply (IH (S k)); auto.
Qed.

Lemma lockOn_short x y rockets : (List.length (lockOn x y rockets) <= 2)%nat.
Proof. unfold lockOn. rewrite length_firstn. lia. Qed.

(** What a shot costs: the price of eligibility, or for the center battery
    one or two missiles. *)
Lemma launch_price i battery rockets x y ids n shots :
  launch i battery rockets x y ids = Some (n, shots) ->
  (i = 0%nat /\ n = 10%Z) \/ (i = 1%nat /\ (1 <= n <= 2)%Z)
  \/ (i = 2%nat /\ n = 1%Z).
Proof.
  unfold launch. destruct i as [|[|[|i]]]; try discriminate.
  - intros [= <- _]. auto.
  - pose proof (lockOn_short x y rockets) as Hl.
    destruct (lockOn x y rockets) as [|r rs]; intros [= <- _]; right; left;
      split; auto; simpl List.length in *; lia.
  - intros [= <- _]. auto.
Qed.

Lemma handleFire_stocked x y ids s :
  stockedFrom 0 (batteriesRef s) ->
  stockedFrom 0 (batteriesRef (handleFire x y ids s)).
Proof.
  intros H. unfold handleFire.
  destruct (status s); auto. destruct (Rgtb _ _); auto.
  destruct (bestBattery _ _) as [i|] eqn:Hb; auto.
  destruct (nth_error _ _) as [battery|] eqn:E; auto.
  destruct (launch _ _ _ _ _ _) as [[n shots]|] eqn:L; auto.
  cbn [batteriesRef setMissiles setBatteries].
  eapply assign_stocked; eauto.
  destruct (bestBattery_eligible _ _ _ Hb) as (b' & Hn & _ & Hc).
  rewrite E in Hn. injection Hn as <-.
  pose proof (stockedFrom_nth _ 0 i battery H E) as Hs.
  simpl. unfold spend. simpl.
  destruct (launch_price _ _ _ _ _ _ _ _ L) as [[-> ->]|[[-> Hn]|[-> ->]]];
    unfold cost, ammoFloor in *; simpl in *; lia.
Qed.

Lemma forEach_stocked {A} (arr : State -> list A) cb :
  (forall a k s, stockedFrom 0 (batteriesRef s) ->
                 stockedFrom 0 (batteriesRef (cb a k s))) ->
  forall s, stockedFrom 0 (batteriesRef s) ->
            stockedFrom 0 (batteriesRef (forEach arr cb s)).
Proof.
  intros Hcb s.
  apply (forEach_invariant arr cb (fun s' => stockedFrom 0 (batteriesRef s'))).
  intros a k s' _. apply Hcb.
Qed.

Lemma rocketStep_batteries slow rocket index s :
  batteriesRef (rocketStep slow rocket index s) = batteriesRef s
  \/ exists impactX sc,
       batteriesRef (rocketStep slow rocket index s)
       = fst (damageBatteries impactX (batteriesRef s) sc).
Proof.
  unfold rocketStep. cbv zeta. destruct (Rgeb _ _); [|left; reflexivity].
  right.
  cbn [citiesRef score explosionsRef setExplosions setRockets batteriesRef].
  destruct (damageCities _ _ _) as [cities sc].
  cbn [citiesRef score explosionsRef setExplosions setRockets batteriesRef
       setScore setCities].
  match goal with
  | |- context [damageBatteries ?ix ?bs ?sc0] =>
      exists ix, sc0; destruct (damageBatteries ix bs sc0); reflexivity
  end.
Qed.

Lemma mutate_stocked time rnd s :
  stockedFrom 0 (batteriesRef s) ->
  stockedFrom 0 (batteriesRef (mutate time rnd s)).
Proof.
  intros H. unfold mutate. cbv zeta.
  unfold ammoCheck. cbn [batteriesRef setBatteries].
  apply ammoCheckFrom_stocked.
  apply forEach_stocked.
  { intros e k s' Hs. unfold explosionStep. destruct (pulse e) as [e' gone].
    apply forEach_stocked.
    { intros pu j s2 H2. unfold powerUpCollide.
      destruct (within _ _ _); auto.
      destruct (pu_type pu); simpl; auto. apply refill_stocked, H2. }
    apply forEach_stocked.
    { intros r j s2 H2. unfold rocketCollide. destruct (within _ _ _); auto. }
    destruct gone; exact Hs. }
  apply forEach_stocked.
  { intros pu k s' Hs. unfold powerUpExpire. destruct (_ >? _)%Z; auto. }
  apply forEach_stocked.
  { intros m k s' Hs. unfold missileStep. cbv zeta. destruct (Rltb _ _); auto. }
  apply forEach_stocked.
  { intros r k s' Hs.
    destruct (rocketStep_batteries (isSugarActive s) r k s')
      as [->|(ix & sc & ->)]; auto.
    apply damageBatteries_stocked, Hs. }
  replace (batteriesRef (spawnPhase time rnd s)) with (batteriesRef s); auto.
  unfold spawnPhase, spawnRocket, spawnPowerUp.
  destruct (Rgtb _ _); try reflexivity.
  destruct (Rltb _ _); destruct (map ct_x _ ++ map bt_x _);
    try destruct (nth_error _ _); reflexivity.
Qed.

(** The stock of a battery stays within bounds, however the component is
    driven: the left and the right battery hold between 0 and 50 missiles, the
    center battery between -1 and 100. *)
Theorem stock_stays_within_bounds es i b :
  nth_error (batteriesRef (run es mounted)) i = Some b ->
  (ammoFloor i <= bt_missiles b <= bt_maxMissiles b)%Z
  /\ (bt_maxMissiles b <= 100)%Z.
Proof.
  assert (forall s, stockedFrom 0 (batteriesRef s) ->
                    stockedFrom 0 (batteriesRef (run es s))) as H.
  { induction es as [|e es IH]; intros s Hs; simpl; auto.
    apply IH. destruct e; simpl.
    - unfold ammoFloor. simpl. repeat split; lia.
    - apply handleFire_stocked, Hs.
    - unfold update. destruct (status s); auto.
      rewrite loseCheck_batteries. apply mutate_stocked, Hs.
    - rewrite runTimeouts_batteries. exact Hs. }
  intros Hn. split.
  - apply (stockedFrom_nth (batteriesRef (run es mounted)) 0 i b); auto.
    apply H. simpl. unfold ammoFloor. simpl. repeat split; lia.
  - destruct (run_layout es mounted) as (_ & Hm & _); [simpl; auto|].
    apply (map_nth_error bt_maxMissiles) in Hn. rewrite Hm in Hn.
    destruct i as [|[|[|i]]]; simpl in Hn; try (injection Hn as <-; lia).
    destruct i; discriminate.
Qed.

Lemma stock_stays_within_bounds_witness :
  let b := mkBattery (CANVAS_WIDTH / 2) (CANVAS_HEIGHT - 40) 100 100 true in
  nth_error (batteriesRef (run [Start] mounted)) 1 = Some b
  /\ (ammoFloor 1 <= bt_missiles b <= bt_maxMissiles b)%Z.
Proof.
  cbv zeta. split; [reflexivity|].
  apply (stock_stays_within_bounds [Start] 1
           (mkBattery (CANVAS_WIDTH / 2) (CANVAS_HEIGHT - 40) 100 100 true)
           eq_refl).
Defined.

Lemma ammoCheckFrom_payable j bs i b :
  nth_error (ammoCheckFrom j bs) i = Some b ->
  bt_active b = true -> (cost (j + i) <= bt_missiles b)%Z.
Proof.
  revert j i. induction bs as [|c bs IH]; intros j [|i]; simpl;
    try discriminate.
  - rewrite Nat.add_0_r. intros [= <-].
    destruct (bt_active c) eqn:Ea; simpl.
    + destruct (Z.ltb_spec (bt_missiles c) (cost j)); simpl; intros Hb;
        [discriminate | lia].
    + intros Hb. congruence.
  - rewrite Nat.add_succ_r. apply (IH (S j)).
Qed.

(** When a frame of a running session is over, every battery still active
    can pay for a shot: 10 missiles or more in the left one, one or more in
    the others.  A battery the center shot left at -1 or 0 is inactive by
    then. *)
Theorem active_battery_can_pay time rnd s i b :
  status s = PLAYING ->
  nth_error (batteriesRef (update time rnd s)) i = Some b ->
  bt_active b = true ->
  (cost i <= bt_missiles b)%Z.
Proof.
  intros Hs Hn Ha. unfold update in Hn. rewrite Hs in Hn.
  rewrite loseCheck_batteries in Hn. unfold mutate, ammoCheck in Hn.
  cbn [batteriesRef setBatteries] in Hn.
  apply (ammoCheckFrom_payable 0 _ i b Hn Ha).
Qed.

Lemma update_idle rnd :
  update 0 rnd (arena [] [] []) = arena [] [] [].
Proof.
  unfold update. cbn [arena status]. unfold mutate. cbv zeta.
  fold (arena [] [] []).
  rewrite spawnPhase_idle.
  rewrite (forEach_empty rocketsRef) by reflexivity.
  rewrite (forEach_empty missilesRef) by reflexivity.
  rewrite (forEach_empty powerUpsRef) by reflexivity.
  rewrite (forEach_empty explosionsRef) by reflexivity.
  reflexivity.
Qed.

Lemma active_battery_can_pay_witness :
  let rnd := mkRand 0 0 "a" 0 1 "b" 0 0 0 0 0 in
  let b := mkBattery 100 (CANVAS_HEIGHT - 40) 50 50 true in
  nth_error (batteriesRef (update 0 rnd (arena [] [] []))) 0 = Some b
  /\ (cost 0 <= bt_missiles b)%Z.
Proof.
  cbv zeta.
  assert (nth_error
            (batteriesRef
               (update 0 (mkRand 0 0 "a" 0 1 "b" 0 0 0 0 0) (arena [] [] [])))
            0
          = Some (mkBattery 100 (CANVAS_HEIGHT - 40) 50 50 true)) as Hn
    by (rewrite update_idle; reflexivity).
  split; [exact Hn|].
  exact (active_battery_can_pay 0 (mkRand 0 0 "a" 0 1 "b" 0 0 0 0 0)
           (arena [] [] []) 0 _ eq_refl Hn eq_refl).
Defined.

(** ** The battery that fires *)

Lemma bestBatteryFrom_nearest x bs i best minDist j :
  bestBatteryFrom x bs i best minDist = Some j ->
  (best = Some j
   /\ forall k b, nth_error bs k = Some b -> eligible (i + k) b = true ->
                  exists m, minDist = Some m /\ m <= reach x b)
  \/ ((i <= j)%nat
      /\ exists bj,
           nth_error bs (j - i) = Some bj
           /\ eligible j bj = true
           /\ (forall m, minDist = Some m -> reach x bj < m)
           /\ forall k b, nth_error bs k = Some b ->
                          eligible (i + k) b = true ->
                          reach x bj <= reach x b
                          /\ ((k < j - i)%nat -> reach x bj < reach x b)).
Proof.
  revert i best minDist.
  induction bs as [|b bs IH]; intros i best minDist; simpl.
  - intros ->. left. split; auto. intros [|k] c; discriminate.
  - fold (eligible i b). fold (reach x b).
    destruct (eligible i b) eqn:E.
    + destruct (match minDist with None => true | Some m => _ end) eqn:T.
      * intros H. apply IH in H. right.
        destruct H as [[Hj Hall]|(Hle & bj & Hn & He & Hm & Hall)].
        -- injection Hj as <-. split; [lia|]. exists b.
           rewrite Nat.sub_diag. simpl. repeat split; auto.
           ++ intros m ->. apply Rltb_spec in T. exact T.
           ++ destruct k as [|k]; simpl in H.
              ** injection H as <-. lra.
              ** rewrite Nat.add_succ_r in H0.
                 destruct (Hall k b0 H H0) as (m & [= <-] & Hm). exact Hm.
           ++ intros Hk. lia.
        -- split; [lia|]. exists bj.
           replace (j - i)%nat with (S (j - S i)) by lia. simpl.
           specialize (Hm _ eq_refl).
           repeat split; auto.
           ++ intros m ->. apply Rltb_spec in T. lra.
           ++ destruct k as [|k]; simpl in H.
              ** injection H as <-. lra.
              ** rewrite Nat.add_succ_r in H0. apply (Hall k b0 H H0).
           ++ destruct k as [|k]; simpl in H.
              ** injection H as <-. intros _. exact Hm.
              ** rewrite Nat.add_succ_r in H0. intros Hk.
                 apply (Hall k b0 H H0). lia.
      * destruct minDist as [m|]; [|discriminate].
        assert (m <= reach x b) as Hmb.
        { unfold Rltb in T. destruct (Rlt_dec _ _); [discriminate | lra]. }
        intros H. apply IH in H.
        destruct H as [[Hj Hall]|(Hle & bj & Hn & He & Hm & Hall)].
        -- left. split; auto. intros [|k] c Hc Hec; simpl in Hc.
           ++ injection Hc as <-. eauto.
           ++ rewrite Nat.add_succ_r in Hec. apply (Hall k c Hc Hec).
        -- right. split; [lia|]. exists bj.
           replace (j - i)%nat with (S (j - S i)) by lia. simpl.
           pose proof (Hm _ eq_refl) as Hlt.
           repeat split; auto.
           ++ destruct k as [|k]; simpl in H.
              ** injection H as <-. lra.
              ** rewrite Nat.add_succ_r in H0. apply (Hall k b0 H H0).
           ++ destruct k as [|k]; simpl in H.
              ** injection H as <-. intros _. lra.
              ** rewrite Nat.add_succ_r in H0. intros Hk.
                 apply (Hall k b0 H H0). lia.
    + intros H. apply IH in H.
      destruct H as [[Hj Hall]|(Hle & bj & Hn & He & Hm & Hall)].
      * left. split; auto. intros [|k] c Hc Hec; simpl in Hc.
        -- injection Hc as <-. rewrite Nat.add_0_r in Hec. congruence.
        -- rewrite Nat.add_succ_r in Hec. apply (Hall k c Hc Hec).
      * right. split; [lia|]. exists bj.
        replace (j - i)%nat with (S (j - S i)) by lia. simpl.
        repeat split; auto.
        -- destruct k as [|k]; simpl in H.
           ++ injection H as <-. rewrite Nat.add_0_r in H0. congruence.
           ++ rewrite Nat.add_succ_r in H0. apply (Hall k b0 H H0).
        -- destruct k as [|k]; simpl in H.
           ++ injection H as <-. rewrite Nat.add_0_r in H0. congruence.
           ++ rewrite Nat.add_succ_r in H0. intros Hk.
              apply (Hall k b0 H H0). lia.
Qed.

(** The battery a fire command selects is eligible (active, with the price of
    a shot in stock), no eligible battery is nearer the fire point along x,
    and every eligible battery before it in the array is strictly farther: a
    tie goes to the leftmost. *)
Theorem fire_selects_nearest_eligible x bs j :
  bestBattery x bs = Some j ->
  exists bj,
    nth_error bs j = Some bj
    /\ eligible j bj = true
    /\ forall k b, nth_error bs k = Some b -> eligible k b = true ->
                   reach x bj <= reach x b
                   /\ ((k < j)%nat -> reach x bj < reach x b).
Proof.
  intros H. apply bestBatteryFrom_nearest in H.
  destruct H as [[H _]|(_ & bj & Hn & He & _ & Hall)]; [discriminate|].
  rewrite Nat.sub_0_r in *. exists bj. repeat split; auto.
  - apply (Hall k b); auto.
  - apply (Hall k b); auto.
Qed.

Lemma fire_selects_nearest_eligible_witness :
  bestBattery 100 initialBatteries = Some 0%nat
  /\ exists bj, nth_error initialBatteries 0 = Some bj
                /\ eligible 0 bj = true.
Proof.
  assert (bestBattery 100 initialBatteries = Some 0%nat) as H
    by (unfold bestBattery; simpl; Reval; reflexivity).
  split; [exact H|].
  destruct (fire_selects_nearest_eligible 100 initialBatteries 0 H)
    as (bj & Hn & He & _).
  exists bj. auto.
Defined.

Lemma bestBatteryFrom_none x bs i best minDist :
  (forall k b, nth_error bs k = Some b -> eligible (i + k) b = false) ->
  bestBatteryFrom x bs i best minDist = best.
Proof.
  revert i. induction bs as [|b bs IH]; intros i H; simpl; auto.
  fold (eligible i b).
  rewrite <- (Nat.add_0_r i) at 1. rewrite (H 0%nat b eq_refl).
  apply IH. intros k c Hc. rewrite Nat.add_succ_l, <- Nat.add_succ_r.
  apply (H (S k) c Hc).
Qed.

(** A fire command that finds no eligible battery changes nothing. *)
Theorem fire_without_eligible_battery x y ids s :
  (forall k b, nth_error (batteriesRef s) k = Some b -> eligible k b = false) ->
  handleFire x y ids s = s.
Proof.
  intros H. unfold handleFire, bestBattery.
  rewrite (bestBatteryFrom_none x (batteriesRef s) 0 None None H).
  destruct (status s); auto. destruct (Rgtb _ _); auto.
Qed.

Lemma fire_without_eligible_battery_witness :
  let s :=
    mkState PLAYING 0 false [] [] [] []
      [ mkBattery 100 (CANVAS_HEIGHT - 40) 9 50 true;
        mkBattery (CANVAS_WIDTH / 2) (CANVAS_HEIGHT - 40) 0 100 true;
        mkBattery (CANVAS_WIDTH - 100) (CANVAS_HEIGHT - 40) 50 50 false ]
      initialCities 0 [] in
  handleFire 100 100 (fun _ => "m"%string) s = s.
Proof.
  cbv zeta. apply fire_without_eligible_battery.
  intros [|[|[|k]]] b Hn; simpl in Hn.
  - injection Hn as <-. reflexivity.
  - injection Hn as <-. reflexivity.
  - injection Hn as <-. reflexivity.
  - destruct k; discriminate.
Defined.

(** ** What a fire command does *)

Lemma trackers_length battery ids k targets :
  List.length (trackers battery ids k targets) = List.length targets.
Proof.
  revert k. induction targets as [|t ts IH]; intros k; simpl; auto.
Qed.

Lemma trackers_origin battery ids k targets m :
  In m (trackers battery ids k targets) ->
  ms_start m = mkPoint (bt_x battery) (bt_y battery)
  /\ ms_current m = ms_start m
  /\ ms_batteryIndex m = 1%nat.
Proof.
  revert k. induction targets as [|t ts IH]; intros k; simpl; [tauto|].
  intros [<-|H]; simpl; eauto.
Qed.

Lemma launch_shots i battery rockets x y ids n shots :
  launch i battery rockets x y ids = Some (n, shots) ->
  (1 <= List.length shots <= 2)%nat
  /\ forall m, In m shots ->
               ms_start m = mkPoint (bt_x battery) (bt_y battery)
               /\ ms_current m = ms_start m
               /\ ms_batteryIndex m = i.
Proof.
  unfold launch. destruct i as [|[|[|i]]]; try discriminate.
  - intros [= _ <-]. split; [simpl; lia|]. intros m [<-|[]]. simpl. auto.
  - pose proof (lockOn_short x y rockets) as Hl.
    destruct (lockOn x y rockets) as [|r rs] eqn:E; intros [= _ <-].
    + split; [simpl; lia|]. intros m [<-|[]]. simpl. auto.
    + split.
      * pose proof (trackers_length battery ids 0 (r :: rs)) as Ht.
        simpl in *. lia.
      * intros m Hm. apply (trackers_origin battery ids 0 (r :: rs)), Hm.
  - intros [= _ <-]. split; [simpl; lia|]. intros m [<-|[]]. simpl. auto.
Qed.

(** A fire command touches the stock of the batteries and the missile pool,
    nothing else: it appends at most two Interceptors, each one standing at
    the launch point of a battery, and never removes one. *)
Theorem fire_only_launches x y ids s :
  let s' := handleFire x y ids s in
  status s' = status s /\ score s' = score s
  /\ isSugarActive s' = isSugarActive s
  /\ rocketsRef s' = rocketsRef s /\ explosionsRef s' = explosionsRef s
  /\ powerUpsRef s' = powerUpsRef s /\ citiesRef s' = citiesRef s
  /\ lastSpawnTime s' = lastSpawnTime s /\ timeouts s' = timeouts s
  /\ exists shots,
       missilesRef s' = missilesRef s ++ shots
       /\ (List.length shots <= 2)%nat
       /\ forall m, In m shots ->
            ms_current m = ms_start m
            /\ exists b, In b (batteriesRef s)
                         /\ ms_start m = mkPoint (bt_x b) (bt_y b).
Proof.
  cbv zeta. unfold handleFire.
  assert (forall t : State,
            t = s ->
            status t = status s /\ score t = score s
            /\ isSugarActive t = isSugarActive s
            /\ rocketsRef t = rocketsRef s /\ explosionsRef t = explosionsRef s
            /\ powerUpsRef t = powerUpsRef s /\ citiesRef t = citiesRef s
            /\ lastSpawnTime t = lastSpawnTime s /\ timeouts t = timeouts s
            /\ exists shots,
                 missilesRef t = missilesRef s ++ shots
                 /\ (List.length shots <= 2)%nat
                 /\ forall m, In m shots ->
                      ms_current m = ms_start m
                      /\ exists b, In b (batteriesRef s)
                           /\ ms_start m = mkPoint (bt_x b) (bt_y b)) as Hsame.
  { intros t ->. do 9 (split; [reflexivity|]).
    exists []. rewrite app_nil_r.
    split; [reflexivity|]. split; [simpl; lia|]. intros m []. }
  destruct (status s) eqn:Hst; auto. destruct (Rgtb _ _); auto.
  destruct (bestBattery _ _) as [i|]; auto.
  destruct (nth_error _ _) as [battery|] eqn:E; auto.
  destruct (launch _ _ _ _ _ _) as [[n shots]|] eqn:L; auto.
  destruct (launch_shots _ _ _ _ _ _ _ _ L) as [Hlen Hall].
  split; [exact Hst|]. do 8 (split; [reflexivity|]).
  exists shots. split; [reflexivity|]. split; [lia|].
  intros m Hm. split; [apply Hall, Hm|].
  exists battery. split; [eapply nth_error_In; eauto | apply Hall, Hm].
Qed.

(** A fire command that goes to the left or to the right battery: one
    Interceptor without tracking reference, from the battery to the fire
    point; the left one flies at 0.7 [MISSILE_SPEED], costs 10 missiles and
    will detonate to a maximum radius of 150, the right one flies at
    [MISSILE_SPEED], costs 1 and will detonate to 70.  The stock left is not
    negative. *)
Theorem side_battery_fire x y ids s i battery :
  status s = PLAYING ->
  Rgtb y (CANVAS_HEIGHT - 80) = false ->
  bestBattery x (batteriesRef s) = Some i ->
  nth_error (batteriesRef s) i = Some battery ->
  i = 0%nat \/ i = 2%nat ->
  let s' := handleFire x y ids s in
  let shot :=
    mkMissile (ids 0%nat) (mkPoint (bt_x battery) (bt_y battery))
      (mkPoint (bt_x battery) (bt_y battery)) (mkPoint x y)
      (if Nat.eqb i 0 then MISSILE_SPEED * 0.7 else MISSILE_SPEED) i None in
  missilesRef s' = missilesRef s ++ [shot]
  /\ batteriesRef s' = assign i (spend (cost i) battery) (batteriesRef s)
  /\ (0 <= bt_missiles (spend (cost i) battery))%Z
  /\ ex_maxRadius (detonation shot) = (if Nat.eqb i 0 then 150 else 70).
Proof.
  intros Hs Hy Hb Hn Hi. cbv zeta.
  destruct (bestBattery_eligible _ _ _ Hb) as (b' & Hn' & _ & Hc).
  rewrite Hn in Hn'. injection Hn' as <-.
  destruct Hi as [-> | ->].
  - rewrite (handleFire_accepted x y ids s 0 battery 10
               [mkMissile (ids 0%nat) (mkPoint (bt_x battery) (bt_y battery))
                  (mkPoint (bt_x battery) (bt_y battery)) (mkPoint x y)
                  (MISSILE_SPEED * 0.7) 0 None] Hs Hy Hb Hn eq_refl).
    unfold cost in *. simpl in *. repeat split. lia.
  - rewrite (handleFire_accepted x y ids s 2 battery 1
               [mkMissile (ids 0%nat) (mkPoint (bt_x battery) (bt_y battery))
                  (mkPoint (bt_x battery) (bt_y battery)) (mkPoint x y)
                  MISSILE_SPEED 2 None] Hs Hy Hb Hn eq_refl).
    unfold cost in *. simpl in *. repeat split. lia.
Qed.

Lemma side_battery_fire_witness :
  let s := run [Start] mounted in
  let battery := mkBattery 100 (CANVAS_HEIGHT - 40) 50 50 true in
  missilesRef (handleFire 100 100 (fun _ => "m"%string) s)
  = [mkMissile "m" (mkPoint 100 (CANVAS_HEIGHT - 40))
       (mkPoint 100 (CANVAS_HEIGHT - 40)) (mkPoint 100 100)
       (MISSILE_SPEED * 0.7) 0 None]
  /\ (0 <= bt_missiles (spend (cost 0) battery))%Z.
Proof.
  cbv zeta.
  assert (Rgtb 100 (CANVAS_HEIGHT - 80) = false) as Hy by (Reval; reflexivity).
  assert (bestBattery 100 (batteriesRef (run [Start] mounted)) = Some 0%nat)
    as Hb by (unfold bestBattery; simpl; Reval; reflexivity).
  destruct (side_battery_fire 100 100 (fun _ => "m"%string)
              (run [Start] mounted) 0
              (mkBattery 100 (CANVAS_HEIGHT - 40) 50 50 true)
              eq_refl Hy Hb eq_refl (or_introl eq_refl))
    as (Hm & _ & Hp & _).
  split; [exact Hm | exact Hp].
Defined.

(** ** Locking on *)

Lemma insertBy_perm {A} (key : A -> R) a l :
  Permutation (insertBy key a l) (a :: l).
Proof.
  induction l as [|b l IH]; simpl; auto.
  destruct (Rleb _ _); auto.
  eapply perm_trans; [apply perm_skip, IH | apply perm_swap].
Qed.

Lemma sortBy_perm {A} (key : A -> R) l : Permutation (sortBy key l) l.
Proof.
  induction l as [|a l IH]; simpl; auto.
  eapply perm_trans; [apply insertBy_perm | apply perm_skip, IH].
Qed.

Lemma insertBy_sorted {A} (key : A -> R) a l :
  StronglySorted (fun u v => key u <= key v) l ->
  StronglySorted (fun u v => key u <= key v) (insertBy key a l).
Proof.
  induction 1 as [|b l Hs IH Hb]; simpl.
  - constructor; constructor.
  - destruct (Rleb (key a) (key b)) eqn:E.
    + apply Rleb_spec in E. constructor.
      * constructor; auto.
      * constructor; auto.
        rewrite Forall_forall in *. intros c Hc. specialize (Hb c Hc). lra.
    + assert (key b < key a) as Hlt.
      { unfold Rleb in E. destruct (Rle_dec _ _); [discriminate | lra]. }
      constructor; auto.
      rewrite Forall_forall in *. intros c Hc.
      apply insertBy_In in Hc. destruct Hc as [->|Hc]; [lra | auto].
Qed.

Lemma sortBy_sorted {A} (key : A -> R) l :
  StronglySorted (fun u v => key u <= key v) (sortBy key l).
Proof.
  induction l as [|a l IH]; simpl; [constructor | apply insertBy_sorted, IH].
Qed.

Lemma sorted_split {A} (Q : A -> A -> Prop) l1 l2 :
  StronglySorted Q (l1 ++ l2) ->
  forall a b, In a l1 -> In b l2 -> Q a b.
Proof.
  induction l1 as [|c l1 IH]; simpl; intros H a b Ha Hb; [contradiction|].
  inversion H as [|? ? Hs Hf]; subst.
  destruct Ha as [->|Ha].
  - rewrite Forall_forall in Hf. apply Hf, in_or_app. auto.
  - apply IH; auto.
Qed.

(** The center battery locks on the Rockets nearest the fire point: the pool
    is the Rockets locked on, two of them or the whole pool if it holds fewer,
    together with the others, and none of the others is nearer the fire point
    than one locked on. *)
Theorem lockOn_takes_the_nearest x y rockets :
  let key := fun r => distance (px (rk_current r)) (py (rk_current r)) x y in
  List.length (lockOn x y rockets) = Nat.min 2 (List.length rockets)
  /\ exists others,
       Permutation (lockOn x y rockets ++ others) rockets
       /\ forall a b, In a (lockOn x y rockets) -> In b others ->
                      key a <= key b.
Proof.
  cbv zeta. unfold lockOn.
  set (key := fun r => distance (px (rk_current r)) (py (rk_current r)) x y).
  split.
  - rewrite length_firstn, sortBy_length. reflexivity.
  - exists (skipn 2 (sortBy key rockets)). split.
    + rewrite firstn_skipn. apply sortBy_perm.
    + apply (sorted_split (fun u v => key u <= key v)).
      rewrite firstn_skipn. apply sortBy_sorted.
Qed.

(** ** From the pointer to the canvas *)

(** A pointer event inside the displayed canvas, whatever its size on the
    page, lands inside the 800 x 600 canvas, and is ignored exactly when it
    falls below 520/600 of the displayed height. *)
Theorem pointer_maps_into_canvas rect clientX clientY ids s :
  0 < rect_width rect -> 0 < rect_height rect ->
  rect_left rect <= clientX <= rect_left rect + rect_width rect ->
  rect_top rect <= clientY <= rect_top rect + rect_height rect ->
  let '(x, y) := canvasPoint rect clientX clientY in
  0 <= x <= CANVAS_WIDTH /\ 0 <= y <= CANVAS_HEIGHT
  /\ handlePointer (Some rect) clientX clientY ids s = handleFire x y ids s
  /\ (rect_height rect * 520 < (clientY - rect_top rect) * 600 ->
      handlePointer (Some rect) clientX clientY ids s = s)
  /\ ((clientY - rect_top rect) * 600 <= rect_height rect * 520 ->
      Rgtb y (CANVAS_HEIGHT - 80) = false).
Proof.
  intros Hw Hh Hx Hy. unfold canvasPoint, CANVAS_WIDTH, CANVAS_HEIGHT.
  cbv zeta. unfold Rdiv.
  set (w := rect_width rect) in *. set (h := rect_height rect) in *.
  set (dx := clientX - rect_left rect).
  set (dy := clientY - rect_top rect).
  assert (0 <= dx <= w) as Hdx by (unfold dx; lra).
  assert (0 <= dy <= h) as Hdy by (unfold dy; lra).
  pose proof (Rinv_0_lt_compat w Hw) as Hiw.
  pose proof (Rinv_0_lt_compat h Hh) as Hih.
  assert (w * / w = 1) as Ew by (apply Rinv_r; lra).
  assert (h * / h = 1) as Eh by (apply Rinv_r; lra).
  assert (0 <= dx * / w <= 1) as Rx by (split; nra).
  assert (0 <= dy * / h <= 1) as Ry by (split; nra).
  assert (forall t, (dy * / h) * 600 > t -> dy * (600 * / h) > t) as Ey
    by (intros t Ht; lra).
  repeat split; try nra.
  - unfold handlePointer, handleFire, canvasPoint, CANVAS_WIDTH, CANVAS_HEIGHT.
    destruct (status s); reflexivity.
  - intros Hlow. unfold handlePointer, handleFire, canvasPoint,
      CANVAS_WIDTH, CANVAS_HEIGHT, Rdiv.
    destruct (status s); try reflexivity.
    fold dy h.
    assert (Rgtb (dy * (600 * / h)) (600 - 80) = true) as Hg.
    { unfold Rgtb. apply Rltb_true.
      assert (520 * (h * / h) < dy * / h * 600) by nra. nra. }
    rewrite Hg. reflexivity.
  - intros Hup. apply Rgtb_false.
    assert (dy * / h * 600 <= 520 * (h * / h)) by nra. nra.
Qed.

Lemma pointer_maps_into_canvas_witness :
  0 < 400 /\ 0 < 300 /\ 10 <= 210 <= 10 + 400 /\ 20 <= 300 <= 20 + 300
  /\ handlePointer (Some (mkRect 10 20 400 300)) 210 300
       (fun _ => "m"%string) (run [Start] mounted)
     = run [Start] mounted.
Proof.
  assert (0 < 400) as Hw by lra. assert (0 < 300) as Hh by lra.
  assert (10 <= 210 <= 10 + 400) as Hx by lra.
  assert (20 <= 300 <= 20 + 300) as Hy by lra.
  repeat split; try lra.
  pose proof (pointer_maps_into_canvas (mkRect 10 20 400 300) 210 300
                (fun _ => "m"%string) (run [Start] mounted) Hw Hh Hx Hy) as H.
  unfold canvasPoint in H. cbv zeta in H.
  destruct H as (_ & _ & _ & Hlow & _).
  apply Hlow. cbn [rect_height rect_top]. lra.
Defined.

(** ** Spawning *)

Lemma spawnPhase_delay time rnd s :
  spawnPhase time rnd s
  = if Rgtb (time - lastSpawnTime s) (IZR (spawnDelay (score s)))
    then
      let s1 := setLastSpawnTime time (spawnRocket rnd s) in
      if Rltb (rnd_chance rnd) 0.1 then spawnPowerUp rnd s1 else s1
    else s.
Proof. reflexivity. Qed.

(** The delay between two spawns goes from 1500 ms at score 0 down to 700 ms
    from score 800 on, and never lower: the floor of 200 ms in the formula is
    out of reach.  So a frame within 700 ms of the last spawn spawns nothing,
    and a frame more than 1500 ms after it always makes a spawn attempt. *)
Theorem spawn_delay_bounds time rnd s :
  (0 <= score s)%Z ->
  (700 <= spawnDelay (score s) <= 1500)%Z
  /\ ((800 <= score s)%Z -> spawnDelay (score s) = 700%Z)
  /\ (time - lastSpawnTime s <= 700 -> spawnPhase time rnd s = s)
  /\ (1500 < time - lastSpawnTime s ->
      lastSpawnTime (spawnPhase time rnd s) = time).
Proof.
  intros Hs.
  assert (700 <= spawnDelay (score s) <= 1500)%Z as Hd
    by (unfold spawnDelay; lia).
  assert (700 <= IZR (spawnDelay (score s)) <= 1500) as Hr.
  { split; [apply (IZR_le 700) | apply (IZR_le _ 1500)]; lia. }
  repeat split; try lia.
  - intros H. unfold spawnDelay. lia.
  - intros H. rewrite spawnPhase_delay.
    unfold Rgtb. rewrite Rltb_false by lra. reflexivity.
  - intros H. rewrite spawnPhase_delay.
    unfold Rgtb. rewrite Rltb_true by lra. cbv zeta.
    destruct (Rltb _ _); reflexivity.
Qed.

Lemma spawn_delay_bounds_witness :
  (0 <= score (arena [] [] []))%Z
  /\ spawnPhase 700 (mkRand 0 0 "a" 0 0 "b" 0 0 0 0 0) (arena [] [] [])
     = arena [] [] [].
Proof.
  assert (0 <= score (arena [] [] []))%Z as H by (simpl; lia).
  split; [exact H|].
  destruct (spawn_delay_bounds 700 (mkRand 0 0 "a" 0 0 "b" 0 0 0 0 0)
              (arena [] [] []) H) as (_ & _ & Hq & _).
  apply Hq. simpl. lra.
Defined.

Lemma floorIndex_below r n :
  0 <= r -> r < INR n -> (floorIndex r < n)%nat.
Proof.
  intros H0 Hn. unfold floorIndex.
  destruct (base_Int_part r) as [Hle Hgt].
  assert (0 <= Int_part r)%Z as Hz.
  { assert (IZR (-1) < IZR (Int_part r)) as Hm by lra.
    apply lt_IZR in Hm. lia. }
  assert (IZR (Int_part r) < INR n) as Hlt by lra.
  rewrite INR_IZR_INZ in Hlt. apply lt_IZR in Hlt. lia.
Qed.

(** [spawnRocket] with draws in [0, 1): as long as a city or a battery is
    active, exactly one Rocket joins the pool; it starts on the top edge,
    inside the width of the canvas, aims at the ground line y = 580 under an
    active city or battery, and its speed lies between [ROCKET_SPEED_MIN] and
    [ROCKET_SPEED_MAX].  With nothing active left, nothing is spawned. *)
Theorem spawnRocket_aims_at_active_target rnd s :
  0 <= rnd_startX rnd < 1 -> 0 <= rnd_target rnd < 1 ->
  0 <= rnd_speed rnd < 1 ->
  let targets :=
    map ct_x (filter ct_active (citiesRef s))
    ++ map bt_x (filter bt_active (batteriesRef s)) in
  (targets = [] -> spawnRocket rnd s = s)
  /\ (targets <> [] ->
      exists rocket,
        spawnRocket rnd s = setRockets (rocketsRef s ++ [rocket]) s
        /\ rk_current rocket = rk_start rocket
        /\ py (rk_start rocket) = 0
        /\ 0 <= px (rk_start rocket) < CANVAS_WIDTH
        /\ py (rk_target rocket) = CANVAS_HEIGHT - 20
        /\ In (px (rk_target rocket)) targets
        /\ ROCKET_SPEED_MIN <= rk_speed rocket < ROCKET_SPEED_MAX).
Proof.
  intros Hx Ht Hv. cbv zeta. unfold spawnRocket.
  set (targets := map ct_x (filter ct_active (citiesRef s))
                  ++ map bt_x (filter bt_active (batteriesRef s))).
  split.
  - intros ->. reflexivity.
  - intros Hne. destruct targets as [|t0 ts] eqn:E; [contradiction|].
    rewrite <- E.
    assert (floorIndex (rnd_target rnd * INR (List.length targets))
            < List.length targets)%nat as Hi.
    { assert (0 < INR (List.length targets)) as Hpos
        by (rewrite E; simpl List.length; apply lt_0_INR; lia).
      apply floorIndex_below; nra. }
    destruct (nth_error targets _) as [targetX|] eqn:En.
    + eexists. split; [reflexivity|]. cbn [rk_current rk_start rk_target
        rk_speed px py]. unfold CANVAS_WIDTH, ROCKET_SPEED_MIN, ROCKET_SPEED_MAX.
      repeat split; try nra.
      eapply nth_error_In. exact En.
    + apply nth_error_None in En. lia.
Qed.

Lemma spawnRocket_aims_at_active_target_witness :
  exists rocket,
    spawnRocket (mkRand 0.5 0 "r" 0.5 0 "p" 0 0 0 0 0) (arena [] [] [])
    = setRockets [rocket] (arena [] [] [])
    /\ py (rk_target rocket) = CANVAS_HEIGHT - 20.
Proof.
  destruct (spawnRocket_aims_at_active_target
              (mkRand 0.5 0 "r" 0.5 0 "p" 0 0 0 0 0) (arena [] [] []))
    as [_ H]; try (simpl; lra).
  destruct H as (rocket & Hs & _ & _ & _ & Hy & _); [simpl; discriminate|].
  exists rocket. split; [exact Hs | exact Hy].
Defined.

(** [spawnPowerUp] with draws in [0, 1): one pickup joins the pool, inside
    the band 50 <= x < 750, 100 <= y < 400, all of it above the line y = 520
    under which fire commands are ignored; it is stamped with the clock and
    given 5000 ms. *)
Theorem spawnPowerUp_in_band rnd s :
  0 <= rnd_puX rnd < 1 -> 0 <= rnd_puY rnd < 1 ->
  exists pu,
    spawnPowerUp rnd s = setPowerUps (powerUpsRef s ++ [pu]) s
    /\ 50 <= pu_x pu < 750 /\ 100 <= pu_y pu < 400
    /\ Rgtb (pu_y pu) (CANVAS_HEIGHT - 80) = false
    /\ pu_createdAt pu = dateNowSpawn rnd /\ pu_duration pu = 5000%Z
    /\ (pu_type pu = AMMO <-> 0.5 < rnd_puType rnd).
Proof.
  intros Hx Hy. unfold spawnPowerUp. eexists. split; [reflexivity|].
  cbn [pu_x pu_y pu_createdAt pu_duration pu_type].
  unfold CANVAS_WIDTH, CANVAS_HEIGHT.
  repeat split; try nra.
  - apply Rgtb_false. nra.
  - unfold Rgtb. destruct (Rltb 0.5 (rnd_puType rnd)) eqn:E;
      [intros _; apply Rltb_spec, E | discriminate].
  - intros H. unfold Rgtb. rewrite Rltb_true by exact H. reflexivity.
Qed.

Lemma spawnPowerUp_in_band_witness :
  exists pu,
    spawnPowerUp (mkRand 0 0 "r" 0 0 "p" 0.7 0.5 0.5 42 0) (arena [] [] [])
    = setPowerUps [pu] (arena [] [] [])
    /\ pu_type pu = AMMO.
Proof.
  destruct (spawnPowerUp_in_band
              (mkRand 0 0 "r" 0 0 "p" 0.7 0.5 0.5 42 0) (arena [] [] []))
    as (pu & Hs & _ & _ & _ & _ & _ & Ht); try (simpl; lra).
  exists pu. split; [exact Hs|]. apply Ht. simpl. lra.
Defined.

(** ** Motion *)

Lemma travel_nonneg start target : 0 <= travel start target.
Proof. unfold travel. apply sqrt_pos. Qed.

Lemma travel_square start target :
  travel start target * travel start target
  = (px target - px start) * (px target - px start)
    + (py target - py start) * (py target - py start).
Proof.
  unfold travel. cbv zeta. apply sqrt_sqrt.
  pose proof (Rle_0_sqr (px target - px start)) as H1.
  pose proof (Rle_0_sqr (py target - py start)) as H2.
  unfold Rsqr in *. lra.
Qed.

Lemma travel_pos start target :
  py start <> py target -> 0 < travel start target.
Proof.
  intros H. pose proof (travel_nonneg start target) as H0.
  pose proof (travel_square start target) as H2.
  destruct (Req_dec (travel start target) 0) as [E|E]; [|lra].
  exfalso. rewrite E in H2.
  pose proof (Rle_0_sqr (px target - px start)) as H3. unfold Rsqr in H3.
  pose proof (Rle_0_sqr (py target - py start)) as H5. unfold Rsqr in H5.
  assert ((py target - py start) * (py target - py start) = 0) as H4 by lra.
  apply Rmult_integral in H4. lra.
Qed.

(** One advance step, when start and target differ: the point moves by
    exactly [speed * factor], along the direction from start to target, which
    the step takes from the start point and not from where the point is; and
    if the target lies below the start, as for every Rocket, the point goes
    down. *)
Theorem advance_moves_by_speed start current target speed factor :
  travel start target <> 0 ->
  let p := advance start current target speed factor in
  (px p - px current) ^ 2 + (py p - py current) ^ 2 = (speed * factor) ^ 2
  /\ (px p - px current) * (py target - py start)
     = (py p - py current) * (px target - px start)
  /\ (py start < py target -> 0 < speed * factor -> py current < py p).
Proof.
  intros Hd. cbv zeta.
  pose proof (travel_nonneg start target) as H0.
  pose proof (travel_square start target) as H2.
  unfold advance. cbv zeta. cbn [px py]. unfold Rdiv.
  set (d := travel start target) in *.
  set (dx := px target - px start) in *.
  set (dy := py target - py start) in *.
  assert (0 < / d) as Hi by (apply Rinv_0_lt_compat; lra).
  assert (d * / d = 1) as E1 by (apply Rinv_r; exact Hd).
  assert (/ d * / d * (dx * dx + dy * dy) = 1) as E2.
  { rewrite <- H2. replace (/ d * / d * (d * d)) with ((d * / d) * (d * / d))
      by ring. rewrite E1. ring. }
  repeat split.
  - replace ((px current + dx * / d * speed * factor - px current) ^ 2
             + (py current + dy * / d * speed * factor - py current) ^ 2)
      with ((/ d * / d * (dx * dx + dy * dy)) * (speed * factor) ^ 2) by ring.
    rewrite E2. ring.
  - ring.
  - intros Hy Hv.
    assert (0 < dy) as Hdy by (unfold dy; lra).
    assert (0 < dy * / d) as Hp by (apply Rmult_lt_0_compat; lra).
    assert (0 < dy * / d * (speed * factor)) as Hq
      by (apply Rmult_lt_0_compat; lra).
    lra.
Qed.

Lemma advance_moves_by_speed_witness :
  let p := advance (mkPoint 150 0) (mkPoint 150 100) (mkPoint 150 580) 0.5 0.4 in
  travel (mkPoint 150 0) (mkPoint 150 580) <> 0
  /\ (px p - 150) ^ 2 + (py p - 100) ^ 2 = (0.5 * 0.4) ^ 2.
Proof.
  cbv zeta.
  assert (travel (mkPoint 150 0) (mkPoint 150 580) <> 0) as H.
  { pose proof (travel_pos (mkPoint 150 0) (mkPoint 150 580)) as Hp.
    simpl in Hp. assert (0 < travel (mkPoint 150 0) (mkPoint 150 580))
      by (apply Hp; lra). lra. }
  split; [exact H|].
  apply (advance_moves_by_speed (mkPoint 150 0) (mkPoint 150 100)
           (mkPoint 150 580) 0.5 0.4 H).
Defined.

(** ** Impacts *)

Lemma damageCities_clear impactX cs sc :
  (forall c, In c cs ->
             ct_active c && Rltb (Rabs (ct_x c - impactX)) 30 = false) ->
  damageCities impactX cs sc = (cs, sc).
Proof.
  revert sc. induction cs as [|c cs IH]; intros sc H; simpl; auto.
  rewrite (H c) by (left; reflexivity).
  rewrite IH by (intros c' Hc; apply H; right; exact Hc). reflexivity.
Qed.

Lemma damageBatteries_clear impactX bs sc :
  (forall b, In b bs ->
             bt_active b && Rltb (Rabs (bt_x b - impactX)) 30 = false) ->
  damageBatteries impactX bs sc = (bs, sc).
Proof.
  revert sc. induction bs as [|b bs IH]; intros sc H; simpl; auto.
  rewrite (H b) by (left; reflexivity).
  rewrite IH by (intros b' Hb; apply H; right; exact Hb). reflexivity.
Qed.

Lemma damageCities_one impactX cs sc :
  StronglySorted
    (fun c c' => Rltb (Rabs (ct_x c - impactX)) 30 = true ->
                 Rltb (Rabs (ct_x c' - impactX)) 30 = false) cs ->
  damageCities impactX cs sc = (cs, sc)
  \/ exists pre c post,
       cs = pre ++ c :: post /\ ct_active c = true
       /\ Rabs (ct_x c - impactX) < 30
       /\ damageCities impactX cs sc
          = (pre ++ mkCity (ct_x c) false :: post, cityPenalty sc).
Proof.
  intros H. revert sc. induction H as [|c cs Hs IH Hc]; intros sc; simpl; auto.
  destruct (ct_active c && Rltb (Rabs (ct_x c - impactX)) 30) eqn:E.
  - apply andb_prop in E. destruct E as [Ea Er].
    rewrite damageCities_clear.
    + right. exists [], c, cs. simpl. repeat split; auto.
      apply Rltb_spec, Er.
    + rewrite Forall_forall in Hc. intros c' Hin.
      rewrite (Hc c' Hin Er). apply andb_false_r.
  - destruct (IH sc) as [->|(pre & c' & post & -> & Ha & Hr & ->)]; auto.
    right. exists (c :: pre), c', post. simpl. auto.
Qed.

Lemma damageBatteries_one impactX bs sc :
  StronglySorted
    (fun b b' => Rltb (Rabs (bt_x b - impactX)) 30 = true ->
                 Rltb (Rabs (bt_x b' - impactX)) 30 = false) bs ->
  damageBatteries impactX bs sc = (bs, sc)
  \/ exists pre b post,
       bs = pre ++ b :: post /\ bt_active b = true
       /\ Rabs (bt_x b - impactX) < 30
       /\ damageBatteries impactX bs sc
          = (pre ++ knockOut b :: post, batteryPenalty sc).
Proof.
  intros H. revert sc. induction H as [|b bs Hs IH Hb]; intros sc; simpl; auto.
  destruct (bt_active b && Rltb (Rabs (bt_x b - impactX)) 30) eqn:E.
  - apply andb_prop in E. destruct E as [Ea Er].
    rewrite damageBatteries_clear.
    + right. exists [], b, bs. simpl. repeat split; auto.
      apply Rltb_spec, Er.
    + rewrite Forall_forall in Hb. intros b' Hin.
      rewrite (Hb b' Hin Er). apply andb_false_r.
  - destruct (IH sc) as [->|(pre & b' & post & -> & Ha & Hr & ->)]; auto.
    right. exists (b :: pre), b', post. simpl. auto.
Qed.

(** Two places 60 apart or more are never both within 30 of an impact. *)
Lemma apart_exclusive impactX u v :
  60 <= Rabs (u - v) ->
  Rltb (Rabs (u - impactX)) 30 = true ->
  Rltb (Rabs (v - impactX)) 30 = false.
Proof.
  intros Huv Hu. apply Rltb_spec in Hu. apply Rltb_false.
  unfold Rabs in *.
  destruct (Rcase_abs (u - v)), (Rcase_abs (u - impactX)),
    (Rcase_abs (v - impactX)); lra.
Qed.

(** With the cities and the batteries where the game puts them, one impact
    takes at most one city and at most one battery: either list comes back as
    it was, with the score, or with exactly one element, active and within 30
    of the impact, turned inactive, and the score lowered once (by 10 for a
    city, by 30 for a battery, not below 0). *)
Theorem impact_takes_at_most_one impactX cs bs sc :
  map ct_x cs = map ct_x initialCities ->
  map bt_x bs = map bt_x initialBatteries ->
  (damageCities impactX cs sc = (cs, sc)
   \/ exists pre c post,
        cs = pre ++ c :: post /\ ct_active c = true
        /\ Rabs (ct_x c - impactX) < 30
        /\ damageCities impactX cs sc
           = (pre ++ mkCity (ct_x c) false :: post, cityPenalty sc))
  /\ (damageBatteries impactX bs sc = (bs, sc)
      \/ exists pre b post,
           bs = pre ++ b :: post /\ bt_active b = true
           /\ Rabs (bt_x b - impactX) < 30
           /\ damageBatteries impactX bs sc
              = (pre ++ knockOut b :: post, batteryPenalty sc)).
Proof.
  intros Hc Hb. split.
  - apply damageCities_one.
    destruct cs as [|c1 [|c2 [|c3 [|c4 [|c5 [|c6 [|c7 cs]]]]]]];
      try discriminate.
    simpl in Hc. injection Hc as E1 E2 E3 E4 E5 E6.
    repeat (constructor; [|repeat constructor]);
      try (apply apart_exclusive;
           rewrite ?E1, ?E2, ?E3, ?E4, ?E5, ?E6;
           unfold Rabs; destruct (Rcase_abs _); lra).
    constructor.
  - apply damageBatteries_one.
    destruct bs as [|b1 [|b2 [|b3 [|b4 bs]]]]; try discriminate.
    simpl in Hb. injection Hb as E1 E2 E3.
    repeat (constructor; [|repeat constructor]);
      try (apply apart_exclusive;
           rewrite ?E1, ?E2, ?E3; unfold CANVAS_WIDTH, Rabs;
           destruct (Rcase_abs _); lra).
    constructor.
Qed.

Lemma impact_takes_at_most_one_witness :
  damageCities 150 initialCities 5
  = ([ mkCity 150 false; mkCity 250 true; mkCity 350 true; mkCity 450 true;
       mkCity 550 true; mkCity 650 true ], 0%Z)
  /\ (damageBatteries 150 initialBatteries 5 = (initialBatteries, 5%Z)
      \/ exists pre b post,
           initialBatteries = pre ++ b :: post /\ bt_active b = true
           /\ Rabs (bt_x b - 150) < 30
           /\ damageBatteries 150 initialBatteries 5
              = (pre ++ knockOut b :: post, batteryPenalty 5)).
Proof.
  split; [apply damageCities_150|].
  apply (impact_takes_at_most_one 150 initialCities initialBatteries 5
           eq_refl eq_refl).
Defined.

(** ** Every Blast of the game *)

Lemma impactBlast_sound rocket : soundBlast (impactBlast rocket).
Proof. unfold soundBlast, impactBlast. simpl. repeat split; try lra; auto. Qed.

Lemma detonation_sound missile : soundBlast (detonation missile).
Proof.
  unfold soundBlast, detonation, EXPLOSION_MAX_RADIUS. simpl.
  destruct (Nat.eqb (ms_batteryIndex missile) 0);
    [|destruct (Nat.eqb (ms_batteryIndex missile) 2)];
    repeat split; try lra; auto.
Qed.

Lemma pulse_sound exp :
  soundBlast exp -> snd (pulse exp) = false -> soundBlast (fst (pulse exp)).
Proof.
  unfold soundBlast, pulse, EXPLOSION_SPEED.
  intros ((Hp & Hu) & Hg & Hm).
  destruct (ex_growing exp) eqn:G; simpl.
  - intros _. specialize (Hg eq_refl). unfold Rgeb.
    destruct (Rleb (ex_maxRadius exp) (ex_radius exp + 1.5)) eqn:E.
    + repeat split; try lra; auto; discriminate.
    + assert (ex_radius exp + 1.5 < ex_maxRadius exp) as Hlt.
      { unfold Rleb in E. destruct (Rle_dec _ _); [discriminate | lra]. }
      repeat split; try lra; auto.
  - unfold Rleb. destruct (Rle_dec _ _); [discriminate|]. intros _.
    repeat split; try lra; auto; discriminate.
Qed.

Lemma explosionStep_sound now exp index s :
  nth_error (explosionsRef s) index = Some exp ->
  Forall soundBlast (explosionsRef s) ->
  Forall soundBlast (explosionsRef (explosionStep now exp index s)).
Proof.
  intros Hn H. rewrite explosionStep_pool.
  destruct (snd (pulse exp)) eqn:E.
  - apply Forall_splice1, H.
  - apply Forall_assign; auto. apply pulse_sound; auto.
    rewrite Forall_forall in H. apply H. eapply nth_error_In; eauto.
Qed.

Lemma mutate_sound time rnd s :
  Forall soundBlast (explosionsRef s) ->
  Forall soundBlast (explosionsRef (mutate time rnd s)).
Proof.
  intros H. unfold mutate. cbv zeta.
  unfold ammoCheck. cbn [explosionsRef setBatteries].
  apply (forEach_invariant explosionsRef _
           (fun s' => Forall soundBlast (explosionsRef s')));
    [intros; apply explosionStep_sound; auto|].
  rewrite forEach_explosions_same by apply powerUpExpire_explosions.
  apply (forEach_invariant missilesRef _
           (fun s' => Forall soundBlast (explosionsRef s'))).
  { intros m k s' _ Hs'.
    destruct (missileStep_explosions m k s') as [->|[moved ->]]; auto.
    apply Forall_app. split; auto.
    constructor; [apply detonation_sound | constructor]. }
  apply (forEach_invariant rocketsRef _
           (fun s' => Forall soundBlast (explosionsRef s'))).
  { intros r k s' _ Hs'.
    destruct (rocketStep_explosions (isSugarActive s) r k s')
      as [->|[moved ->]]; auto.
    apply Forall_app. split; auto.
    constructor; [apply impactBlast_sound | constructor]. }
  rewrite spawnPhase_explosions. exact H.
Qed.

Lemma runTimeouts_explosions t s :
  explosionsRef (runTimeouts t s) = explosionsRef s.
Proof.
  unfold runTimeouts.
  set (s0 := setTimeouts _ s).
  change (explosionsRef s) with (explosionsRef s0). generalize s0. clear s0.
  induction (filter (fun d => (d <=? t)%Z) (timeouts s)) as [|d l IH];
    intros s0; simpl; auto.
  rewrite IH. reflexivity.
Qed.

Lemma handleFire_explosions x y ids s :
  explosionsRef (handleFire x y ids s) = explosionsRef s.
Proof.
  unfold handleFire. destruct (status s); auto. destruct (Rgtb _ _); auto.
  destruct (bestBattery _ _); auto. destruct (nth_error _ _); auto.
  destruct (launch _ _ _ _ _ _) as [[? ?]|]; reflexivity.
Qed.

(** However the component is driven, every Blast in the pool has a maximum
    radius of 20, 35, 70 or 150 and a radius that is positive and less than
    1.5 above that maximum; while it grows its radius is below the maximum.
    No Blast is ever wider than 151.5. *)
Theorem blasts_stay_sound es :
  Forall (fun e => soundBlast e /\ 0 < ex_radius e < 151.5)
    (explosionsRef (run es mounted)).
Proof.
  assert (forall s, Forall soundBlast (explosionsRef s) ->
                    Forall soundBlast (explosionsRef (run es s))) as H.
  { induction es as [|ev es IH]; intros s Hs; simpl; auto.
    apply IH. destruct ev; simpl.
    - constructor.
    - rewrite handleFire_explosions. exact Hs.
    - unfold update. destruct (status s); auto.
      rewrite loseCheck_explosions. apply mutate_sound, Hs.
    - rewrite runTimeouts_explosions. exact Hs. }
  specialize (H mounted (Forall_nil _)).
  rewrite Forall_forall in *. intros e Hin. specialize (H e Hin).
  split; [exact H|].
  destruct H as ((Hp & Hu) & _ & [Hm|[Hm|[Hm|Hm]]]); rewrite Hm in Hu; lra.
Qed.

Lemma pulses_fading n exp :
  ex_growing exp = false -> ex_radius exp <= 0.75 * INR n ->
  exists k, (k <= S n)%nat /\ pulses k exp = None.
Proof.
  revert exp. induction n as [|n IH]; intros exp Hg Hr.
  - exists 1%nat. split; [lia|]. simpl. unfold pulse. rewrite Hg.
    unfold EXPLOSION_SPEED. simpl in Hr. rewrite Rleb_true by lra. reflexivity.
  - destruct (snd (pulse exp)) eqn:E.
    + exists 1%nat. split; [lia|]. simpl.
      destruct (pulse exp) as [exp' gone]. simpl in E. rewrite E. reflexivity.
    + destruct (IH (fst (pulse exp))) as (k & Hk & Hp).
      * unfold pulse. rewrite Hg. reflexivity.
      * unfold pulse, EXPLOSION_SPEED. rewrite Hg. simpl.
        rewrite S_INR in Hr. lra.
      * exists (S k). split; [lia|]. simpl.
        destruct (pulse exp) as [exp' gone]. simpl in *. rewrite E. exact Hp.
Qed.

Lemma pulses_growing n exp :
  ex_growing exp = true ->
  ex_maxRadius exp - ex_radius exp <= 1.5 * INR n ->
  exists k, pulses k exp = None.
Proof.
  revert exp. induction n as [|n IH]; intros exp Hg Hr.
  - destruct (INR_archimed 0.75 (ex_radius exp + 1.5)) as [m Hm]; [lra|].
    destruct (pulses_fading m (fst (pulse exp))) as (k & _ & Hp).
    + unfold pulse, EXPLOSION_SPEED, Rgeb. rewrite Hg. simpl.
      simpl in Hr. rewrite Rleb_true by lra. reflexivity.
    + unfold pulse, EXPLOSION_SPEED. rewrite Hg. simpl. lra.
    + exists (S k). simpl. unfold pulse in *. rewrite Hg in *. simpl in *.
      exact Hp.
  - destruct (ex_growing (fst (pulse exp))) eqn:G.
    + destruct (IH (fst (pulse exp)) G) as (k & Hp).
      * unfold pulse, EXPLOSION_SPEED. rewrite Hg. simpl.
        rewrite S_INR in Hr. lra.
      * exists (S k). simpl. unfold pulse in *. rewrite Hg in *. simpl in *.
        exact Hp.
    + destruct (INR_archimed 0.75 (ex_radius exp + 1.5)) as [m Hm]; [lra|].
      destruct (pulses_fading m (fst (pulse exp)) G) as (k & _ & Hp).
      * unfold pulse, EXPLOSION_SPEED. rewrite Hg. simpl. lra.
      * exists (S k). simpl. unfold pulse in *. rewrite Hg in *. simpl in *.
        exact Hp.
Qed.

(** Every Blast comes to an end: whatever its radius, its maximum and its
    phase, a number of visits exists after which it has left the pool.  A
    fading Blast of radius at most 0.75 n is gone within n + 1 visits. *)
Theorem every_blast_expires exp :
  (exists k, pulses k exp = None)
  /\ (forall n, ex_growing exp = false -> ex_radius exp <= 0.75 * INR n ->
       exists k, (k <= S n)%nat /\ pulses k exp = None).
Proof.
  split; [|intros n; apply pulses_fading].
  destruct (ex_growing exp) eqn:G.
  - destruct (INR_archimed 1.5 (ex_maxRadius exp - ex_radius exp))
      as [n Hn]; [lra|].
    apply (pulses_growing n exp G). lra.
  - destruct (INR_archimed 0.75 (ex_radius exp)) as [n Hn]; [lra|].
    destruct (pulses_fading n exp G) as (k & _ & Hp); [lra|]. eauto.
Qed.

(** ** Timers *)

Lemma fold_off l s :
  fold_left (fun acc (_ : Z) => setIsSugarActive false acc) l s
  = match l with [] => s | _ :: _ => setIsSugarActive false s end.
Proof.
  revert s. induction l as [|d l IH]; intros s; simpl; auto.
  rewrite IH. destruct l; reflexivity.
Qed.

Lemma runTimeouts_closed t s :
  runTimeouts t s
  = setTimeouts (filter (fun d => negb (d <=? t)%Z) (timeouts s))
      (setIsSugarActive
         (if existsb (fun d => (d <=? t)%Z) (timeouts s) then false
          else isSugarActive s) s).
Proof.
  unfold runTimeouts. rewrite fold_off.
  assert (match filter (fun d => (d <=? t)%Z) (timeouts s) with
          | [] => false | _ :: _ => true end
          = existsb (fun d => (d <=? t)%Z) (timeouts s)) as E.
  { induction (timeouts s) as [|d l IH]; simpl; auto.
    destruct (d <=? t)%Z; simpl; auto. }
  destruct (filter (fun d => (d <=? t)%Z) (timeouts s));
    rewrite <- E; destruct s; reflexivity.
Qed.

Lemma filter_later_twice t1 t2 l :
  (t1 <= t2)%Z ->
  filter (fun d => negb (d <=? t2)%Z) (filter (fun d => negb (d <=? t1)%Z) l)
  = filter (fun d => negb (d <=? t2)%Z) l.
Proof.
  intros H. induction l as [|d l IH]; simpl; auto.
  destruct (Z.leb_spec d t1); simpl.
  - destruct (Z.leb_spec d t2); simpl; [exact IH | lia].
  - rewrite IH. reflexivity.
Qed.

Lemma existsb_due_twice t1 t2 l :
  (t1 <= t2)%Z ->
  existsb (fun d => (d <=? t2)%Z) (filter (fun d => negb (d <=? t1)%Z) l)
  || existsb (fun d => (d <=? t1)%Z) l
  = existsb (fun d => (d <=? t2)%Z) l.
Proof.
  intros H. induction l as [|d l IH]; simpl; auto.
  destruct (Z.leb_spec d t1); simpl.
  - destruct (Z.leb_spec d t2); simpl; [apply orb_true_r | lia].
  - destruct (Z.leb_spec d t2); simpl; [reflexivity | exact IH].
Qed.

(** Running the timers: those due are gone, so none is left that is due;
    running them at [t1] and again at a later [t2] is running them at [t2];
    and a timer never turns slow motion on, nor touches anything but the
    slow-motion flag and the list of timers. *)
Theorem timers_run_once t1 t2 s :
  (t1 <= t2)%Z ->
  runTimeouts t2 (runTimeouts t1 s) = runTimeouts t2 s
  /\ Forall (fun d => (t2 < d)%Z) (timeouts (runTimeouts t2 s))
  /\ (isSugarActive (runTimeouts t2 s) = true -> isSugarActive s = true)
  /\ setTimeouts (timeouts s) (setIsSugarActive (isSugarActive s)
                                 (runTimeouts t2 s)) = s.
Proof.
  intros H. repeat split.
  - rewrite !runTimeouts_closed.
    unfold setTimeouts, setIsSugarActive. fields.
    rewrite filter_later_twice by exact H.
    rewrite <- (existsb_due_twice t1 t2 (timeouts s) H).
    destruct (existsb (fun d => (d <=? t2)%Z)
                (filter (fun d => negb (d <=? t1)%Z) (timeouts s)));
      destruct (existsb (fun d => (d <=? t1)%Z) (timeouts s)); reflexivity.
  - rewrite runTimeouts_closed. unfold setTimeouts. fields.
    apply Forall_forall. intros d Hd. apply filter_In in Hd.
    destruct Hd as [_ Hd]. destruct (Z.leb_spec d t2); [discriminate | lia].
  - rewrite runTimeouts_closed. unfold setTimeouts, setIsSugarActive. fields.
    destruct (existsb _ _); [discriminate | auto].
  - rewrite runTimeouts_closed. destruct s; reflexivity.
Qed.

Lemma timers_run_once_witness :
  let s := consumeSugar 0 (arena [] [] []) in
  (3000 <= 6000)%Z
  /\ runTimeouts 6000 (runTimeouts 3000 s) = runTimeouts 6000 s
  /\ isSugarActive (runTimeouts 6000 s) = false.
Proof.
  cbv zeta. assert (3000 <= 6000)%Z as H by lia.
  split; [exact H|]. split; [|reflexivity].
  apply (timers_run_once 3000 6000 (consumeSugar 0 (arena [] [] [])) H).
Defined.

(** ** More on the loops that remove while they iterate *)

(** Induction two elements at a time, as [sweep] recurses. *)
Lemma list_pairs_ind {A} (P : list A -> Prop) :
  P [] -> (forall a, P [a]) ->
  (forall a b l, P l -> P (b :: l) -> P (a :: b :: l)) ->
  forall l, P l.
Proof.
  intros H0 H1 H2 l.
  assert (P l /\ forall a, P (a :: l)) as [H _]; [|exact H].
  induction l as [|b l [IH1 IH2]]; split; auto.
Qed.

Lemma sweep_keeps {A} (hit : A -> bool) l a :
  In a l -> hit a = false -> In a (sweep hit l).
Proof.
  intros Ha Hh. revert Ha.
  induction l as [|b|b c l IH1 IH2] using list_pairs_ind; cbn [sweep].
  - contradiction.
  - intros [->|[]]. rewrite Hh. left. reflexivity.
  - destruct (hit b) eqn:E.
    + intros [->|[->|Ha]]; [congruence | left; reflexivity | right; auto].
    + intros [->|Ha]; [left; reflexivity | right; auto].
Qed.

Lemma sweep_subset {A} (hit : A -> bool) l a : In a (sweep hit l) -> In a l.
Proof.
  induction l as [|b|b c l IH1 IH2] using list_pairs_ind; cbn [sweep].
  - contradiction.
  - destruct (hit b); [contradiction | auto].
  - destruct (hit b) eqn:E.
    + intros [->|Ha]; [right; left; reflexivity | right; right; auto].
    + intros [->|Ha]; [left; reflexivity | right; auto].
Qed.

Lemma sweep_length {A} (hit : A -> bool) l :
  (List.length (sweep hit l) + struck hit l = List.length l)%nat.
Proof.
  induction l as [|b|b c l IH1 IH2] using list_pairs_ind; cbn [sweep struck].
  - reflexivity.
  - destruct (hit b); reflexivity.
  - destruct (hit b).
    + simpl List.length. lia.
    + simpl List.length in *. cbn [sweep struck] in IH2. lia.
Qed.

Section SweepLoop.
Context {A : Type}.
Variable arr : State -> list A.
Variable cb : A -> nat -> State -> State.
Variable hit : A -> bool.
Hypothesis cb_removes :
  forall a k s, arr (cb a k s) = if hit a then splice1 k (arr s) else arr s.

Lemma sweep_loop_from n pre rest s :
  arr s = pre ++ rest ->
  (List.length rest <= n)%nat ->
  arr (forEachFrom arr cb n (List.length pre) s) = pre ++ sweep hit rest.
Proof.
  revert pre rest s. induction n as [|n IH]; intros pre rest s Hs Hn.
  - destruct rest; [|simpl in Hn; lia]. simpl. exact Hs.
  - destruct rest as [|a rest].
    + rewrite forEachFrom_past by (rewrite Hs, app_nil_r; lia). exact Hs.
    + simpl forEachFrom. rewrite Hs, nth_error_middle.
      cbn [sweep].
      pose proof (cb_removes a (List.length pre) s) as Hp.
      rewrite Hs in Hp.
      destruct (hit a) eqn:E.
      * rewrite splice1_middle in Hp.
        destruct rest as [|b rest].
        -- rewrite forEachFrom_past by (rewrite Hp, app_nil_r; lia).
           exact Hp.
        -- replace (S (List.length pre)) with (List.length (pre ++ [b]))
             by (rewrite length_app; simpl; lia).
           rewrite (IH (pre ++ [b]) rest)
             by (try rewrite <- app_assoc; simpl in *; auto; lia).
           rewrite <- app_assoc. reflexivity.
      * replace (S (List.length pre)) with (List.length (pre ++ [a]))
          by (rewrite length_app; simpl; lia).
        rewrite (IH (pre ++ [a]) rest)
          by (try rewrite <- app_assoc; simpl in *; auto; lia).
        rewrite <- app_assoc. reflexivity.
Qed.

Lemma sweep_loop s : arr (forEach arr cb s) = sweep hit (arr s).
Proof.
  unfold forEach.
  apply (sweep_loop_from (List.length (arr s)) [] (arr s) s); auto.
Qed.
End SweepLoop.

(** The expiry loop of a frame.  No pickup is removed before its 5000 ms are
    over (at exactly 5000 ms it is still there), none is added, the first
    expired pickup of the pool is removed; what is left is the sweep of the
    pool, so an expired pickup that follows a removed one stays one more
    frame. *)
Theorem expiry_spares_live_pickups now s :
  let expired := fun pu => (now - pu_createdAt pu >? pu_duration pu)%Z in
  let s' := forEach powerUpsRef (powerUpExpire now) s in
  powerUpsRef s' = sweep expired (powerUpsRef s)
  /\ (forall pu, In pu (powerUpsRef s) ->
                 (now - pu_createdAt pu <= pu_duration pu)%Z ->
                 In pu (powerUpsRef s'))
  /\ (forall pu, In pu (powerUpsRef s') -> In pu (powerUpsRef s))
  /\ (forall pu rest, powerUpsRef s = pu :: rest -> expired pu = true ->
                      powerUpsRef s' = match rest with
                                       | [] => []
                                       | q :: rest' => q :: sweep expired rest'
                                       end).
Proof.
  cbv zeta.
  assert (powerUpsRef (forEach powerUpsRef (powerUpExpire now) s)
          = sweep (fun pu => (now - pu_createdAt pu >? pu_duration pu)%Z)
              (powerUpsRef s)) as E.
  { apply sweep_loop. intros pu k s0. unfold powerUpExpire.
    destruct (_ >? _)%Z; reflexivity. }
  rewrite E. repeat split.
  - intros pu Hin Hd. apply sweep_keeps; auto.
    destruct (Z.gtb_spec (now - pu_createdAt pu) (pu_duration pu));
      [lia | reflexivity].
  - intros pu. apply sweep_subset.
  - intros pu rest -> Hx. cbn [sweep]. rewrite Hx. reflexivity.
Qed.

Lemma collide_loops_conserve now exp s :
  let s' :=
    forEach powerUpsRef (powerUpCollide now exp)
      (forEach rocketsRef (rocketCollide exp) s) in
  (score s' + 20 * Z.of_nat (List.length (rocketsRef s'))
   = score s + 20 * Z.of_nat (List.length (rocketsRef s)))%Z
  /\ (forall r, In r (rocketsRef s') -> In r (rocketsRef s))
  /\ (forall r, In r (rocketsRef s) -> caught exp r = false ->
                In r (rocketsRef s')).
Proof.
  cbv zeta.
  assert (forall s0,
            score (forEach powerUpsRef (powerUpCollide now exp) s0) = score s0
            /\ rocketsRef (forEach powerUpsRef (powerUpCollide now exp) s0)
               = rocketsRef s0) as Hpu.
  { intros s0.
    apply (forEach_invariant powerUpsRef (powerUpCollide now exp)
             (fun t => score t = score s0 /\ rocketsRef t = rocketsRef s0));
      auto.
    intros pu k t _ [H1 H2]. unfold powerUpCollide.
    destruct (within _ _ _); auto. destruct (pu_type pu); auto. }
  destruct (Hpu (forEach rocketsRef (rocketCollide exp) s)) as [-> ->].
  rewrite rocket_loop_sweep. unfold setScore, setRockets. fields.
  pose proof (sweep_length (caught exp) (rocketsRef s)) as Hl.
  repeat split.
  - lia.
  - intros r. apply sweep_subset.
  - intros r. apply sweep_keeps.
Qed.

(** The collision pass pays 20 for each Rocket it removes and never adds a
    Rocket: the score plus 20 times the size of the Rocket pool is the same
    before and after.  The pass leaves the status, the cities and the
    Interceptors as they are. *)
Theorem collision_pass_pays_per_rocket now s :
  let s' := collisionPass now s in
  (score s' + 20 * Z.of_nat (List.length (rocketsRef s'))
   = score s + 20 * Z.of_nat (List.length (rocketsRef s)))%Z
  /\ (score s <= score s')%Z
  /\ (forall r, In r (rocketsRef s') -> In r (rocketsRef s))
  /\ status s' = status s /\ citiesRef s' = citiesRef s
  /\ missilesRef s' = missilesRef s.
Proof.
  cbv zeta. unfold collisionPass.
  assert (let s' := forEach explosionsRef (explosionStep now) s in
          (score s' + 20 * Z.of_nat (List.length (rocketsRef s'))
           = score s + 20 * Z.of_nat (List.length (rocketsRef s)))%Z
          /\ (forall r, In r (rocketsRef s') -> In r (rocketsRef s))
          /\ (List.length (rocketsRef s') <= List.length (rocketsRef s))%nat
          /\ status s' = status s /\ citiesRef s' = citiesRef s
          /\ missilesRef s' = missilesRef s) as H.
  { cbv zeta.
    apply (forEach_invariant explosionsRef (explosionStep now)
             (fun t =>
                (score t + 20 * Z.of_nat (List.length (rocketsRef t))
                 = score s + 20 * Z.of_nat (List.length (rocketsRef s)))%Z
                /\ (forall r, In r (rocketsRef t) -> In r (rocketsRef s))
                /\ (List.length (rocketsRef t) <= List.length (rocketsRef s))%nat
                /\ status t = status s /\ citiesRef t = citiesRef s
                /\ missilesRef t = missilesRef s)).
    2:{ repeat split; auto. }
    intros e k t _ (H1 & H2 & H3 & H4 & H5 & H6).
    unfold explosionStep. destruct (pulse e) as [e' gone].
    set (t1 := if gone then setExplosions (splice1 k (explosionsRef t)) t
               else setExplosions (assign k e' (explosionsRef t)) t).
    assert (score t1 = score t /\ rocketsRef t1 = rocketsRef t
            /\ status t1 = status t /\ citiesRef t1 = citiesRef t
            /\ missilesRef t1 = missilesRef t) as (A1 & A2 & A3 & A4 & A5)
      by (subst t1; destruct gone; repeat split).
    destruct (collide_loops_conserve now e' t1) as (B1 & B2 & _).
    cbv zeta in B1, B2.
    set (t2 := forEach powerUpsRef (powerUpCollide now e')
                 (forEach rocketsRef (rocketCollide e') t1)) in *.
    destruct (explosionStep_keeps now e k t) as (K1 & _ & _).
    unfold explosionStep in K1. destruct (pulse e) as [e'' gone''] eqn:Ep.
    assert (status t2 = status t1 /\ citiesRef t2 = citiesRef t1
            /\ missilesRef t2 = missilesRef t1) as (C1 & C2 & C3).
    { subst t2.
      assert (forall u,
                status (forEach rocketsRef (rocketCollide e') u) = status u
                /\ citiesRef (forEach rocketsRef (rocketCollide e') u)
                   = citiesRef u
                /\ missilesRef (forEach rocketsRef (rocketCollide e') u)
                   = missilesRef u) as Hr.
      { intros u.
        apply (forEach_invariant rocketsRef (rocketCollide e')
                 (fun v => status v = status u /\ citiesRef v = citiesRef u
                           /\ missilesRef v = missilesRef u)); auto.
        intros r j v _ (X1 & X2 & X3). unfold rocketCollide.
        destruct (within _ _ _); auto. }
      assert (forall u,
                status (forEach powerUpsRef (powerUpCollide now e') u)
                = status u
                /\ citiesRef (forEach powerUpsRef (powerUpCollide now e') u)
                   = citiesRef u
                /\ missilesRef (forEach powerUpsRef (powerUpCollide now e') u)
                   = missilesRef u) as Hq.
      { intros u.
        apply (forEach_invariant powerUpsRef (powerUpCollide now e')
                 (fun v => status v = status u /\ citiesRef v = citiesRef u
                           /\ missilesRef v = missilesRef u)); auto.
        intros pu j v _ (X1 & X2 & X3). unfold powerUpCollide.
        destruct (within _ _ _); auto. destruct (pu_type pu); auto. }
      destruct (Hq (forEach rocketsRef (rocketCollide e') t1)) as (Q1 & Q2 & Q3).
      destruct (Hr t1) as (R1 & R2 & R3).
      repeat split; congruence. }
    assert (List.length (rocketsRef t2) <= List.length (rocketsRef t1))%nat
      as Hlen.
    { subst t2.
      assert (rocketsRef (forEach powerUpsRef (powerUpCollide now e')
                            (forEach rocketsRef (rocketCollide e') t1))
              = rocketsRef (forEach rocketsRef (rocketCollide e') t1)) as Eq.
      { apply (forEach_invariant powerUpsRef (powerUpCollide now e')
                 (fun v => rocketsRef v
                           = rocketsRef (forEach rocketsRef
                                           (rocketCollide e') t1))); auto.
        intros pu j v _ X. unfold powerUpCollide.
        destruct (within _ _ _); auto. destruct (pu_type pu); auto. }
      rewrite Eq, rocket_loop_sweep. unfold setScore, setRockets. fields.
      pose proof (sweep_length (caught e') (rocketsRef t1)). lia. }
    rewrite A2 in *. rewrite A1 in *.
    repeat split; try congruence; try lia.
    intros r Hr. apply H2, B2, Hr. }
  cbv zeta in H. destruct H as (H1 & H2 & H3 & H4 & H5 & H6).
  repeat split; auto. lia.
Qed.

(** ** The voice commander *)

Lemma truncate_near r :
  Rabs (IZR (truncate r) - r) < 1 /\ Rabs (IZR (truncate r)) <= Rabs r.
Proof.
  unfold truncate. destruct (Rle_dec 0 r) as [H|H].
  - destruct (base_Int_part r) as [Hle Hgt].
    assert (0 <= Int_part r)%Z as Hz.
    { assert (IZR (-1) < IZR (Int_part r)) as Hm by lra.
      apply lt_IZR in Hm. lia. }
    apply (IZR_le 0) in Hz.
    split; unfold Rabs; repeat destruct (Rcase_abs _); lra.
  - destruct (base_Int_part (- r)) as [Hle Hgt].
    assert (0 <= Int_part (- r))%Z as Hz.
    { assert (IZR (-1) < IZR (Int_part (- r))) as Hm by lra.
      apply lt_IZR in Hm. lia. }
    apply (IZR_le 0) in Hz. rewrite opp_IZR.
    split; unfold Rabs; repeat destruct (Rcase_abs _); lra.
Qed.

(** One microphone sample through the PCM conversion: whatever the sample,
    the 16-bit value lies between -32767 and 32767, so the wrap of the array
    never applies and -32768 is never produced; samples at or beyond the
    limits 1 and -1 saturate; and decoding the value gives back the clamped
    sample to within 1/32767. *)
Theorem pcm_sample_is_clamped x :
  (-32767 <= encodeSample x <= 32767)%Z
  /\ encodeSample x = truncate (Rmax (-1) (Rmin 1 x) * 32767)
  /\ (1 <= x -> encodeSample x = 32767%Z)
  /\ (x <= -1 -> encodeSample x = (-32767)%Z)
  /\ Rabs (decodeSample (encodeSample x) - Rmax (-1) (Rmin 1 x)) < 1 / 32767.
Proof.
  set (c := Rmax (-1) (Rmin 1 x)).
  assert (-1 <= c <= 1) as Hc.
  { unfold c, Rmax, Rmin.
    destruct (Rle_dec 1 x); destruct (Rle_dec _ _); lra. }
  destruct (truncate_near (c * 32767)) as [Hn Hb].
  assert (-32767 <= truncate (c * 32767) <= 32767)%Z as Hr.
  { assert (Rabs (IZR (truncate (c * 32767))) <= 32767) as Ha.
    { eapply Rle_trans; [exact Hb|].
      unfold Rabs. destruct (Rcase_abs _); lra. }
    split; apply le_IZR; unfold Rabs in Ha; destruct (Rcase_abs _); lra. }
  assert (encodeSample x = truncate (c * 32767)) as E.
  { unfold encodeSample, toInt16. fold c.
    rewrite Z.mod_small by lia. lia. }
  split; [rewrite E; exact Hr|]. split; [exact E|]. repeat split.
  - intros Hx. rewrite E.
    assert (c = 1) as ->
      by (unfold c, Rmax, Rmin; destruct (Rle_dec 1 x);
          destruct (Rle_dec _ _); lra).
    destruct (truncate_near (1 * 32767)) as [Hn1 _].
    apply eq_IZR. unfold Rabs in Hn1.
    assert (IZR (truncate (1 * 32767)) = 32767) as Hq.
    { set (z := truncate (1 * 32767)) in *.
      assert (32766 < IZR z < 32768) as [Hlo Hhi]
        by (destruct (Rcase_abs _); lra).
      apply (lt_IZR 32766) in Hlo. apply (lt_IZR _ 32768) in Hhi.
      f_equal. lia. }
    exact Hq.
  - intros Hx. rewrite E.
    assert (c = -1) as ->
      by (unfold c, Rmax, Rmin; destruct (Rle_dec 1 x);
          destruct (Rle_dec _ _); lra).
    destruct (truncate_near (-1 * 32767)) as [Hn1 _].
    apply eq_IZR. unfold Rabs in Hn1.
    set (z := truncate (-1 * 32767)) in *.
    assert (-32768 < IZR z < -32766) as [Hlo Hhi]
      by (destruct (Rcase_abs _); lra).
    apply (lt_IZR (-32768)) in Hlo. apply (lt_IZR _ (-32766)) in Hhi.
    f_equal. lia.
  - rewrite E. unfold decodeSample.
    apply Rabs_def2 in Hn. destruct Hn as [Hlo Hhi].
    apply Rabs_def1; lra.
Qed.

Lemma playNextInQueue_spec playable queue log :
  let v := playNextInQueue playable queue log in
  (isPlayingRef v = false -> audioQueueRef v = [])
  /\ started v ++ filter playable (audioQueueRef v)
     = log ++ filter playable queue.
Proof.
  cbv zeta. induction queue as [|d queue IH]; simpl.
  - split; auto.
  - destruct (playable d); simpl.
    + split; [discriminate|]. rewrite <- app_assoc. reflexivity.
    + exact IH.
Qed.

(** The playback queue of the voice commander, from silence on and whatever
    arrives: when nothing is playing the queue is empty, so no chunk waits
    while the player is idle; and as long as the commander is neither
    interrupted nor switched off, the chunks handed to the audio sources,
    followed by the playable chunks still queued, are the playable chunks
    received, in the order they came: none is lost, repeated or overtaken,
    and a chunk that cannot be played is dropped alone. *)
Theorem playback_is_first_in_first_out playable es :
  let v := voiceRun playable es (mkVoice [] false []) in
  (isPlayingRef v = false -> audioQueueRef v = [])
  /\ (forallb undisturbed es = true ->
      started v ++ filter playable (audioQueueRef v)
      = filter playable (arrivals es)).
Proof.
  cbv zeta. split.
  - assert (forall v0,
              (isPlayingRef v0 = false -> audioQueueRef v0 = []) ->
              isPlayingRef (voiceRun playable es v0) = false ->
              audioQueueRef (voiceRun playable es v0) = []) as H.
    { induction es as [|e es IH]; intros v0 H0; simpl; auto.
      apply IH. destruct e; simpl; auto.
      - destruct (isPlayingRef v0); simpl; [discriminate|].
        apply (playNextInQueue_spec playable).
      - apply (playNextInQueue_spec playable). }
    apply H. auto.
  - assert (forall v0,
              forallb undisturbed es = true ->
              started (voiceRun playable es v0)
              ++ filter playable (audioQueueRef (voiceRun playable es v0))
              = (started v0 ++ filter playable (audioQueueRef v0))
                ++ filter playable (arrivals es)) as H.
    { induction es as [|e es IH]; intros v0 Hu; simpl.
      - rewrite app_nil_r. reflexivity.
      - simpl in Hu. apply andb_prop in Hu. destruct Hu as [He Hu].
        rewrite (IH _ Hu). destruct e; try discriminate; simpl.
        + destruct (isPlayingRef v0); simpl.
          * rewrite filter_app. simpl.
            destruct (playable data); simpl;
              rewrite <- ?app_assoc; simpl; rewrite ?app_nil_r; reflexivity.
          * destruct (playNextInQueue_spec playable
                        (audioQueueRef v0 ++ [data]) (started v0)) as [_ ->].
            rewrite filter_app. simpl.
            destruct (playable data); simpl;
              rewrite <- ?app_assoc; simpl; rewrite ?app_nil_r; reflexivity.
        + destruct (playNextInQueue_spec playable
                      (audioQueueRef v0) (started v0)) as [_ ->].
          reflexivity. }
    intros Hu. rewrite (H _ Hu). reflexivity.
Qed.

(** ** Tracking *)

Lemma trackers_follow battery ids k targets m :
  In m (trackers battery ids k targets) ->
  exists r, In r targets
            /\ ms_targetRocketId m = Some (rk_id r)
            /\ ms_target m = mkPoint (px (rk_current r)) (py (rk_current r))
            /\ ms_speed m = MISSILE_SPEED * 1.5.
Proof.
  revert k. induction targets as [|t ts IH]; intros k; simpl; [tauto|].
  intros [<-|H].
  - exists t. simpl. auto.
  - destruct (IH _ H) as (r & Hr & Hrest). exists r. auto.
Qed.

(** A fire command that goes to the center battery pays one missile per
    Interceptor it launches: as many Interceptors as Rockets locked on, two
    at most, and one when the pool is empty.  With Rockets in the pool every
    Interceptor launched tracks a Rocket of the pool: it carries its
    identifier, aims at the point where the Rocket is, and flies at 1.5
    [MISSILE_SPEED]. *)
Theorem center_fire_pays_per_interceptor x y ids s battery :
  status s = PLAYING ->
  Rgtb y (CANVAS_HEIGHT - 80) = false ->
  bestBattery x (batteriesRef s) = Some 1%nat ->
  nth_error (batteriesRef s) 1 = Some battery ->
  let s' := handleFire x y ids s in
  exists shots,
    missilesRef s' = missilesRef s ++ shots
    /\ List.length shots
       = Nat.max 1 (Nat.min 2 (List.length (rocketsRef s)))
    /\ batteriesRef s'
       = assign 1 (spend (Z.of_nat (List.length shots)) battery)
           (batteriesRef s)
    /\ (rocketsRef s <> [] ->
        forall m, In m shots ->
          exists r, In r (rocketsRef s)
                    /\ ms_targetRocketId m = Some (rk_id r)
                    /\ ms_target m
                       = mkPoint (px (rk_current r)) (py (rk_current r))
                    /\ ms_speed m = MISSILE_SPEED * 1.5).
Proof.
  intros Hs Hy Hb Hn. cbv zeta.
  assert (List.length (lockOn x y (rocketsRef s))
          = Nat.min 2 (List.length (rocketsRef s))) as Hlen
    by (unfold lockOn; rewrite length_firstn, sortBy_length; reflexivity).
  destruct (lockOn x y (rocketsRef s)) as [|r rs] eqn:E.
  - exists [mkMissile (ids 0%nat) (mkPoint (bt_x battery) (bt_y battery))
              (mkPoint (bt_x battery) (bt_y battery)) (mkPoint x y)
              MISSILE_SPEED 1 None].
    rewrite (handleFire_accepted x y ids s 1 battery 1 _ Hs Hy Hb Hn)
      by (unfold launch; rewrite E; reflexivity).
    unfold setMissiles, setBatteries. cbn [missilesRef batteriesRef].
    simpl List.length in *.
    assert (rocketsRef s = []) as Hr.
    { destruct (rocketsRef s) as [|r0 [|r1 l]]; auto; simpl in Hlen; lia. }
    rewrite Hr. repeat split. intros Hc. contradiction.
  - exists (trackers battery ids 0 (r :: rs)).
    rewrite (handleFire_accepted x y ids s 1 battery
               (Z.max 1 (Z.of_nat (List.length (r :: rs)))) _ Hs Hy Hb Hn)
      by (unfold launch; rewrite E; reflexivity).
    unfold setMissiles, setBatteries. cbn [missilesRef batteriesRef].
    rewrite trackers_length.
    assert (Z.max 1 (Z.of_nat (List.length (r :: rs)))
            = Z.of_nat (List.length (r :: rs))) as ->
      by (simpl List.length; lia).
    repeat split.
    + rewrite Hlen. simpl List.length in Hlen. lia.
    + intros _ m Hm.
      destruct (trackers_follow _ _ _ _ _ Hm) as (r' & Hr' & Hrest).
      exists r'. split; auto. apply (lockOn_In x y). rewrite E. exact Hr'.
Qed.

Lemma center_fire_pays_per_interceptor_witness :
  let battery := mkBattery (CANVAS_WIDTH / 2) (CANVAS_HEIGHT - 40) 100 100 true in
  let s :=
    mkState PLAYING 0 false [falling "r1" 150 50] [] [] []
      [ mkBattery 100 (CANVAS_HEIGHT - 40) 50 50 false; battery;
        mkBattery (CANVAS_WIDTH - 100) (CANVAS_HEIGHT - 40) 50 50 false ]
      initialCities 0 [] in
  exists shots,
    missilesRef (handleFire 300 200 (fun _ => "m"%string) s) = shots
    /\ List.length shots = 1%nat
    /\ nth_error (batteriesRef (handleFire 300 200 (fun _ => "m"%string) s)) 1
       = Some (mkBattery (CANVAS_WIDTH / 2) (CANVAS_HEIGHT - 40) 99 100 true).
Proof.
  cbv zeta.
  assert (Rgtb 200 (CANVAS_HEIGHT - 80) = false) as Hy by (Reval; reflexivity).
  destruct (center_fire_pays_per_interceptor 300 200 (fun _ => "m"%string)
              (mkState PLAYING 0 false [falling "r1" 150 50] [] [] []
                 [ mkBattery 100 (CANVAS_HEIGHT - 40) 50 50 false;
                   mkBattery (CANVAS_WIDTH / 2) (CANVAS_HEIGHT - 40) 100 100 true;
                   mkBattery (CANVAS_WIDTH - 100) (CANVAS_HEIGHT - 40) 50 50 false ]
                 initialCities 0 [])
              (mkBattery (CANVAS_WIDTH / 2) (CANVAS_HEIGHT - 40) 100 100 true)
              eq_refl Hy eq_refl eq_refl) as (shots & Hm & Hl & Hb & _).
  exists shots. simpl in Hm, Hl. repeat split; auto.
  rewrite Hb, Hl. reflexivity.
Defined.

(** What a frame does to the aim of an Interceptor: start point, position,
    speed and battery are never touched.  A reference to a Rocket that is in
    the pool is kept and the target becomes the point where the first Rocket
    with that identifier is; a reference to a Rocket that is gone is dropped
    and the target stays where it was; without a reference, or with one that
    is the empty string, nothing changes.  Doing it twice is doing it once. *)
Theorem retarget_follows_or_lets_go rockets missile :
  let aimed := retarget rockets missile in
  ms_id aimed = ms_id missile /\ ms_start aimed = ms_start missile
  /\ ms_current aimed = ms_current missile
  /\ ms_speed aimed = ms_speed missile
  /\ ms_batteryIndex aimed = ms_batteryIndex missile
  /\ (forall tid, ms_targetRocketId missile = Some tid -> truthy tid = true ->
      match find (fun r => String.eqb (rk_id r) tid) rockets with
      | Some r =>
          ms_targetRocketId aimed = Some tid
          /\ ms_target aimed = mkPoint (px (rk_current r)) (py (rk_current r))
          /\ In r rockets /\ rk_id r = tid
      | None =>
          ms_targetRocketId aimed = None
          /\ ms_target aimed = ms_target missile
      end)
  /\ (ms_targetRocketId missile = None
      \/ ms_targetRocketId missile = Some EmptyString -> aimed = missile)
  /\ retarget rockets aimed = aimed.
Proof.
  cbv zeta. unfold retarget.
  destruct (ms_targetRocketId missile) as [tid|] eqn:Et.
  - destruct (truthy tid) eqn:Ety.
    + destruct (find (fun r => String.eqb (rk_id r) tid) rockets) as [r|] eqn:Ef.
      * simpl. rewrite ?Et, ?Ety, ?Ef. simpl.
        do 5 (split; [reflexivity|]). split.
        -- intros tid' [= <-] _. rewrite Ef.
           apply find_some in Ef. destruct Ef as [Hin Heq].
           apply String.eqb_eq in Heq. auto.
        -- split; [|reflexivity].
           intros [H|H]; [discriminate|]. injection H as ->. discriminate.
      * simpl. do 5 (split; [reflexivity|]). split.
        -- intros tid' [= <-] _. rewrite Ef. auto.
        -- split; [|reflexivity].
           intros [H|H]; [discriminate|]. injection H as ->. discriminate.
    + rewrite ?Et, ?Ety. do 5 (split; [reflexivity|]). split.
      * intros tid' [= <-] Hc. congruence.
      * split; reflexivity.
  - rewrite ?Et. do 5 (split; [reflexivity|]). split.
    + intros tid' Hc. discriminate.
    + split; reflexivity.
Qed.
